(** * NavidroFM: playlist reconciliation against a media library

    A shallow embedding of [app.py] (class [NavidroFM] and [main]).

    Modelling conventions.
    - Python [str] is [string], taken as its bytes; the character classes
      used by [normalize_for_matching] and [sanitize_filename] ([\w], [\s],
      [lower], [split]) are those of Python on ASCII text ([ascii_text]), a
      byte above 127 is kept as it is.
    - A JSON object is a record; a key that may be missing is an [option]
      field and [d.get(k, default)] is [default] on [None].
    - The external services (feeds, catalog, media server, file system,
      downloader, clock) are a record of operations over an abstract world
      [W]; every call threads the world, may raise, and leaves an event in
      the trace of the run.
    - [try/except Exception] is [try_catch]; [while] loops carry fuel and
      report [OutOfFuel] when it runs out, which stands for a run that does
      not end: no handler catches it and no [finally] clause follows it.
    - [log] prints a line.  The embedding leaves it out and so describes
      the runs in which printing succeeds; module [Logged] embeds the
      remainder of a sync with its log lines, for the exceptions that
      [print] may raise. *)

From Stdlib Require Import ZArith Lia Ascii String List Bool.
From stdpp Require Import base option list strings gmap.
Import ListNotations.
Local Open Scope string_scope.
Local Open Scope list_scope.

(* ===================================================================== *)
(** ** Text *)
(* ===================================================================== *)

(** A string is taken as the sequence of its bytes.  The character classes
    below are those of Python on ASCII text; the bytes of any other
    character are left as they are (see [ascii_text]). *)
Module Text.

Definition chars (s : string) : list ascii := list_ascii_of_string s.
Definition text (l : list ascii) : string := string_of_list_ascii l.

(** [bool(s)] for a Python string. *)
Definition truthy (s : string) : bool :=
  match s with EmptyString => false | String _ _ => true end.

(** [bool(d.get(k))] for an optional string. *)
Definition truthy_opt (o : option string) : bool :=
  match o with Some s => truthy s | None => false end.

Definition code (c : ascii) : nat := nat_of_ascii c.

(** [c.isspace()]: tab .. carriage return, the four separators, blank. *)
Definition is_space (c : ascii) : bool :=
  let n := code c in
  ((9 <=? n)%nat && (n <=? 13)%nat) || ((28 <=? n)%nat && (n <=? 32)%nat).

(** [\w]: letters, digits, underscore. *)
Definition is_word (c : ascii) : bool :=
  let n := code c in
  ((48 <=? n)%nat && (n <=? 57)%nat)
  || ((65 <=? n)%nat && (n <=? 90)%nat)
  || ((97 <=? n)%nat && (n <=? 122)%nat)
  || (n =? 95)%nat
  || (128 <=? n)%nat.

Definition lower_char (c : ascii) : ascii :=
  let n := code c in
  if ((65 <=? n)%nat && (n <=? 90)%nat) then ascii_of_nat (n + 32) else c.

(** [text.lower()] *)
Definition lower (s : string) : string := text (map lower_char (chars s)).

(** [re.sub(r'[^\w\s]', '', text)] *)
Definition strip_punctuation (l : list ascii) : list ascii :=
  List.filter (fun c => is_word c || is_space c) l.

(** [re.sub(r'\s+', ' ', text)]: [in_run] says that the previous character
    was white space, whose run has already been replaced. *)
Fixpoint collapse_spaces (in_run : bool) (l : list ascii) : list ascii :=
  match l with
  | [] => []
  | c :: r =>
      if is_space c
      then (if in_run then collapse_spaces true r
            else " "%char :: collapse_spaces true r)
      else c :: collapse_spaces false r
  end.

Fixpoint lstrip (l : list ascii) : list ascii :=
  match l with
  | [] => []
  | c :: r => if is_space c then lstrip r else l
  end.

(** [text.strip()] *)
Definition strip (l : list ascii) : list ascii :=
  rev (lstrip (rev (lstrip l))).

Fixpoint starts_with (p l : list ascii) : bool :=
  match p, l with
  | [], _ => true
  | _ :: _, [] => false
  | x :: p', y :: l' => Ascii.eqb x y && starts_with p' l'
  end.

Fixpoint occurs_in (p l : list ascii) : bool :=
  starts_with p l ||
  match l with
  | [] => false
  | _ :: l' => occurs_in p l'
  end.

(** [a in b] for two strings. *)
Definition str_in (a b : string) : bool := occurs_in (chars a) (chars b).

(** [sep.join(parts)] *)
Fixpoint join (sep : string) (parts : list string) : string :=
  match parts with
  | [] => ""
  | [p] => p
  | p :: rest => p +:+ sep +:+ join sep rest
  end.

(** [s.split(sep)[0]]: the text before the first occurrence of [sep]. *)
Fixpoint before_first (sep l : list ascii) : list ascii :=
  match l with
  | [] => []
  | c :: r => if starts_with sep l then [] else c :: before_first sep r
  end.

(** [filename.replace(char, '')] for every [char] of [bad]. *)
Definition remove_chars (bad : list ascii) (l : list ascii) : list ascii :=
  List.filter (fun c => negb (existsb (Ascii.eqb c) bad)) l.

End Text.

(** [normalize_for_matching]: lower case, drop punctuation, collapse white
    space, strip. *)
Definition normalize_for_matching (s : string) : string :=
  let t := Text.chars (Text.lower s) in
  let t := Text.strip_punctuation t in
  let t := Text.collapse_spaces false t in
  Text.text (Text.strip t).

(** [sanitize_filename] *)
Definition sanitize_filename (filename : string) : string :=
  let invalid_chars :=
    Text.chars "<>:" ++ [ascii_of_nat 34] ++ Text.chars "/\|?*" in
  let t := Text.remove_chars invalid_chars (Text.chars filename) in
  (* ' '.join(filename.split()) followed by strip() *)
  Text.text (Text.strip (Text.collapse_spaces false t)).

(* ===================================================================== *)
(** ** Data model *)
(* ===================================================================== *)

(** One entry of [artists] in a catalog result: a dict (with or without a
    [name]) or something else. *)
Inductive ArtistRef :=
| ArtistDict (name : option string)
| ArtistOther.

(** A candidate as the feed gives it: [{name, artists:[{name}], album}];
    [track_artists] holds the [name] of each artist dict. *)
Record Track := {
  track_name : option string;
  track_artists : list (option string);
  track_album : option string
}.

(** The [artists] field of a catalog result: a list, or any other value
    (of which [str(...)] is kept, empty when the value is falsy). *)
Inductive ArtistsField :=
| ArtistsList (l : list ArtistRef)
| ArtistsOther (shown : string).

Record AlbumRef := { album_ref_name : option string; album_ref_id : option string }.

(** A search result of the external catalog. *)
Record SearchResult := {
  res_videoId : option string;
  res_title : option string;
  res_artists : ArtistsField;
  res_album : option AlbumRef;          (* None: not a dict *)
  res_thumbnails : list (option string)  (* the [url] of each thumbnail *)
}.

Record AlbumTrack := { at_videoId : option string; at_title : option string }.

Record AlbumDetails := {
  ad_title : option string;
  ad_releaseDate : option (option string);  (* a non-empty dict, with its [year] *)
  ad_year : option string;
  ad_tracks : list AlbumTrack
}.

(** What [search_ytmusic_track] returns, and [download_track_ytmusic] and
    the library scan consume. *)
Record TrackInfo := {
  info_video_id : string;
  info_title : string;
  info_artist : string;
  info_album : string;
  info_year : string;
  info_track_number : nat;
  info_cover_url : option string;
  info_url : string
}.

(** [d.get(k, default)] *)
Definition get_or (o : option string) (default : string) : string :=
  match o with Some s => s | None => default end.

(* ===================================================================== *)
(** ** Match scoring (the loop of [search_ytmusic_track]) *)
(* ===================================================================== *)

(** [[a.get('name', '') for a in artists if isinstance(a, dict)]] *)
Definition artist_names (l : list ArtistRef) : list string :=
  omap (fun a => match a with
                 | ArtistDict n => Some (get_or n "")
                 | ArtistOther => None
                 end) l.

Definition result_artist (r : SearchResult) : string :=
  match res_artists r with
  | ArtistsList l => Text.join ", " (artist_names l)
  | ArtistsOther shown => shown
  end.

Definition result_title (r : SearchResult) : string := get_or (res_title r) "".

(** [x in y or y in x] *)
Definition contains_either (x y : string) : bool :=
  Text.str_in x y || Text.str_in y x.

(** The score of one result against the normalized target, [None] when the
    result is not eligible ([artist_match and title_match] is false). *)
Definition match_score (norm_artist norm_title : string) (r : SearchResult)
  : option nat :=
  let norm_result_artist := normalize_for_matching (result_artist r) in
  let norm_result_title := normalize_for_matching (result_title r) in
  let artist_match := contains_either norm_artist norm_result_artist in
  let title_match := contains_either norm_title norm_result_title in
  if artist_match && title_match then
    let score := 0 in
    let score :=
      if String.eqb norm_artist norm_result_artist then score + 2
      else if artist_match then score + 1 else score in
    let score :=
      if String.eqb norm_title norm_result_title then score + 2
      else if title_match then score + 1 else score in
    Some score
  else None.

(** The loop state: [(best_match, best_score)]. *)
Definition Best : Type := option SearchResult * nat.

Definition scorer_step (norm_artist norm_title : string) (st : Best)
  (r : SearchResult) : Best :=
  match match_score norm_artist norm_title r with
  | Some score => if (snd st <? score)%nat then (Some r, score) else st
  | None => st
  end.

Definition select_best_match (artist title : string)
  (results : list SearchResult) : Best :=
  let norm_artist := normalize_for_matching artist in
  let norm_title := normalize_for_matching title in
  fold_left (scorer_step norm_artist norm_title) results (None, 0).

(** [if not best_match or best_score < 2: return None].  A result that is an
    empty dict is falsy in Python; it has no [videoId], so the next test of
    the source returns [None] for it as well. *)
Definition accepted_match (b : Best) : option SearchResult :=
  match b with
  | (Some r, best_score) => if (best_score <? 2)%nat then None else Some r
  | (None, _) => None
  end.

(** The track number within the album: the loop over
    [enumerate(album_tracks, start=1)] with its two [break]s. *)
Fixpoint locate_track_number (video_id norm_search_title : string)
  (idx : nat) (album_tracks : list AlbumTrack) (track_number : nat) : nat :=
  match album_tracks with
  | [] => track_number
  | track :: rest =>
      let track_video_id := get_or (at_videoId track) "" in
      let track_title := get_or (at_title track) "" in
      let norm_track_title := normalize_for_matching track_title in
      if String.eqb track_video_id video_id then idx
      else if String.eqb norm_track_title norm_search_title then idx
      else locate_track_number video_id norm_search_title (S idx) rest track_number
  end.

(** [track_number] after the album lookup succeeded. *)
Definition album_track_number (video_id title : string)
  (album_tracks : list AlbumTrack) : nat :=
  locate_track_number video_id (normalize_for_matching title) 1 album_tracks 1.

(* ===================================================================== *)
(** ** Effects: exceptions, fuel, the world and the trace *)
(* ===================================================================== *)

(** The exception classes the code meets; all derive from [Exception]. *)
Inductive exn :=
| ValueError
| KeyError
| RequestException
| OSError
| TimeoutExpired
| ConnectionError
| IndexError
| AttributeError.

(** What an external operation answers. *)
Inductive reply (A : Type) :=
| Reply (a : A)
| Raises (e : exn).
Arguments Reply {A} a.
Arguments Raises {A} e.

(** How a computation ends. *)
Inductive outcome (A : Type) :=
| Ret (a : A)
| Exn (e : exn)
| OutOfFuel.
Arguments Ret {A} a.
Arguments Exn {A} e.
Arguments OutOfFuel {A}.

(** Parameters of [createPlaylist]: [name] creates, [playlistId] replaces
    the content with [songId] (no [songId] at all when the list is empty). *)
Record CreatePlaylist := {
  cp_name : option string;
  cp_playlistId : option string;
  cp_songId : list string
}.

(** Every call that leaves the process. *)
Inductive Event :=
| EvSleep (seconds : nat)
| EvStationGet (url : string)
| EvListenBrainzPlaylists (playlist_type : string)
| EvListenBrainzGet (playlist_id : string)
| EvGetPlaylists
| EvCreatePlaylist (params : CreatePlaylist)
| EvSearch3 (query : string) (songCount : nat)
| EvStartScan (target : option string)
| EvGetScanStatus
| EvCatalogSearch (query : string)
| EvCatalogAlbum (album_id : string)
| EvYtDlp (url output : string) (cookies : bool)
| EvSetMetadata (file : string)
| EvExists (path : string)
| EvGlob (dir : string)
| EvIsFile (path : string)
| EvUnlink (path : string)
| EvMkdir (path : string)      (* path.mkdir(parents=True, exist_ok=True) *)
| EvChmod (path : string) (mode : nat)
| EvAcquireLock
| EvReleaseLock
| EvConnect.

Definition M (W A : Type) : Type := W -> outcome A * W * list Event.

Definition ret {W A} (a : A) : M W A := fun w => (Ret a, w, []).
Definition raise {W A} (e : exn) : M W A := fun w => (Exn e, w, []).
Definition out_of_fuel {W A} : M W A := fun w => (OutOfFuel, w, []).

Definition bind {W A B} (m : M W A) (k : A -> M W B) : M W B :=
  fun w =>
    match m w with
    | (Ret a, w1, t1) =>
        match k a w1 with (o, w2, t2) => (o, w2, t1 ++ t2) end
    | (Exn e, w1, t1) => (Exn e, w1, t1)
    | (OutOfFuel, w1, t1) => (OutOfFuel, w1, t1)
    end.

(** [try: m except Exception as e: handler e] *)
Definition try_catch {W A} (m : M W A) (handler : exn -> M W A) : M W A :=
  fun w =>
    match m w with
    | (Exn e, w1, t1) =>
        match handler e w1 with (o, w2, t2) => (o, w2, t1 ++ t2) end
    | r => r
    end.

(** [try: m finally: cleanup].  A computation that runs out of fuel stands
    for one that does not end: its cleanup is never reached. *)
Definition try_finally {W A} (m : M W A) (cleanup : M W unit) : M W A :=
  fun w =>
    match m w with
    | (OutOfFuel, w1, t1) => (OutOfFuel, w1, t1)
    | (o, w1, t1) =>
        match cleanup w1 with
        | (Ret _, w2, t2) => (o, w2, t1 ++ t2)
        | (Exn e, w2, t2) => (Exn e, w2, t1 ++ t2)
        | (OutOfFuel, w2, t2) => (OutOfFuel, w2, t1 ++ t2)
        end
    end.

(** One call of an external operation, recorded in the trace. *)
Definition call {W A} (ev : Event) (op : W -> reply A * W) : M W A :=
  fun w =>
    match op w with
    | (Reply a, w1) => (Ret a, w1, [ev])
    | (Raises e, w1) => (Exn e, w1, [ev])
    end.

Declare Scope prog_scope.
Delimit Scope prog_scope with prog.
Notation "x <- c ;; k" := (bind c (fun x => k))
  (at level 100, c at next level, right associativity) : prog_scope.
Notation "c ;;; k" := (bind c (fun _ => k))
  (at level 100, right associativity) : prog_scope.
Local Open Scope prog_scope.

(** What a loop body asks for next: go on ([continue], or the end of the
    body) or leave the loop ([break]). *)
Inductive next (S : Type) :=
| Continue (s : S)
| Break (s : S).
Arguments Continue {S} s.
Arguments Break {S} s.

(** [while cond(s): body] *)
Fixpoint while_loop {W S} (fuel : nat) (cond : S -> bool)
  (body : S -> M W (next S)) (s : S) : M W S :=
  if cond s then
    match fuel with
    | O => out_of_fuel
    | Datatypes.S fuel' =>
        r <- body s ;;
        match r with
        | Continue s' => while_loop fuel' cond body s'
        | Break s' => ret s'
        end
    end
  else ret s.

(** [for x in l: body] *)
Fixpoint for_each {W A S} (l : list A) (body : A -> S -> M W (next S))
  (s : S) : M W S :=
  match l with
  | [] => ret s
  | x :: rest =>
      r <- body x s ;;
      match r with
      | Continue s' => for_each rest body s'
      | Break s' => ret s'
      end
  end.

Definition result_of {W A} (r : outcome A * W * list Event) : outcome A := r.1.1.
Definition world_of {W A} (r : outcome A * W * list Event) : W := r.1.2.
Definition trace_of {W A} (r : outcome A * W * list Event) : list Event := r.2.

(** A song of the library, a playlist and the scan status, as the media
    server reports them. *)
Record Song := { song_id : option string; song_path : option string }.
Record Playlist := { pl_id : option string; pl_name : option string }.
Record ScanStatus := { scanning : bool; scan_count : nat }.

(** A track of a ListenBrainz playlist. *)
Record LBTrack := {
  lb_title : option string;
  lb_creator : option string;
  lb_album : option string;
  lb_artist_credit_names : list (option string)
}.

(** The environment variables read by [__init__]. *)
Record Settings := {
  env_lastfm_user : string;
  env_recommended : bool;  env_recommended_tracks : Z;
  env_mix : bool;          env_mix_tracks : Z;
  env_library : bool;      env_library_tracks : Z;
  env_lz_user : option string;
  env_exploration : bool;  env_exploration_tracks : Z;
  env_jams : bool;         env_jams_tracks : Z;
  env_library_id : string
}.

(** The external collaborators, over a world [W]. *)
Record Services (W : Type) := {
  (* requests.get(url).json().get('playlist', []) *)
  station_get : string -> W -> reply (list Track) * W;
  (* fetch_listenbrainz_playlist_id: the current playlist of a kind *)
  listenbrainz_playlists_get : string -> W -> option string * W;
  (* requests.get(...).json()['playlist']['track'] *)
  listenbrainz_get : string -> W -> reply (list LBTrack) * W;
  (* _make_request, by endpoint *)
  getPlaylists : W -> reply (list Playlist) * W;
  createPlaylist : CreatePlaylist -> W -> reply (option string) * W;
  search3 : string -> nat -> W -> reply (list Song) * W;
  startScan : option string -> W -> reply unit * W;
  getScanStatus : W -> reply ScanStatus * W;
  (* ytmusicapi *)
  catalog_search : string -> W -> reply (list SearchResult) * W;
  catalog_get_album : string -> W -> reply AlbumDetails * W;
  (* subprocess.run(['yt-dlp', ...], timeout=180).returncode *)
  yt_dlp : string -> string -> bool -> W -> reply nat * W;
  (* set_metadata: its body is one try/except, it never raises *)
  write_tags : string -> TrackInfo -> W -> W;
  (* pathlib and os *)
  path_exists : string -> W -> reply bool * W;
  path_glob : string -> W -> reply (list string) * W;
  path_is_file : string -> W -> reply bool * W;
  path_unlink : string -> W -> reply unit * W;
  path_mkdir : string -> W -> reply unit * W;
  os_chmod : string -> nat -> W -> reply unit * W;
  (* time.sleep *)
  clock_sleep : nat -> W -> W;
  (* acquire_lock / release_lock *)
  flock_acquire : W -> bool * W;
  flock_release : W -> W;
  (* NavidroFM.__init__: environment, ping, YTMusic() *)
  connect : W -> reply Settings * W
}.
Arguments station_get {W} _.
Arguments listenbrainz_playlists_get {W} _.
Arguments listenbrainz_get {W} _.
Arguments getPlaylists {W} _.
Arguments createPlaylist {W} _.
Arguments search3 {W} _.
Arguments startScan {W} _.
Arguments getScanStatus {W} _.
Arguments catalog_search {W} _.
Arguments catalog_get_album {W} _.
Arguments yt_dlp {W} _.
Arguments write_tags {W} _.
Arguments path_exists {W} _.
Arguments path_glob {W} _.
Arguments path_is_file {W} _.
Arguments path_unlink {W} _.
Arguments path_mkdir {W} _.
Arguments os_chmod {W} _.
Arguments clock_sleep {W} _.
Arguments flock_acquire {W} _.
Arguments flock_release {W} _.
Arguments connect {W} _.

(** A playlist of [self.playlists] or [self.listenbrainz_playlists]. *)
Record Config := {
  cfg_enabled : bool;
  cfg_tracks : Z;
  cfg_url : option string;
  cfg_name : string;
  cfg_dir : option string;
  cfg_playlist_type : option string
}.

Record Syncer := {
  playlists : gmap string Config;
  listenbrainz_user : option string;
  listenbrainz_playlists : gmap string Config;
  cookie_file : string;
  navidrome_library_id : string
}.

Definition music_dir : string := "/music/navidrofm".

Definition station_url (user kind : string) : string :=
  "https://www.last.fm/player/station/user/" +:+ user +:+ "/" +:+ kind.

(** The dictionaries built by [__init__]. *)
Definition make_syncer (e : Settings) : Syncer :=
  let lastfm kind enabled tracks name dir :=
    {| cfg_enabled := enabled; cfg_tracks := tracks;
       cfg_url := Some (station_url (env_lastfm_user e) kind);
       cfg_name := name; cfg_dir := dir; cfg_playlist_type := None |} in
  let weekly enabled tracks name dir kind :=
    {| cfg_enabled := enabled; cfg_tracks := Z.min tracks 50;
       cfg_url := None; cfg_name := name; cfg_dir := Some dir;
       cfg_playlist_type := Some kind |} in
  {| playlists :=
       <["recommended" := lastfm "recommended" (env_recommended e)
           (env_recommended_tracks e) "Discover Recommended"
           (Some (music_dir +:+ "/recommended"))]>
       (<["mix" := lastfm "mix" (env_mix e) (env_mix_tracks e)
           "Recommended Mix" (Some (music_dir +:+ "/mix"))]>
       (<["library" := lastfm "library" (env_library e)
           (env_library_tracks e) "Library Mix" None]> ∅));
     listenbrainz_user := env_lz_user e;
     listenbrainz_playlists :=
       (* if self.listenbrainz_user: *)
       if Text.truthy_opt (env_lz_user e) then
         <["exploration" := weekly (env_exploration e)
             (env_exploration_tracks e) "Weekly Exploration"
             (music_dir +:+ "/exploration") "weekly-exploration"]>
         (<["jams" := weekly (env_jams e) (env_jams_tracks e)
             "Weekly Jams" (music_dir +:+ "/jams") "weekly-jams"]> ∅)
       else ∅;
     cookie_file := "/app/cookies/cookies.txt";
     navidrome_library_id := env_library_id e |}.

(** [directory.relative_to('/music')]: [None] stands for [ValueError]. *)
Definition relative_to_music (directory : string) : option string :=
  if String.eqb directory "/music" then Some "."
  else if Text.starts_with (Text.chars "/music/") (Text.chars directory)
       then Some (Text.text (drop 7 (Text.chars directory)))
       else None.

(** [f"{artist_name}:{track_name}"], the identity key of the fetcher. *)
Definition track_id_of (artist_name track_name : string) : string :=
  artist_name +:+ ":" +:+ track_name.

(** [artists[0].get('name', default) if artists else default_empty] *)
Definition first_artist (t : Track) (default default_empty : string) : string :=
  match track_artists t with
  | a :: _ => get_or a default
  | [] => default_empty
  end.

Definition track_id (t : Track) : string :=
  track_id_of (first_artist t "" "") (get_or (track_name t) "").

(* ===================================================================== *)
(** ** The methods of [NavidroFM] *)
(* ===================================================================== *)

(** State of the [while] loop of [fetch_lastfm_tracks]. *)
Record FetchState := {
  all_tracks : list Track;
  seen_ids : gset string;
  attempts : nat
}.

(** State of the [for] loop inside it. *)
Record ScanState := {
  sc_all_tracks : list Track;
  sc_seen_ids : gset string;
  sc_new_tracks : nat
}.

(** [for track in tracks: ...] of [fetch_lastfm_tracks], with its [break]
    once [fetch_count] tracks are held. *)
Fixpoint add_new_tracks (fetch_count : Z) (tracks : list Track)
  (st : ScanState) : ScanState :=
  match tracks with
  | [] => st
  | track :: rest =>
      let track_name := get_or (track_name track) "" in
      let artist_name := first_artist track "" "" in
      let track_id := track_id_of artist_name track_name in
      if negb (bool_decide (track_id ∈ sc_seen_ids st))
         && Text.truthy track_name && Text.truthy artist_name
      then
        let st' := {| sc_all_tracks := sc_all_tracks st ++ [track];
                      sc_seen_ids := {[track_id]} ∪ sc_seen_ids st;
                      sc_new_tracks := S (sc_new_tracks st) |} in
        if (fetch_count <=? Z.of_nat (length (sc_all_tracks st')))%Z
        then st'
        else add_new_tracks fetch_count rest st'
      else add_new_tracks fetch_count rest st
  end.

(** State of the reconciliation loops of [sync_playlist]. *)
Record SyncState := {
  success_count : Z;
  track_index : nat;
  song_ids : list string;
  downloaded_tracks : list TrackInfo;
  skipped_count : nat
}.

(** State of the first resolution pass of the library scan. *)
Record ResolveState := {
  rs_song_ids : list string;
  rs_not_found : list TrackInfo
}.

Section Methods.

Context {W : Type} (svc : Services W).

(** [time.sleep(seconds)] *)
Definition sleep (seconds : nat) : M W unit :=
  fun w => (Ret tt, clock_sleep svc seconds w, [EvSleep seconds]).

Definition max_attempts : nat := 20.
Definition backup_multiplier : Z := 3.

Definition fetch_body (url : string) (fetch_count : Z) (st : FetchState)
  : M W (next FetchState) :=
  let attempts := S (attempts st) in
  let st := {| all_tracks := all_tracks st; seen_ids := seen_ids st;
               attempts := attempts |} in
  try_catch
    (tracks <- call (EvStationGet url) (station_get svc url) ;;
     match tracks with
     | [] => ret (Break st)
     | _ :: _ =>
         let sc := add_new_tracks fetch_count tracks
                     {| sc_all_tracks := all_tracks st;
                        sc_seen_ids := seen_ids st;
                        sc_new_tracks := 0 |} in
         let st := {| all_tracks := sc_all_tracks sc;
                      seen_ids := sc_seen_ids sc;
                      attempts := attempts |} in
         if (sc_new_tracks sc =? 0)%nat then ret (Break st)
         else if (Z.of_nat (length (all_tracks st)) <? fetch_count)%Z
              then (sleep 1 ;;; ret (Continue st))
              else ret (Continue st)
     end)
    (fun _ => ret (Break st)).

Definition fetch_cond (fetch_count : Z) (st : FetchState) : bool :=
  (Z.of_nat (length (all_tracks st)) <? fetch_count)%Z
  && (attempts st <? max_attempts)%nat.

(** [fetch_lastfm_tracks] *)
Definition fetch_lastfm_tracks (url : string) (num_tracks : Z)
  : M W (list Track) :=
  let fetch_count := (num_tracks * backup_multiplier)%Z in
  st <- while_loop max_attempts (fetch_cond fetch_count)
          (fetch_body url fetch_count)
          {| all_tracks := []; seen_ids := ∅; attempts := 0 |} ;;
  ret (all_tracks st).

(** [fetch_listenbrainz_playlist_id] *)
Definition fetch_listenbrainz_playlist_id (self : Syncer)
  (playlist_type : string) : M W (option string) :=
  (* if not self.listenbrainz_user: return None *)
  if negb (Text.truthy_opt (listenbrainz_user self)) then ret None
  else
    fun w =>
      let '(r, w1) := listenbrainz_playlists_get svc playlist_type w in
      (Ret r, w1, [EvListenBrainzPlaylists playlist_type]).

(** The conversion of one ListenBrainz track; [None] is [continue]. *)
Definition convert_track (track : LBTrack) : option Track :=
  let title := get_or (lb_title track) "" in
  let artist := get_or (lb_creator track) "" in
  let album := get_or (lb_album track) "" in
  if negb (Text.truthy title) || negb (Text.truthy artist) then None
  else
    let artists_list := lb_artist_credit_names track in
    let artist :=
      if (1 <? length artists_list)%nat then
        let artist_names :=
          omap (fun a => if Text.truthy_opt a then a else None) artists_list in
        match artist_names with
        | [] => artist
        | _ :: _ => Text.join ", " artist_names
        end
      else artist in
    Some {| track_name := Some title;
            track_artists := [Some artist];
            track_album := Some album |}.

(** [fetch_listenbrainz_tracks] *)
Definition fetch_listenbrainz_tracks (playlist_id : string) (num_tracks : Z)
  : M W (list Track) :=
  try_catch
    (tracks <- call (EvListenBrainzGet playlist_id)
                 (listenbrainz_get svc playlist_id) ;;
     ret (omap convert_track tracks))
    (fun _ => ret []).

(** [get_playlist_config] *)
Definition get_playlist_config (self : Syncer) (playlist_type : string)
  : option Config :=
  match playlists self !! playlist_type with
  | Some c => Some c
  | None => listenbrainz_playlists self !! playlist_type
  end.

(** [fetch_tracks_for_playlist] *)
Definition fetch_tracks_for_playlist (self : Syncer) (playlist_type : string)
  (config : Config) : M W (list Track) :=
  if bool_decide (is_Some (playlists self !! playlist_type)) then
    match cfg_url config with
    | Some url => fetch_lastfm_tracks url (cfg_tracks config)
    | None => raise KeyError
    end
  else if bool_decide (is_Some (listenbrainz_playlists self !! playlist_type))
  then
    match cfg_playlist_type config with
    | None => raise KeyError
    | Some kind =>
        playlist_id <- fetch_listenbrainz_playlist_id self kind ;;
        match playlist_id with
        | Some id =>
            if Text.truthy id
            then fetch_listenbrainz_tracks id (cfg_tracks config)
            else ret []
        | None => ret []
        end
    end
  else ret [].

(** Enrichment from the album details: [(album_name, year, track_number)]. *)
Definition album_enrichment (video_id title : string)
  (album_details : AlbumDetails) (album_name : string)
  : string * string * nat :=
  let album_name := get_or (ad_title album_details) album_name in
  let year :=
    match ad_releaseDate album_details with
    | Some release_date => get_or release_date ""
    | None =>
        if Text.truthy_opt (ad_year album_details)
        then get_or (ad_year album_details) "" else ""
    end in
  (album_name, year, album_track_number video_id title (ad_tracks album_details)).

(** [thumbnails[-1].get('url', '')], cut before [=w]. *)
Definition cover_url_of (thumbnails : list (option string)) : option string :=
  match last thumbnails with
  | None => None
  | Some url =>
      let cover_url := get_or url "" in
      if Text.truthy cover_url && Text.str_in "=w" cover_url
      then Some (Text.text (Text.before_first (Text.chars "=w")
                              (Text.chars cover_url)))
      else Some cover_url
  end.

(** [search_ytmusic_track] *)
Definition search_ytmusic_track (artist title : string)
  : M W (option TrackInfo) :=
  try_catch
    (let query := artist +:+ " " +:+ title in
     results <- call (EvCatalogSearch query) (catalog_search svc query) ;;
     match results with
     | [] => ret None
     | _ :: _ =>
         match accepted_match (select_best_match artist title results) with
         | None => ret None
         | Some best_match =>
             match res_videoId best_match with
             | None => ret None
             | Some video_id =>
                 if negb (Text.truthy video_id) then ret None
                 else
                   let album_name :=
                     match res_album best_match with
                     | Some album_info =>
                         get_or (album_ref_name album_info) title
                     | None => title
                     end in
                   let album_id :=
                     match res_album best_match with
                     | Some album_info => album_ref_id album_info
                     | None => None
                     end in
                   enriched <-
                     (if Text.truthy_opt album_id then
                        try_catch
                          (album_details <-
                             call (EvCatalogAlbum (get_or album_id ""))
                               (catalog_get_album svc (get_or album_id "")) ;;
                           ret (album_enrichment video_id title album_details
                                  album_name))
                          (fun _ => ret (album_name, "", 1))
                      else ret (album_name, "", 1)) ;;
                   let '(album_name, year, track_number) := enriched in
                   let artist_name :=
                     match res_artists best_match with
                     | ArtistsList l => Text.join ", " (artist_names l)
                     | ArtistsOther _ => artist
                     end in
                   ret (Some
                     {| info_video_id := video_id;
                        info_title := get_or (res_title best_match) title;
                        info_artist :=
                          if Text.truthy artist_name then artist_name
                          else artist;
                        info_album := album_name;
                        info_year := year;
                        info_track_number := track_number;
                        info_cover_url :=
                          cover_url_of (res_thumbnails best_match);
                        info_url :=
                          "https://music.youtube.com/watch?v=" +:+ video_id |})
             end
         end
     end)
    (fun _ => ret None).

(** [set_metadata] *)
Definition set_metadata (file_path : string) (metadata : TrackInfo)
  : M W unit :=
  fun w => (Ret tt, write_tags svc file_path metadata w,
            [EvSetMetadata file_path]).

(** [download_track_ytmusic], called with [is_first_track=False]. *)
Definition download_track_ytmusic (self : Syncer) (video_id output_dir : string)
  (metadata : TrackInfo) : M W bool :=
  try_catch
    (let artist := info_artist metadata in
     let title := info_title metadata in
     let safe_filename := sanitize_filename (artist +:+ " - " +:+ title) in
     let url := "https://music.youtube.com/watch?v=" +:+ video_id in
     let output := output_dir +:+ "/" +:+ safe_filename +:+ ".%(ext)s" in
     cookies <- call (EvExists (cookie_file self))
                  (path_exists svc (cookie_file self)) ;;
     returncode <- call (EvYtDlp url output cookies)
                     (yt_dlp svc url output cookies) ;;
     if (returncode =? 0)%nat then
       let audio_file := output_dir +:+ "/" +:+ safe_filename +:+ ".mp3" in
       present <- call (EvExists audio_file) (path_exists svc audio_file) ;;
       (if present : bool then
          set_metadata audio_file metadata ;;;
          call (EvChmod audio_file 438) (os_chmod svc audio_file 438)
        else ret tt) ;;;
       ret true
     else ret false)
    (fun _ => ret false).

(** [_make_request('createPlaylist', {'playlistId': playlist_id})] *)
Definition clear_request (playlist_id : string) : CreatePlaylist :=
  {| cp_name := None; cp_playlistId := Some playlist_id; cp_songId := [] |}.

(** [_make_request('createPlaylist', {'playlistId': .., 'songId': ..})] *)
Definition replace_request (playlist_id : string) (ids : list string)
  : CreatePlaylist :=
  {| cp_name := None; cp_playlistId := Some playlist_id; cp_songId := ids |}.

Definition managed_names (self : Syncer) : list string :=
  map (fun kv => cfg_name kv.2) (map_to_list (playlists self))
  ++ map (fun kv => cfg_name kv.2) (map_to_list (listenbrainz_playlists self)).

(** [cleanup_missing_files] *)
Definition cleanup_missing_files (self : Syncer) : M W unit :=
  try_catch
    (pls <- call EvGetPlaylists (getPlaylists svc) ;;
     for_each pls
       (fun playlist (_ : unit) =>
          match pl_name playlist with
          | None => raise KeyError
          | Some name =>
              if bool_decide (name ∈ managed_names self) then
                match pl_id playlist with
                | None => raise KeyError
                | Some playlist_id =>
                    try_catch
                      (call (EvCreatePlaylist (clear_request playlist_id))
                         (createPlaylist svc (clear_request playlist_id)) ;;;
                       ret (Continue tt))
                      (fun _ => ret (Continue tt))
                end
              else ret (Continue tt)
          end)
       tt)
    (fun _ => ret tt).

(** The search for an existing playlist by exact name. *)
Fixpoint find_playlist (playlist_name : string) (pls : list Playlist)
  : reply (option string) :=
  match pls with
  | [] => Reply None
  | pl :: rest =>
      match pl_name pl with
      | None => Raises KeyError
      | Some name =>
          if String.eqb name playlist_name then
            match pl_id pl with
            | None => Raises KeyError
            | Some id => Reply (Some id)
            end
          else find_playlist playlist_name rest
      end
  end.

(** [get_navidrome_playlist_id] *)
Definition get_navidrome_playlist_id (playlist_name : string)
  : M W (option string) :=
  try_catch
    (pls <- call EvGetPlaylists (getPlaylists svc) ;;
     match find_playlist playlist_name pls with
     | Raises e => raise e
     | Reply (Some id) => ret (Some id)
     | Reply None =>
         let params := {| cp_name := Some playlist_name;
                          cp_playlistId := None; cp_songId := [] |} in
         call (EvCreatePlaylist params) (createPlaylist svc params)
     end)
    (fun _ => ret None).

(** [search_navidrome_track] *)
Definition search_navidrome_track (artist title : string)
  : M W (option string) :=
  try_catch
    (let query := artist +:+ " " +:+ title in
     songs <- call (EvSearch3 query 5) (search3 svc query 5) ;;
     match songs with
     | song :: _ =>
         match song_id song with
         | Some id => ret (Some id)
         | None => raise KeyError
         end
     | [] => ret None
     end)
    (fun _ => ret None).

(** [wait_time = min(max(len(downloaded_tracks), 5), 30)] *)
Definition settle_wait (downloaded : list TrackInfo) : nat :=
  Nat.min (Nat.max (length downloaded) 5) 30.

(** [retry_wait = min(len(not_found_tracks) * 2, 30)] *)
Definition retry_wait (not_found_tracks : list TrackInfo) : nat :=
  Nat.min (length not_found_tracks * 2) 30.

(** The [search3] request of the scan for one track and what it yields:
    the first song's id when there is one and it is truthy. *)
Definition lookup_song (track_info : TrackInfo) : M W (option string) :=
  let query := info_artist track_info +:+ " " +:+ info_title track_info in
  songs <- call (EvSearch3 query 10) (search3 svc query 10) ;;
  match songs with
  | song :: _ =>
      if Text.truthy_opt (song_id song) then ret (song_id song) else ret None
  | [] => ret None
  end.

(** Body of the first pass: found ids are appended to [song_ids], the
    other tracks, and those whose search raised, to [not_found_tracks]. *)
Definition first_pass_body (track_info : TrackInfo) (st : ResolveState)
  : M W (next ResolveState) :=
  if negb (Text.truthy (info_artist track_info))
     || negb (Text.truthy (info_title track_info))
  then ret (Continue st)
  else
    try_catch
      (found <- lookup_song track_info ;;
       match found with
       | Some id =>
           ret (Continue {| rs_song_ids := rs_song_ids st ++ [id];
                            rs_not_found := rs_not_found st |})
       | None =>
           ret (Continue {| rs_song_ids := rs_song_ids st;
                            rs_not_found := rs_not_found st ++ [track_info] |})
       end)
      (fun _ =>
         ret (Continue {| rs_song_ids := rs_song_ids st;
                          rs_not_found := rs_not_found st ++ [track_info] |})).

(** Body of the retry pass: found ids are appended, nothing else is kept. *)
Definition retry_body (track_info : TrackInfo) (ids : list string)
  : M W (next (list string)) :=
  if negb (Text.truthy (info_artist track_info))
     || negb (Text.truthy (info_title track_info))
  then ret (Continue ids)
  else
    try_catch
      (found <- lookup_song track_info ;;
       match found with
       | Some id => ret (Continue (ids ++ [id]))
       | None => ret (Continue ids)
       end)
      (fun _ => ret (Continue ids)).

(** Body of the polling loop, on [scan_time]. *)
Definition poll_body (scan_time : nat) : M W (next nat) :=
  sleep 2 ;;;
  let scan_time := scan_time + 2 in
  try_catch
    (status <- call EvGetScanStatus (getScanStatus svc) ;;
     if negb (scanning status) then ret (Break scan_time)
     else ret (Continue scan_time))
    (fun _ => ret (Continue scan_time)).

(** The start of the scan: scoped to the directory when its path relative
    to [/music] exists, a full one on [ValueError]. *)
Definition trigger_scan (self : Syncer) (directory : string) : M W unit :=
  try_catch
    (match relative_to_music directory with
     | None => raise ValueError
     | Some relative_path =>
         let target_path :=
           navidrome_library_id self +:+ ":" +:+ relative_path in
         call (EvStartScan (Some target_path))
           (startScan svc (Some target_path))
     end)
    (fun e =>
       match e with
       | ValueError => call (EvStartScan None) (startScan svc None)
       | _ => raise e
       end).

(** [while True: ...] until the server reports no scan; [fuel] bounds the
    number of polls, which the source does not bound. *)
Definition wait_for_scan (fuel : nat) : M W nat :=
  while_loop fuel (fun _ => true) poll_body 0.

Definition initial_resolve_state : ResolveState :=
  {| rs_song_ids := []; rs_not_found := [] |}.

(** The settling delay, the first pass, and the retry pass when some track
    was not found. *)
Definition resolve_downloaded (downloaded : list TrackInfo)
  : M W (list string) :=
  sleep (settle_wait downloaded) ;;;
  st <- for_each downloaded first_pass_body initial_resolve_state ;;
  match rs_not_found st with
  | [] => ret (rs_song_ids st)
  | _ :: _ =>
      sleep (retry_wait (rs_not_found st)) ;;;
      for_each (rs_not_found st) retry_body (rs_song_ids st)
  end.

(** [scan_and_get_songs_from_directory] *)
Definition scan_and_get_songs_from_directory (fuel : nat) (self : Syncer)
  (directory : string) (downloaded : list TrackInfo) : M W (list string) :=
  try_catch
    (match downloaded with
     | [] => ret []
     | _ :: _ =>
         trigger_scan self directory ;;;
         wait_for_scan fuel ;;;
         resolve_downloaded downloaded
     end)
    (fun _ => ret []).

(** [update_playlist] *)
Definition update_playlist (playlist_id : string) (ids : list string)
  : M W unit :=
  try_catch
    (match ids with
     | _ :: _ =>
         call (EvCreatePlaylist (replace_request playlist_id ids))
           (createPlaylist svc (replace_request playlist_id ids)) ;;;
         ret tt
     | [] =>
         call (EvCreatePlaylist (clear_request playlist_id))
           (createPlaylist svc (clear_request playlist_id)) ;;;
         ret tt
     end)
    (fun _ => ret tt).

Definition sync_cond (target_count : Z) (tracks : list Track)
  (st : SyncState) : bool :=
  (success_count st <? target_count)%Z
  && (track_index st <? length tracks)%nat.

Definition initial_sync_state : SyncState :=
  {| success_count := 0; track_index := 0; song_ids := [];
     downloaded_tracks := []; skipped_count := 0 |}.

(** Body of the loop of the [library] playlist. *)
Definition library_body (tracks : list Track) (st : SyncState)
  : M W (next SyncState) :=
  match tracks !! track_index st with
  | None => raise IndexError
  | Some track =>
      let st := {| success_count := success_count st;
                   track_index := S (track_index st);
                   song_ids := song_ids st;
                   downloaded_tracks := downloaded_tracks st;
                   skipped_count := skipped_count st |} in
      let artist := first_artist track "" "" in
      let title := get_or (track_name track) "" in
      if negb (Text.truthy artist) || negb (Text.truthy title)
      then ret (Continue st)
      else
        found <- search_navidrome_track artist title ;;
        if Text.truthy_opt found then
          ret (Continue
                 {| success_count := success_count st + 1;
                    track_index := track_index st;
                    song_ids := song_ids st ++ [get_or found ""];
                    downloaded_tracks := downloaded_tracks st;
                    skipped_count := skipped_count st |})
        else ret (Continue st)
  end.

(** Body of the reconciliation loop of the downloading playlists. *)
Definition reconcile_body (self : Syncer) (playlist_dir : string)
  (tracks : list Track) (st : SyncState) : M W (next SyncState) :=
  match tracks !! track_index st with
  | None => raise IndexError
  | Some track =>
      let st := {| success_count := success_count st;
                   track_index := S (track_index st);
                   song_ids := song_ids st;
                   downloaded_tracks := downloaded_tracks st;
                   skipped_count := skipped_count st |} in
      let artist := first_artist track "Unknown" "Unknown" in
      let title := get_or (track_name track) "Unknown" in
      existing_song_id <- search_navidrome_track artist title ;;
      if Text.truthy_opt existing_song_id then
        ret (Continue
               {| success_count := success_count st + 1;
                  track_index := track_index st;
                  song_ids := song_ids st ++ [get_or existing_song_id ""];
                  downloaded_tracks := downloaded_tracks st;
                  skipped_count := S (skipped_count st) |})
      else
        ytmusic_info <- search_ytmusic_track artist title ;;
        st' <-
          match ytmusic_info with
          | Some info =>
              downloaded <- download_track_ytmusic self (info_video_id info)
                              playlist_dir info ;;
              if downloaded : bool then
                ret {| success_count := success_count st + 1;
                       track_index := track_index st;
                       song_ids := song_ids st;
                       downloaded_tracks := downloaded_tracks st ++ [info];
                       skipped_count := skipped_count st |}
              else ret st
          | None => ret st
          end ;;
        sleep 1 ;;;
        ret (Continue st')
  end.

(** The reconciliation loop:
    [while success_count < target_count and track_index < len(tracks)]. *)
Definition reconcile (self : Syncer) (playlist_dir : string)
  (target_count : Z) (tracks : list Track) : M W SyncState :=
  while_loop (length tracks) (sync_cond target_count tracks)
    (reconcile_body self playlist_dir tracks) initial_sync_state.

Definition library_reconcile (target_count : Z) (tracks : list Track)
  : M W SyncState :=
  while_loop (length tracks) (sync_cond target_count tracks)
    (library_body tracks) initial_sync_state.

(** Body of the loop that clears the playlist directory, on [file_count]. *)
Definition clear_body (file : string) (file_count : nat) : M W (next nat) :=
  is_file <- call (EvIsFile file) (path_is_file svc file) ;;
  if is_file : bool then
    try_catch
      (call (EvUnlink file) (path_unlink svc file) ;;;
       ret (Continue (S file_count)))
      (fun _ => ret (Continue file_count))
  else ret (Continue file_count).

(** Preparation of the playlist directory in [sync_playlist].
    [playlist_dir.mkdir(parents=True, exist_ok=True)] is one call, the
    event [EvMkdir playlist_dir]: what it creates, the directory and those
    of its ancestors that are missing, is the business of the file system. *)
Definition prepare_directory (self : Syncer) (playlist_dir : string)
  : M W unit :=
  present <- call (EvExists playlist_dir) (path_exists svc playlist_dir) ;;
  if present : bool then
    files <- call (EvGlob playlist_dir) (path_glob svc playlist_dir) ;;
    file_count <- for_each files clear_body 0 ;;
    if (0 <? file_count)%nat then
      cleanup_missing_files self ;;;
      sleep (Nat.min (Nat.max (file_count / 2) 5) 20)
    else ret tt
  else
    call (EvMkdir playlist_dir) (path_mkdir svc playlist_dir) ;;;
    call (EvChmod playlist_dir 511) (os_chmod svc playlist_dir 511).

(** [sync_playlist] after [tracks] have been fetched and found non-empty. *)
Definition sync_fetched (fuel : nat) (self : Syncer) (playlist_type : string)
  (config : Config) (tracks : list Track) : M W unit :=
  playlist_id <- get_navidrome_playlist_id (cfg_name config) ;;
  if negb (Text.truthy_opt playlist_id) then ret tt
  else
    let playlist_id := get_or playlist_id "" in
    ids <-
      (if String.eqb playlist_type "library" then
         st <- library_reconcile (cfg_tracks config) tracks ;;
         ret (song_ids st)
       else
         match cfg_dir config with
         | None => raise AttributeError
         | Some playlist_dir =>
             prepare_directory self playlist_dir ;;;
             sleep 2 ;;;
             st <- reconcile self playlist_dir (cfg_tracks config) tracks ;;
             match downloaded_tracks st with
             | _ :: _ =>
                 new_song_ids <-
                   scan_and_get_songs_from_directory fuel self playlist_dir
                     (downloaded_tracks st) ;;
                 ret (song_ids st ++ new_song_ids)
             | [] => ret (song_ids st)
             end
         end) ;;
    update_playlist playlist_id ids.

(** [sync_playlist] *)
Definition sync_playlist (fuel : nat) (self : Syncer) (playlist_type : string)
  : M W unit :=
  match get_playlist_config self playlist_type with
  | None => ret tt
  | Some config =>
      if negb (cfg_enabled config) then ret tt
      else
        tracks <- fetch_tracks_for_playlist self playlist_type config ;;
        match tracks with
        | [] => ret tt
        | _ :: _ => sync_fetched fuel self playlist_type config tracks
        end
  end.

(** [acquire_lock] and [release_lock] *)
Definition acquire_lock : M W bool :=
  fun w => let '(got, w1) := flock_acquire svc w in (Ret got, w1, [EvAcquireLock]).

Definition release_lock : M W unit :=
  fun w => (Ret tt, flock_release svc w, [EvReleaseLock]).

(** [main]: the exit status of the process for the arguments [argv]
    ([sys.argv[1:]]).  The closing log lines (next schedule, current time)
    are left out. *)
Definition main (fuel : nat) (argv : list string) : M W nat :=
  match argv with
  | [] => ret 1
  | playlist_type :: _ =>
      locked <- acquire_lock ;;
      if negb locked then ret 0
      else
        try_finally
          (try_catch
             (settings <- call EvConnect (connect svc) ;;
              let syncer := make_syncer settings in
              (if String.eqb playlist_type "all" then
                 for_each ["recommended"; "mix"; "library"]
                   (fun ptype (_ : unit) =>
                      sync_playlist fuel syncer ptype ;;; ret (Continue tt))
                   tt ;;;
                 for_each ["exploration"; "jams"]
                   (fun ptype (_ : unit) =>
                      sync_playlist fuel syncer ptype ;;; ret (Continue tt))
                   tt
               else sync_playlist fuel syncer playlist_type) ;;;
              ret 0)
             (fun _ => ret 1))
          release_lock
  end.

(* --------------------------------------------------------------------- *)
(** *** The words of the specification, for comparison with the code *)
(* --------------------------------------------------------------------- *)

(** The contract of the Acquirer: what one iteration of the reconciliation
    loop decides for a candidate. *)
Inductive Acquired :=
| AlreadyPresent (song : string)
| AcquiredTrack (info : TrackInfo)
| NotFound
| DownloadFailed.

Definition acquire (self : Syncer) (target_dir artist title : string)
  : M W Acquired :=
  existing <- search_navidrome_track artist title ;;
  if Text.truthy_opt existing then ret (AlreadyPresent (get_or existing ""))
  else
    found <- search_ytmusic_track artist title ;;
    match found with
    | None => ret NotFound
    | Some info =>
        downloaded <- download_track_ytmusic self (info_video_id info)
                        target_dir info ;;
        if downloaded : bool then ret (AcquiredTrack info)
        else ret DownloadFailed
    end.

Definition acquired_ok (r : Acquired) : bool :=
  match r with
  | AlreadyPresent _ | AcquiredTrack _ => true
  | NotFound | DownloadFailed => false
  end.

(** A track of the scan that has both an artist and a title. *)
Definition searchable (track_info : TrackInfo) : bool :=
  Text.truthy (info_artist track_info) && Text.truthy (info_title track_info).

(** One resolution attempt: the identifier of the track when the library
    search finds it. *)
Definition attempt (track_info : TrackInfo) : M W (option string) :=
  if searchable track_info
  then try_catch (lookup_song track_info) (fun _ => ret None)
  else ret None.

(** One pass: an attempt for each track, in order. *)
Fixpoint attempt_all (l : list TrackInfo) : M W (list (option string)) :=
  match l with
  | [] => ret []
  | track_info :: rest =>
      r <- attempt track_info ;;
      rs <- attempt_all rest ;;
      ret (r :: rs)
  end.

End Methods.

(** The identifiers found by a pass. *)
Definition found_ids (rs : list (option string)) : list string :=
  omap id rs.

(** The not-found set of a pass: the searchable tracks without identifier. *)
Fixpoint not_found_of (l : list TrackInfo) (rs : list (option string))
  : list TrackInfo :=
  match l, rs with
  | track_info :: l', r :: rs' =>
      if searchable track_info && negb (bool_decide (is_Some r))
      then track_info :: not_found_of l' rs'
      else not_found_of l' rs'
  | _, _ => []
  end.

(** The [search3] requests of a pass over [l]. *)
Definition searches (l : list TrackInfo) : list Event :=
  map (fun t => EvSearch3 (info_artist t +:+ " " +:+ info_title t) 10)
    (List.filter searchable l).

(** [clamp(x, lo, hi)] *)
Definition clamp (x lo hi : nat) : nat :=
  if (x <? lo)%nat then lo else if (hi <? x)%nat then hi else x.

Definition is_sleep (e : Event) : bool :=
  match e with EvSleep _ => true | _ => false end.

(** The identity of a candidate according to the data model of the
    specification: the case-folded pair (artist, title). *)
Definition spec_identity_key (t : Track) : string * string :=
  (Text.lower (first_artist t "" ""), Text.lower (get_or (track_name t) "")).

(** A candidate with a non-empty title and a non-empty first artist. *)
Definition well_formed (t : Track) : Prop :=
  get_or (track_name t) "" ≠ "" ∧ first_artist t "" "" ≠ "".

(** Whether an album track matches by external id or by normalized title. *)
Definition track_hit (video_id title : string) (t : AlbumTrack) : bool :=
  String.eqb (get_or (at_videoId t) "") video_id
  || String.eqb (normalize_for_matching (get_or (at_title t) ""))
       (normalize_for_matching title).

(* ===================================================================== *)
(** ** Invariants and observations used by the proofs *)
(* ===================================================================== *)

(** What the scorer holds after the results [seen]: nothing when none of
    them is eligible, otherwise the first of those with the highest score. *)
Definition best_of (norm_artist norm_title : string)
  (seen : list SearchResult) (b : Best) : Prop :=
  match b with
  | (None, s) =>
      s = 0%nat ∧ ∀ r, r ∈ seen → match_score norm_artist norm_title r = None
  | (Some r, s) =>
      ∃ i, seen !! i = Some r
           ∧ match_score norm_artist norm_title r = Some s
           ∧ ∀ j r' s', seen !! j = Some r' →
               match_score norm_artist norm_title r' = Some s' →
               (s' ≤ s)%nat ∧ (j < i → s' < s)%nat
  end.

(** The tracks held by the fetcher bear pairwise different keys, all of
    them recorded in [seen], and are well formed. *)
Definition fetch_inv (tracks : list Track) (seen : gset string) : Prop :=
  NoDup (map track_id tracks)
  ∧ (∀ t, t ∈ tracks → track_id t ∈ seen)
  ∧ Forall well_formed tracks.

(** A computation that always returns a value. *)
Definition returns {W A} (m : M W A) : Prop :=
  ∀ w, ∃ a, result_of (m w) = Ret a.

(** A computation that never runs out of fuel. *)
Definition halts {W A} (m : M W A) : Prop :=
  ∀ w, result_of (m w) ≠ OutOfFuel.

(** A computation that lets no exception out. *)
Definition never_raises {W A} (m : M W A) : Prop :=
  ∀ w e, result_of (m w) ≠ Exn e.

(** The server reports the end of the scan at one of the next [k] polls
    made from the world [w]. *)
Fixpoint quiescent_within {W} (svc : Services W) (k : nat) (w : W) : Prop :=
  match k with
  | O => False
  | S k' =>
      match getScanStatus svc (clock_sleep svc 2 w) with
      | (Reply status, w1) =>
          if scanning status then quiescent_within svc k' w1 else True
      | (Raises _, w1) => quiescent_within svc k' w1
      end
  end.

(** ASCII text: the strings on which [Text.lower], [Text.is_word] and
    [Text.is_space] are [str.lower], [\w] and [\s] (or [str.split]) of
    Python. *)
Definition ascii_char (c : ascii) : bool := (Text.code c <? 128)%nat.

Definition ascii_text (s : string) : bool :=
  forallb ascii_char (Text.chars s).

(** A catalog result whose artist and title are ASCII text. *)
Definition ascii_result (r : SearchResult) : bool :=
  ascii_text (result_artist r) && ascii_text (result_title r).

(** No two white-space characters in a row. *)
Fixpoint single_spaced (l : list ascii) : Prop :=
  match l with
  | a :: (b :: _) as rest =>
      ¬ (Text.is_space a = true ∧ Text.is_space b = true) ∧ single_spaced rest
  | _ => True
  end.

(** The list does not start with white space. *)
Definition starts_clean (l : list ascii) : Prop :=
  match l with
  | [] => True
  | c :: _ => Text.is_space c = false
  end.

(** A character that normalization leaves alone: lower case, a word
    character or the blank. *)
Definition normal_char (c : ascii) : Prop :=
  Text.lower_char c = c
  ∧ (Text.is_word c || Text.is_space c) = true
  ∧ (Text.is_space c = true → c = " "%char).

(** A normalized text: normal characters, single blanks between words,
    none at either end. *)
Definition normal_text (l : list ascii) : Prop :=
  Forall normal_char l ∧ single_spaced l
  ∧ starts_clean l ∧ starts_clean (rev l).

(** Every event of the computation satisfies [E], and its value, when it
    returns one, satisfies [R]. *)
Definition ensures {W A} (m : M W A) (E : Event → Prop) (R : A → Prop) : Prop :=
  ∀ w, Forall E (trace_of (m w))
       ∧ match result_of (m w) with Ret a => R a | _ => True end.

(** The state a loop body hands over. *)
Definition next_state {S} (r : next S) : S :=
  match r with Continue s | Break s => s end.

(** Every event of the computation satisfies [E]. *)
Definition emits {W A} (m : M W A) (E : Event → Prop) : Prop :=
  ensures m E (fun _ => True).

Definition is_station_get (e : Event) : bool :=
  match e with EvStationGet _ => true | _ => false end.

(** What an event does to the outside. *)
Inductive kind :=
| KFeed           (* a request to a recommendation feed *)
| KSleep
| KPlaylistRead   (* getPlaylists *)
| KPlaylistWrite  (* createPlaylist *)
| KSearch         (* search3 *)
| KScan           (* startScan, getScanStatus *)
| KCatalog        (* catalog search and album lookup *)
| KDownload       (* yt-dlp and the tag writer *)
| KStat           (* exists, glob, is_file *)
| KDelete         (* unlink *)
| KMkdir
| KChmod
| KLock
| KSetup.

Definition kind_of (e : Event) : kind :=
  match e with
  | EvSleep _ => KSleep
  | EvStationGet _ | EvListenBrainzPlaylists _ | EvListenBrainzGet _ => KFeed
  | EvGetPlaylists => KPlaylistRead
  | EvCreatePlaylist _ => KPlaylistWrite
  | EvSearch3 _ _ => KSearch
  | EvStartScan _ | EvGetScanStatus => KScan
  | EvCatalogSearch _ | EvCatalogAlbum _ => KCatalog
  | EvYtDlp _ _ _ | EvSetMetadata _ => KDownload
  | EvExists _ | EvGlob _ | EvIsFile _ => KStat
  | EvUnlink _ => KDelete
  | EvMkdir _ => KMkdir
  | EvChmod _ _ => KChmod
  | EvAcquireLock | EvReleaseLock => KLock
  | EvConnect => KSetup
  end.

Definition kind_eqb (a b : kind) : bool :=
  match a, b with
  | KFeed, KFeed | KSleep, KSleep | KPlaylistRead, KPlaylistRead
  | KPlaylistWrite, KPlaylistWrite | KSearch, KSearch | KScan, KScan
  | KCatalog, KCatalog | KDownload, KDownload | KStat, KStat
  | KDelete, KDelete | KMkdir, KMkdir | KChmod, KChmod | KLock, KLock
  | KSetup, KSetup => true
  | _, _ => false
  end.

(** The event is of one of the kinds [ks]. *)
Definition only (ks : list kind) (e : Event) : Prop :=
  existsb (kind_eqb (kind_of e)) ks = true.

(** The counters of the reconciliation loop agree with what it has
    recorded. *)
Definition accounted (st : SyncState) : Prop :=
  skipped_count st = length (song_ids st)
  ∧ success_count st
    = Z.of_nat (length (song_ids st) + length (downloaded_tracks st)).

(** What a sync of a playlist with directory [dir] and target [limit] may
    do: write at most [limit] songs to a playlist, delete only files that
    a listing of the directory gave, call [mkdir] on that directory only, and
    neither touch the lock nor connect again. *)
Definition sync_event {W} (svc : Services W) (dir : option string) (limit : Z)
  (ev : Event) : Prop :=
  match ev with
  | EvCreatePlaylist p => (Z.of_nat (length (cp_songId p)) ≤ Z.max 0 limit)%Z
  | EvUnlink f =>
      ∃ d w0 files w1,
        dir = Some d ∧ path_glob svc d w0 = (Reply files, w1) ∧ f ∈ files
  | EvMkdir d => dir = Some d
  | EvAcquireLock | EvReleaseLock | EvConnect => False
  | _ => True
  end.

(** The state of the [library] loop: every success is a recorded
    identifier, nothing is downloaded. *)
Definition library_accounted (target : Z) (st : SyncState) : Prop :=
  success_count st = Z.of_nat (length (song_ids st))
  ∧ downloaded_tracks st = []
  ∧ (success_count st ≤ Z.max 0 target)%Z.

(* ===================================================================== *)
(** ** The remainder of a sync, with its log lines *)
(* ===================================================================== *)

(** The embedding above takes a [log] call for what it is in an undisturbed
    run, a line on the standard output, and leaves it out.  [log] is
    [print(message, flush=True)], and [print] raises when the standard
    output fails or the message cannot be encoded.  For the question of
    what can leave a sync, the part of [sync_playlist] that follows the
    fetch is embedded here once more, with every [log] and
    [traceback.print_exc] call at its place.  The message of a call is
    given by its text in the source, without the values it interpolates:
    what [print] answers may depend on the world in any way. *)
Module Logged.

Section Methods.

Context {W : Type} (svc : Services W).

(** [print(message, flush=True)], and [traceback.print_exc()]. *)
Context (print : string → W → reply unit * W).

(** The [try] block of [set_metadata]: reading the file, writing the tags,
    fetching the cover, saving, and the two warnings it prints. *)
Context (write_tags_body : string → TrackInfo → W → reply unit * W).

(** [log]: a call of [print]; it is no event of the trace. *)
Definition log (message : string) : M W unit :=
  fun w =>
    match print message w with
    | (Reply _, w1) => (Ret tt, w1, [])
    | (Raises e, w1) => (Exn e, w1, [])
    end.

Definition print_exc : M W unit := log "traceback.print_exc()".

(** [search_navidrome_track] *)
Definition search_navidrome_track (artist title : string)
  : M W (option string) :=
  try_catch
    (let query := artist +:+ " " +:+ title in
     songs <- call (EvSearch3 query 5) (search3 svc query 5) ;;
     match songs with
     | song :: _ =>
         match song_id song with
         | Some id => ret (Some id)
         | None => raise KeyError
         end
     | [] => ret None
     end)
    (fun _ => log "Error searching for track: {e}" ;;; ret None).

(** [search_ytmusic_track] *)
Definition search_ytmusic_track (artist title : string)
  : M W (option TrackInfo) :=
  try_catch
    (let query := artist +:+ " " +:+ title in
     results <- call (EvCatalogSearch query) (catalog_search svc query) ;;
     match results with
     | [] => ret None
     | _ :: _ =>
         match accepted_match (select_best_match artist title results) with
         | None => ret None
         | Some best_match =>
             match res_videoId best_match with
             | None => ret None
             | Some video_id =>
                 if negb (Text.truthy video_id) then ret None
                 else
                   let album_name :=
                     match res_album best_match with
                     | Some album_info =>
                         get_or (album_ref_name album_info) title
                     | None => title
                     end in
                   let album_id :=
                     match res_album best_match with
                     | Some album_info => album_ref_id album_info
                     | None => None
                     end in
                   enriched <-
                     (if Text.truthy_opt album_id then
                        try_catch
                          (album_details <-
                             call (EvCatalogAlbum (get_or album_id ""))
                               (catalog_get_album svc (get_or album_id "")) ;;
                           ret (album_enrichment video_id title album_details
                                  album_name))
                          (fun _ =>
                             log "  Warning: Could not get album details: {e}" ;;;
                             ret (album_name, "", 1))
                      else ret (album_name, "", 1)) ;;
                   let '(album_name, year, track_number) := enriched in
                   let artist_name :=
                     match res_artists best_match with
                     | ArtistsList l => Text.join ", " (artist_names l)
                     | ArtistsOther _ => artist
                     end in
                   ret (Some
                     {| info_video_id := video_id;
                        info_title := get_or (res_title best_match) title;
                        info_artist :=
                          if Text.truthy artist_name then artist_name
                          else artist;
                        info_album := album_name;
                        info_year := year;
                        info_track_number := track_number;
                        info_cover_url :=
                          cover_url_of (res_thumbnails best_match);
                        info_url :=
                          "https://music.youtube.com/watch?v=" +:+ video_id |})
             end
         end
     end)
    (fun _ => log "  YouTube Music search error: {e}" ;;; ret None).

(** [set_metadata] *)
Definition set_metadata (file_path : string) (metadata : TrackInfo)
  : M W unit :=
  try_catch
    (call (EvSetMetadata file_path) (write_tags_body file_path metadata))
    (fun _ => log "  Warning: Could not set metadata: {e}").

(** [download_track_ytmusic], called with [is_first_track=False]. *)
Definition download_track_ytmusic (self : Syncer) (video_id output_dir : string)
  (metadata : TrackInfo) : M W bool :=
  try_catch
    (let artist := info_artist metadata in
     let title := info_title metadata in
     let safe_filename := sanitize_filename (artist +:+ " - " +:+ title) in
     let url := "https://music.youtube.com/watch?v=" +:+ video_id in
     let output := output_dir +:+ "/" +:+ safe_filename +:+ ".%(ext)s" in
     cookies <- call (EvExists (cookie_file self))
                  (path_exists svc (cookie_file self)) ;;
     (if cookies : bool then ret tt
      else log "  Warning: Cookie file not found at {self.cookie_file}") ;;;
     returncode <- call (EvYtDlp url output cookies)
                     (yt_dlp svc url output cookies) ;;
     if (returncode =? 0)%nat then
       let audio_file := output_dir +:+ "/" +:+ safe_filename +:+ ".mp3" in
       present <- call (EvExists audio_file) (path_exists svc audio_file) ;;
       (if present : bool then
          set_metadata audio_file metadata ;;;
          call (EvChmod audio_file 438) (os_chmod svc audio_file 438)
        else ret tt) ;;;
       ret true
     else
       log "  Download failed: {error}" ;;;
       ret false)
    (fun e =>
       match e with
       | TimeoutExpired => log "  Timeout" ;;; ret false
       | _ => log "  Error: {e}" ;;; ret false
       end).

(** [cleanup_missing_files] *)
Definition cleanup_missing_files (self : Syncer) : M W unit :=
  try_catch
    (pls <- call EvGetPlaylists (getPlaylists svc) ;;
     for_each pls
       (fun playlist (_ : unit) =>
          match pl_name playlist with
          | None => raise KeyError
          | Some name =>
              if bool_decide (name ∈ managed_names self) then
                match pl_id playlist with
                | None => raise KeyError
                | Some playlist_id =>
                    try_catch
                      (call (EvCreatePlaylist (clear_request playlist_id))
                         (createPlaylist svc (clear_request playlist_id)) ;;;
                       ret (Continue tt))
                      (fun _ =>
                         log "    Warning: Could not clear playlist: {e}" ;;;
                         ret (Continue tt))
                end
              else ret (Continue tt)
          end)
       tt)
    (fun _ => log "Warning: Could not cleanup playlists: {e}").

(** [get_navidrome_playlist_id] *)
Definition get_navidrome_playlist_id (playlist_name : string)
  : M W (option string) :=
  try_catch
    (log "Fetching playlists from Navidrome..." ;;;
     pls <- call EvGetPlaylists (getPlaylists svc) ;;
     match find_playlist playlist_name pls with
     | Raises e => raise e
     | Reply (Some id) =>
         log "Found existing playlist: {playlist_name} (ID: {pl['id']})" ;;;
         ret (Some id)
     | Reply None =>
         log "Creating new playlist: {playlist_name}" ;;;
         let params := {| cp_name := Some playlist_name;
                          cp_playlistId := None; cp_songId := [] |} in
         playlist_id <- call (EvCreatePlaylist params)
                          (createPlaylist svc params) ;;
         (if Text.truthy_opt playlist_id
          then log "Created playlist: {playlist_name} (ID: {playlist_id})"
          else ret tt) ;;;
         ret playlist_id
     end)
    (fun _ =>
       log "Error managing playlist: {e}" ;;;
       print_exc ;;;
       ret None).

(** The start of the scan in [scan_and_get_songs_from_directory]. *)
Definition trigger_scan (self : Syncer) (directory : string)
  (downloaded : list TrackInfo) : M W unit :=
  try_catch
    (match relative_to_music directory with
     | None => raise ValueError
     | Some relative_path =>
         let target_path :=
           navidrome_library_id self +:+ ":" +:+ relative_path in
         log "Triggering selective Navidrome scan for {len(downloaded_tracks)} new tracks..." ;;;
         call (EvStartScan (Some target_path))
           (startScan svc (Some target_path))
     end)
    (fun e =>
       match e with
       | ValueError =>
           log "Warning: Could not determine relative path for {directory}, falling back to full scan" ;;;
           log "Triggering Navidrome library scan for {len(downloaded_tracks)} new tracks..." ;;;
           call (EvStartScan None) (startScan svc None)
       | _ => raise e
       end).

(** Body of the polling loop, on [scan_time]. *)
Definition poll_body (scan_time : nat) : M W (next nat) :=
  sleep svc 2 ;;;
  let scan_time := scan_time + 2 in
  try_catch
    (status <- call EvGetScanStatus (getScanStatus svc) ;;
     if negb (scanning status) then
       log "Scan completed after {scan_time}s ({count} items processed)" ;;;
       ret (Break scan_time)
     else
       (if (scan_time mod 20 =? 0)%nat
        then log "  Still scanning... ({scan_time}s, {count} items so far)"
        else ret tt) ;;;
       ret (Continue scan_time))
    (fun _ =>
       (if (scan_time mod 30 =? 0)%nat
        then log "  Warning: Could not check scan status: {e}"
        else ret tt) ;;;
       ret (Continue scan_time)).

Definition wait_for_scan (fuel : nat) : M W nat :=
  while_loop fuel (fun _ => true) poll_body 0.

(** Body of the first pass. *)
Definition first_pass_body (track_info : TrackInfo) (st : ResolveState)
  : M W (next ResolveState) :=
  let not_found :=
    {| rs_song_ids := rs_song_ids st;
       rs_not_found := rs_not_found st ++ [track_info] |} in
  if negb (Text.truthy (info_artist track_info))
     || negb (Text.truthy (info_title track_info))
  then ret (Continue st)
  else
    try_catch
      (let query := info_artist track_info +:+ " " +:+ info_title track_info in
       songs <- call (EvSearch3 query 10) (search3 svc query 10) ;;
       match songs with
       | song :: _ =>
           if Text.truthy_opt (song_id song) then
             ret (Continue
                    {| rs_song_ids :=
                         rs_song_ids st ++ [get_or (song_id song) ""];
                       rs_not_found := rs_not_found st |})
           else
             log "  [{i}/{len(downloaded_tracks)}] No valid song ID for: {artist} - {title}" ;;;
             ret (Continue not_found)
       | [] =>
           log "  [{i}/{len(downloaded_tracks)}] Not found: {artist} - {title}" ;;;
           ret (Continue not_found)
       end)
      (fun _ =>
         log "  [{i}/{len(downloaded_tracks)}] Search error for {artist} - {title}: {e}" ;;;
         ret (Continue not_found)).

(** Body of the retry pass.  An identifier is appended before the line
    that reports it is printed: when that [print] raises, the handler finds
    the identifier kept. *)
Definition retry_body (track_info : TrackInfo) (ids : list string)
  : M W (next (list string)) :=
  if negb (Text.truthy (info_artist track_info))
     || negb (Text.truthy (info_title track_info))
  then ret (Continue ids)
  else
    let handler (ids : list string) :=
      log "  Retry search error for {artist} - {title}: {e}" ;;;
      ret (Continue ids) in
    try_catch
      (let query := info_artist track_info +:+ " " +:+ info_title track_info in
       songs <- call (EvSearch3 query 10) (search3 svc query 10) ;;
       match songs with
       | song :: _ =>
           if Text.truthy_opt (song_id song) then
             let ids := ids ++ [get_or (song_id song) ""] in
             try_catch
               (log "  Found on retry: {artist} - {title}" ;;;
                ret (Continue ids))
               (fun _ => handler ids)
           else ret (Continue ids)
       | [] => ret (Continue ids)
       end)
      (fun _ => handler ids).

(** The settling delay, the first pass, and the retry pass when some track
    was not found. *)
Definition resolve_downloaded (downloaded : list TrackInfo)
  : M W (list string) :=
  log "Waiting {wait_time}s for indexing to complete..." ;;;
  sleep svc (settle_wait downloaded) ;;;
  log "\nSearching for {len(downloaded_tracks)} downloaded tracks in Navidrome..." ;;;
  st <- for_each downloaded first_pass_body initial_resolve_state ;;
  song_ids <-
    match rs_not_found st with
    | [] => ret (rs_song_ids st)
    | _ :: _ =>
        log "\n{len(not_found_tracks)} tracks not found, waiting {retry_wait}s and retrying..." ;;;
        sleep svc (retry_wait (rs_not_found st)) ;;;
        for_each (rs_not_found st) retry_body (rs_song_ids st)
    end ;;
  log "\nFound {len(song_ids)}/{len(downloaded_tracks)} tracks in Navidrome" ;;;
  ret song_ids.

(** [scan_and_get_songs_from_directory] *)
Definition scan_and_get_songs_from_directory (fuel : nat) (self : Syncer)
  (directory : string) (downloaded : list TrackInfo) : M W (list string) :=
  try_catch
    (match downloaded with
     | [] =>
         log "No new tracks downloaded, skipping scan" ;;;
         ret []
     | _ :: _ =>
         trigger_scan self directory downloaded ;;;
         log "Waiting for scan to complete..." ;;;
         wait_for_scan fuel ;;;
         resolve_downloaded downloaded
     end)
    (fun _ =>
       log "Error scanning and searching tracks: {e}" ;;;
       print_exc ;;;
       ret []).

(** [update_playlist] *)
Definition update_playlist (playlist_id : string) (ids : list string)
  : M W unit :=
  try_catch
    (log "Updating playlist with {len(song_ids)} tracks..." ;;;
     match ids with
     | _ :: _ =>
         call (EvCreatePlaylist (replace_request playlist_id ids))
           (createPlaylist svc (replace_request playlist_id ids)) ;;;
         log "Updated playlist with {len(song_ids)} tracks"
     | [] =>
         call (EvCreatePlaylist (clear_request playlist_id))
           (createPlaylist svc (clear_request playlist_id)) ;;;
         log "Cleared playlist (no songs to add)"
     end)
    (fun _ =>
       log "Error updating playlist: {e}" ;;;
       print_exc).

(** Body of the loop of the [library] playlist. *)
Definition library_body (tracks : list Track) (st : SyncState)
  : M W (next SyncState) :=
  match tracks !! track_index st with
  | None => raise IndexError
  | Some track =>
      let st := {| success_count := success_count st;
                   track_index := S (track_index st);
                   song_ids := song_ids st;
                   downloaded_tracks := downloaded_tracks st;
                   skipped_count := skipped_count st |} in
      let artist := first_artist track "" "" in
      let title := get_or (track_name track) "" in
      if negb (Text.truthy artist) || negb (Text.truthy title)
      then ret (Continue st)
      else
        log "[{success_count+1}/{target_count}] Searching: {artist} - {title}" ;;;
        found <- search_navidrome_track artist title ;;
        if Text.truthy_opt found then
          log "  Found in library" ;;;
          ret (Continue
                 {| success_count := success_count st + 1;
                    track_index := track_index st;
                    song_ids := song_ids st ++ [get_or found ""];
                    downloaded_tracks := downloaded_tracks st;
                    skipped_count := skipped_count st |})
        else
          log "  Not found in library, trying next backup track" ;;;
          ret (Continue st)
  end.

Definition library_reconcile (target_count : Z) (tracks : list Track)
  : M W SyncState :=
  while_loop (length tracks) (sync_cond target_count tracks)
    (library_body tracks) initial_sync_state.

(** Body of the reconciliation loop of the downloading playlists. *)
Definition reconcile_body (self : Syncer) (playlist_dir : string)
  (tracks : list Track) (st : SyncState) : M W (next SyncState) :=
  match tracks !! track_index st with
  | None => raise IndexError
  | Some track =>
      let st := {| success_count := success_count st;
                   track_index := S (track_index st);
                   song_ids := song_ids st;
                   downloaded_tracks := downloaded_tracks st;
                   skipped_count := skipped_count st |} in
      let artist := first_artist track "Unknown" "Unknown" in
      let title := get_or (track_name track) "Unknown" in
      log "\n[{success_count+1}/{target_count}] Attempting: {artist} - {title}" ;;;
      existing_song_id <- search_navidrome_track artist title ;;
      if Text.truthy_opt existing_song_id then
        log "  Already in Navidrome library, skipping download" ;;;
        ret (Continue
               {| success_count := success_count st + 1;
                  track_index := track_index st;
                  song_ids := song_ids st ++ [get_or existing_song_id ""];
                  downloaded_tracks := downloaded_tracks st;
                  skipped_count := S (skipped_count st) |})
      else
        ytmusic_info <- search_ytmusic_track artist title ;;
        st' <-
          match ytmusic_info with
          | Some info =>
              downloaded <- download_track_ytmusic self (info_video_id info)
                              playlist_dir info ;;
              if downloaded : bool then
                log "  Downloaded successfully" ;;;
                ret {| success_count := success_count st + 1;
                       track_index := track_index st;
                       song_ids := song_ids st;
                       downloaded_tracks := downloaded_tracks st ++ [info];
                       skipped_count := skipped_count st |}
              else
                log "  Download failed, trying next backup track" ;;;
                ret st
          | None =>
              log "  Not found on YouTube Music, trying next backup track" ;;;
              ret st
          end ;;
        sleep svc 1 ;;;
        ret (Continue st')
  end.

Definition reconcile (self : Syncer) (playlist_dir : string)
  (target_count : Z) (tracks : list Track) : M W SyncState :=
  while_loop (length tracks) (sync_cond target_count tracks)
    (reconcile_body self playlist_dir tracks) initial_sync_state.

(** Body of the loop that clears the playlist directory, on [file_count]. *)
Definition clear_body (file : string) (file_count : nat) : M W (next nat) :=
  is_file <- call (EvIsFile file) (path_is_file svc file) ;;
  if is_file : bool then
    try_catch
      (call (EvUnlink file) (path_unlink svc file) ;;;
       ret (Continue (S file_count)))
      (fun _ =>
         log "  Warning: Could not delete {file}: {e}" ;;;
         ret (Continue file_count))
  else ret (Continue file_count).

(** Preparation of the playlist directory in [sync_playlist];
    [playlist_dir.mkdir(parents=True, exist_ok=True)] is one call. *)
Definition prepare_directory (self : Syncer) (playlist_dir : string)
  : M W unit :=
  present <- call (EvExists playlist_dir) (path_exists svc playlist_dir) ;;
  if present : bool then
    log "\nClearing old songs in {playlist_dir}" ;;;
    files <- call (EvGlob playlist_dir) (path_glob svc playlist_dir) ;;
    file_count <- for_each files clear_body 0 ;;
    log "Removed {file_count} old songs" ;;;
    if (0 <? file_count)%nat then
      cleanup_missing_files self ;;;
      sleep svc (Nat.min (Nat.max (file_count / 2) 5) 20)
    else ret tt
  else
    call (EvMkdir playlist_dir) (path_mkdir svc playlist_dir) ;;;
    call (EvChmod playlist_dir 511) (os_chmod svc playlist_dir 511) ;;;
    log "Created directory: {playlist_dir}".

(** [sync_playlist] after [tracks] have been fetched and found non-empty:
    lines 876 to 995. *)
Definition sync_fetched (fuel : nat) (self : Syncer) (playlist_type : string)
  (config : Config) (tracks : list Track) : M W unit :=
  playlist_id <- get_navidrome_playlist_id (cfg_name config) ;;
  if negb (Text.truthy_opt playlist_id) then
    log "Failed to get/create playlist"
  else
    let playlist_id := get_or playlist_id "" in
    let is_library := String.eqb playlist_type "library" in
    ids <-
      (if is_library then
         log "\nBuilding library playlist from existing songs..." ;;;
         st <- library_reconcile (cfg_tracks config) tracks ;;
         ret (song_ids st)
       else
         match cfg_dir config with
         | None => raise AttributeError
         | Some playlist_dir =>
             prepare_directory self playlist_dir ;;;
             log "\nProcessing {config['tracks']} tracks (total available with backups: {len(tracks)})" ;;;
             sleep svc 2 ;;;
             st <- reconcile self playlist_dir (cfg_tracks config) tracks ;;
             log "\nSuccessfully added {success_count}/{target_count} tracks" ;;;
             log "  Downloaded: {len(downloaded_tracks)}" ;;;
             match downloaded_tracks st with
             | _ :: _ =>
                 new_song_ids <-
                   scan_and_get_songs_from_directory fuel self playlist_dir
                     (downloaded_tracks st) ;;
                 ret (song_ids st ++ new_song_ids)
             | [] => ret (song_ids st)
             end
         end) ;;
    log "" ;;;
    update_playlist playlist_id ids ;;;
    log "\n{'='*60}" ;;;
    log "Completed syncing {config['name']}" ;;;
    (if negb is_library
     then log "  Downloaded: {len(downloaded_tracks) if 'downloaded_tracks' in locals() else 'N/A'}"
     else ret tt) ;;;
    log "  In Navidrome: {len(song_ids)}" ;;;
    log "{'='*60}\n".

(** Where an exception that leaves the sync may stem from: a [print], or
    one of the calls that prepare the playlist directory. *)
Definition raised_by_print (e : exn) : Prop :=
  ∃ message w, (print message w).1 = Raises e.

Definition raised_by_directory (playlist_dir : string) (e : exn) : Prop :=
  ∃ w,
    (path_exists svc playlist_dir w).1 = Raises e
    ∨ (path_glob svc playlist_dir w).1 = Raises e
    ∨ (∃ file, (path_is_file svc file w).1 = Raises e)
    ∨ (path_mkdir svc playlist_dir w).1 = Raises e
    ∨ (os_chmod svc playlist_dir 511 w).1 = Raises e.

End Methods.

End Logged.

(** Every exception that the computation lets out satisfies [P]. *)
Definition lets_out {W A} (m : M W A) (P : exn → Prop) : Prop :=
  ∀ w e, result_of (m w) = Exn e → P e.

(** Two computations that run alike from every world. *)
Definition same {W A} (m m' : M W A) : Prop := ∀ w, m w = m' w.

(* ===================================================================== *)
(** ** Concrete worlds *)
(* ===================================================================== *)

Module Demo.

(** A scripted world.  Its state counts the calls made so far, so that an
    answer may change from one call to the next. *)
Record Script := {
  on_station : nat -> reply (list Track);
  on_search3 : nat -> string -> reply (list Song);
  on_catalog : string -> reply (list SearchResult);
  on_album : string -> reply AlbumDetails;
  on_playlists : reply (list Playlist);
  on_exists : string -> reply bool;
  on_mkdir : reply unit;
  on_scan_status : nat -> reply ScanStatus;
  on_connect : reply Settings
}.

Definition services (s : Script) : Services nat :=
  {| station_get := fun _ w => (on_station s w, S w);
     listenbrainz_playlists_get := fun _ w => (None, S w);
     listenbrainz_get := fun _ w => (Reply [], S w);
     getPlaylists := fun w => (on_playlists s, S w);
     createPlaylist := fun _ w => (Reply (Some "created"), S w);
     search3 := fun query _ w => (on_search3 s w query, S w);
     startScan := fun _ w => (Reply tt, S w);
     getScanStatus := fun w => (on_scan_status s w, S w);
     catalog_search := fun query w => (on_catalog s query, S w);
     catalog_get_album := fun album_id w => (on_album s album_id, S w);
     yt_dlp := fun _ _ _ w => (Reply 0, S w);
     write_tags := fun _ _ w => S w;
     path_exists := fun path w => (on_exists s path, S w);
     path_glob := fun _ w => (Reply [], S w);
     path_is_file := fun _ w => (Reply true, S w);
     path_unlink := fun _ w => (Reply tt, S w);
     path_mkdir := fun _ w => (on_mkdir s, S w);
     os_chmod := fun _ _ w => (Reply tt, S w);
     clock_sleep := fun _ w => S w;
     flock_acquire := fun w => (true, S w);
     flock_release := fun w => S w;
     connect := fun w => (on_connect s, S w) |}.

Definition settings : Settings :=
  {| env_lastfm_user := "listener";
     env_recommended := true;  env_recommended_tracks := 1;
     env_mix := false;         env_mix_tracks := 25;
     env_library := false;     env_library_tracks := 50;
     env_lz_user := None;
     env_exploration := false; env_exploration_tracks := 25;
     env_jams := false;        env_jams_tracks := 25;
     env_library_id := "1" |}.

Definition track (artist title : string) : Track :=
  {| track_name := Some title; track_artists := [Some artist];
     track_album := None |}.

Definition song (id : string) : Song :=
  {| song_id := Some id; song_path := None |}.

(** A library that holds every track, and nothing else of interest. *)
Definition full_library : Script :=
  {| on_station := fun _ => Reply [];
     on_search3 := fun _ _ => Reply [song "s1"];
     on_catalog := fun _ => Reply [];
     on_album := fun _ => Raises RequestException;
     on_playlists := Reply [];
     on_exists := fun _ => Reply true;
     on_mkdir := Reply tt;
     on_scan_status := fun _ => Reply {| scanning := false; scan_count := 0 |};
     on_connect := Reply settings |}.

(** A feed that answers every query with the same two tracks, which differ
    in letter case only. *)
Definition case_variants : Script :=
  {| on_station := fun _ => Reply [track "Artist" "Song"; track "artist" "song"];
     on_search3 := fun _ _ => Reply [];
     on_catalog := fun _ => Reply [];
     on_album := fun _ => Raises RequestException;
     on_playlists := Reply [];
     on_exists := fun _ => Reply true;
     on_mkdir := Reply tt;
     on_scan_status := fun _ => Reply {| scanning := false; scan_count := 0 |};
     on_connect := Reply settings |}.

(** A host on which the playlist directory is missing and cannot be
    created; everything else answers. *)
Definition read_only_disk : Script :=
  {| on_station := fun _ => Reply [track "Artist" "Song"];
     on_search3 := fun _ _ => Reply [];
     on_catalog := fun _ => Reply [];
     on_album := fun _ => Raises RequestException;
     on_playlists :=
       Reply [{| pl_id := Some "p1"; pl_name := Some "Discover Recommended" |}];
     on_exists := fun _ => Reply false;
     on_mkdir := Raises OSError;
     on_scan_status := fun _ => Reply {| scanning := false; scan_count := 0 |};
     on_connect := Reply settings |}.

(** An album in which the first track bears the searched title and the
    second one the searched id. *)
Definition reissue : list AlbumTrack :=
  [ {| at_videoId := Some "other"; at_title := Some "Song" |};
    {| at_videoId := Some "vid"; at_title := Some "Song (Live)" |} ].

(** A downloaded track. *)
Definition info (artist title : string) : TrackInfo :=
  {| info_video_id := "vid"; info_title := title; info_artist := artist;
     info_album := title; info_year := ""; info_track_number := 1;
     info_cover_url := None;
     info_url := "https://music.youtube.com/watch?v=vid" |}.

(** A library that never finds anything. *)
Definition empty_library : Script :=
  {| on_station := fun _ => Reply [];
     on_search3 := fun _ _ => Reply [];
     on_catalog := fun _ => Reply [];
     on_album := fun _ => Raises RequestException;
     on_playlists := Reply [];
     on_exists := fun _ => Reply true;
     on_mkdir := Reply tt;
     on_scan_status := fun _ => Reply {| scanning := false; scan_count := 0 |};
     on_connect := Reply settings |}.

(** A library in which every track shows up from the third call on. *)
Definition slow_library : Script :=
  {| on_station := fun _ => Reply [];
     on_search3 := fun calls _ =>
       if (calls <? 2)%nat then Reply [] else Reply [song "late"];
     on_catalog := fun _ => Reply [];
     on_album := fun _ => Raises RequestException;
     on_playlists := Reply [];
     on_exists := fun _ => Reply true;
     on_mkdir := Reply tt;
     on_scan_status := fun _ => Reply {| scanning := false; scan_count := 0 |};
     on_connect := Reply settings |}.

(** A catalog whose only result is the searched track, on the album
    [reissue]. *)
Definition reissue_catalog : Script :=
  {| on_station := fun _ => Reply [];
     on_search3 := fun _ _ => Reply [];
     on_catalog := fun _ =>
       Reply [{| res_videoId := Some "vid"; res_title := Some "Song";
                 res_artists := ArtistsList [ArtistDict (Some "Artist")];
                 res_album := Some {| album_ref_name := Some "Album";
                                      album_ref_id := Some "alb" |};
                 res_thumbnails := [] |}];
     on_album := fun _ =>
       Reply {| ad_title := Some "Album"; ad_releaseDate := None;
                ad_year := Some "1999"; ad_tracks := reissue |};
     on_playlists := Reply [];
     on_exists := fun _ => Reply true;
     on_mkdir := Reply tt;
     on_scan_status := fun _ => Reply {| scanning := false; scan_count := 0 |};
     on_connect := Reply settings |}.

End Demo.

Module Server.

(** Modelled from the spec: the [createPlaylist] endpoint of the media
    server (section 6), which is no code of this repository.  With a
    [playlistId] it replaces the content of that playlist by the given
    [songId]s, none of them clearing it; with a [name] it creates an empty
    playlist of that name, whose identifier is the name. *)
Definition apply_createPlaylist (params : CreatePlaylist)
  (store : gmap string (list string)) : gmap string (list string) :=
  match cp_playlistId params with
  | Some playlist_id => <[playlist_id := cp_songId params]> store
  | None =>
      match cp_name params with
      | Some name => <[name := []]> store
      | None => store
      end
  end.

Definition services : Services (gmap string (list string)) :=
  {| station_get := fun _ w => (Reply [], w);
     listenbrainz_playlists_get := fun _ w => (None, w);
     listenbrainz_get := fun _ w => (Reply [], w);
     getPlaylists := fun w =>
       (Reply (map (fun kv => {| pl_id := Some kv.1; pl_name := Some kv.1 |})
                 (map_to_list w)), w);
     createPlaylist := fun params w =>
       (Reply (cp_name params), apply_createPlaylist params w);
     search3 := fun _ _ w => (Reply [], w);
     startScan := fun _ w => (Reply tt, w);
     getScanStatus := fun w =>
       (Reply {| scanning := false; scan_count := 0 |}, w);
     catalog_search := fun _ w => (Reply [], w);
     catalog_get_album := fun _ w => (Raises RequestException, w);
     yt_dlp := fun _ _ _ w => (Reply 0, w);
     write_tags := fun _ _ w => w;
     path_exists := fun _ w => (Reply true, w);
     path_glob := fun _ w => (Reply [], w);
     path_is_file := fun _ w => (Reply true, w);
     path_unlink := fun _ w => (Reply tt, w);
     path_mkdir := fun _ w => (Reply tt, w);
     os_chmod := fun _ _ w => (Reply tt, w);
     clock_sleep := fun _ w => w;
     flock_acquire := fun w => (true, w);
     flock_release := fun w => w;
     connect := fun w => (Reply Demo.settings, w) |}.

End Server.

(* ===================================================================== *)
(** ** Properties *)
(* ===================================================================== *)

(** *** Text *)

Lemma starts_with_refl (l : list ascii) : Text.starts_with l l = true.
Proof.
  induction l as [|c l IH]; simpl; [reflexivity|].
  rewrite Ascii.eqb_refl. exact IH.
Qed.

Lemma occurs_in_refl (l : list ascii) : Text.occurs_in l l = true.
Proof. destruct l; simpl; [reflexivity|]. rewrite Ascii.eqb_refl, starts_with_refl. reflexivity. Qed.

Lemma str_in_refl (s : string) : Text.str_in s s = true.
Proof. apply occurs_in_refl. Qed.

Lemma contains_either_refl (s : string) : contains_either s s = true.
Proof. unfold contains_either. rewrite str_in_refl. reflexivity. Qed.

(** *** Match scoring *)

Lemma match_score_bounds na nt r s :
  match_score na nt r = Some s → (2 ≤ s ≤ 4)%nat.
Proof.
  unfold match_score.
  destruct (contains_either na _) eqn:Ha; simpl; [|discriminate].
  destruct (contains_either nt _) eqn:Ht; simpl; [|discriminate].
  destruct (String.eqb na _), (String.eqb nt _); intros [= <-]; lia.
Qed.

Lemma best_of_step na nt seen b r :
  best_of na nt seen b → best_of na nt (seen ++ [r]) (scorer_step na nt b r).
Proof.
  destruct b as [[r0|] s]; unfold scorer_step; simpl.
  - intros (i & Hi & Hs & Hmax).
    assert (Hlt : (i < length seen)%nat) by (eapply lookup_lt_Some; eauto).
    destruct (match_score na nt r) as [s1|] eqn:Hr.
    + destruct (s <? s1)%nat eqn:Hcmp.
      * apply Nat.ltb_lt in Hcmp. simpl.
        exists (length seen). split; [|split; [exact Hr|]].
        { rewrite lookup_app_r by lia. rewrite Nat.sub_diag. reflexivity. }
        intros j r' s' Hj Hs'.
        destruct (decide (j < length seen)%nat) as [Hjl|Hjl].
        -- rewrite lookup_app_l in Hj by lia.
           destruct (Hmax j r' s' Hj Hs'). lia.
        -- rewrite lookup_app_r in Hj by lia.
           apply list_lookup_singleton_Some in Hj as [Hj0 <-].
           assert (s' = s1) by congruence. subst. lia.
      * apply Nat.ltb_ge in Hcmp. simpl.
        exists i. split; [|split; [exact Hs|]].
        { rewrite lookup_app_l by lia. exact Hi. }
        intros j r' s' Hj Hs'.
        destruct (decide (j < length seen)%nat) as [Hjl|Hjl].
        -- rewrite lookup_app_l in Hj by lia. eauto.
        -- rewrite lookup_app_r in Hj by lia.
           apply list_lookup_singleton_Some in Hj as [Hj0 <-].
           assert (s' = s1) by congruence. subst. lia.
    + simpl. exists i. split; [|split; [exact Hs|]].
      { rewrite lookup_app_l by lia. exact Hi. }
      intros j r' s' Hj Hs'.
      destruct (decide (j < length seen)%nat) as [Hjl|Hjl].
      * rewrite lookup_app_l in Hj by lia. eauto.
      * rewrite lookup_app_r in Hj by lia.
        apply list_lookup_singleton_Some in Hj as [Hj0 <-]. congruence.
  - intros [-> Hnone].
    destruct (match_score na nt r) as [s1|] eqn:Hr.
    + pose proof (match_score_bounds _ _ _ _ Hr) as Hb.
      replace (0 <? s1)%nat with true by (symmetry; apply Nat.ltb_lt; lia).
      simpl. exists (length seen). split; [|split; [exact Hr|]].
      { rewrite lookup_app_r by lia. rewrite Nat.sub_diag. reflexivity. }
      intros j r' s' Hj Hs'.
      destruct (decide (j < length seen)%nat) as [Hjl|Hjl].
      * rewrite lookup_app_l in Hj by lia.
        apply list_elem_of_lookup_2 in Hj. apply Hnone in Hj. congruence.
      * rewrite lookup_app_r in Hj by lia.
        apply list_lookup_singleton_Some in Hj as [Hj0 <-].
        assert (s' = s1) by congruence. subst. lia.
    + simpl. split; [reflexivity|].
      intros r' [Hin|Hin]%elem_of_app; [auto|].
      apply list_elem_of_singleton in Hin. congruence.
Qed.

Lemma best_of_fold na nt results seen b :
  best_of na nt seen b →
  best_of na nt (seen ++ results) (fold_left (scorer_step na nt) results b).
Proof.
  revert seen b. induction results as [|r results IH]; intros seen b Hb; simpl.
  - rewrite app_nil_r. exact Hb.
  - replace (seen ++ r :: results) with ((seen ++ [r]) ++ results)
      by (rewrite <- app_assoc; reflexivity).
    apply IH. apply best_of_step. exact Hb.
Qed.

Lemma select_best_match_spec artist title results :
  best_of (normalize_for_matching artist) (normalize_for_matching title)
    results (select_best_match artist title results).
Proof.
  unfold select_best_match.
  apply (best_of_fold _ _ results [] (None, 0%nat)).
  simpl. split; [reflexivity|]. intros r Hr. inversion Hr.
Qed.

Lemma match_score_eligible na nt r :
  is_Some (match_score na nt r)
  ↔ contains_either na (normalize_for_matching (result_artist r)) = true
    ∧ contains_either nt (normalize_for_matching (result_title r)) = true.
Proof.
  unfold match_score.
  destruct (contains_either na _), (contains_either nt _); simpl;
    split; try (intros [x Hx]; discriminate); try (intros [? ?]; discriminate);
    eauto.
Qed.

Lemma match_score_exact na nt r :
  normalize_for_matching (result_artist r) = na →
  normalize_for_matching (result_title r) = nt →
  match_score na nt r = Some 4%nat.
Proof.
  intros Ha Ht. unfold match_score. rewrite Ha, Ht.
  rewrite !contains_either_refl, !String.eqb_refl. reflexivity.
Qed.

(** C6.  Scoring a catalog result whose only artist is [A] and whose title
    is [B] against the target [(A, B)] gives 4: two for the artist, two for
    the title.  No result scores more, and alone in a result list it is the
    one selected.  This holds for every [A] and [B], empty ones included. *)
Theorem exact_match_scores_four (A B : string) (video : option string)
  (album : option AlbumRef) (thumbnails : list (option string)) :
  let r := {| res_videoId := video; res_title := Some B;
              res_artists := ArtistsList [ArtistDict (Some A)];
              res_album := album; res_thumbnails := thumbnails |} in
  match_score (normalize_for_matching A) (normalize_for_matching B) r
    = Some 4%nat
  ∧ (∀ r' s, match_score (normalize_for_matching A)
               (normalize_for_matching B) r' = Some s → (s ≤ 4)%nat)
  ∧ select_best_match A B [r] = (Some r, 4%nat).
Proof.
  intros r.
  assert (Hr : match_score (normalize_for_matching A)
                 (normalize_for_matching B) r = Some 4%nat)
    by (apply match_score_exact; reflexivity).
  split; [exact Hr|]. split.
  - intros r' s Hs. apply match_score_bounds in Hs. lia.
  - unfold select_best_match. simpl. unfold scorer_step. rewrite Hr. reflexivity.
Qed.

Lemma accepted_match_none_iff b :
  accepted_match b = None ↔ b.1 = None ∨ (b.2 < 2)%nat.
Proof.
  destruct b as [[r|] s]; simpl.
  - destruct (s <? 2)%nat eqn:E.
    + apply Nat.ltb_lt in E. split; auto.
    + apply Nat.ltb_ge in E. split; [discriminate|]. intros [?|?]; [discriminate|lia].
  - split; auto.
Qed.

Lemma no_eligible_no_match artist title results :
  (∀ r s, r ∈ results →
          match_score (normalize_for_matching artist)
            (normalize_for_matching title) r = Some s → (s < 2)%nat) →
  accepted_match (select_best_match artist title results) = None.
Proof.
  intros Hnone.
  pose proof (select_best_match_spec artist title results) as Hb.
  destruct (select_best_match artist title results) as [[r|] s]; simpl in *.
  - destruct Hb as (i & Hi & Hs & _).
    apply list_elem_of_lookup_2 in Hi.
    specialize (Hnone r s Hi Hs).
    replace (s <? 2)%nat with true by (symmetry; apply Nat.ltb_lt; lia).
    reflexivity.
  - reflexivity.
Qed.

Lemma search_ytmusic_track_no_match {W} (svc : Services W) artist title
  results w w1 :
  catalog_search svc (artist +:+ " " +:+ title) w = (Reply results, w1) →
  accepted_match (select_best_match artist title results) = None →
  result_of (search_ytmusic_track svc artist title w) = Ret None.
Proof.
  intros Hsearch Hnone.
  unfold search_ytmusic_track, try_catch, bind, call, result_of.
  rewrite Hsearch. destruct results as [|r0 rs]; [reflexivity|].
  rewrite Hnone. reflexivity.
Qed.

(** C5.  A result is eligible when the normalized target artist contains
    or is contained in its normalized artist, and likewise for the title;
    an eligible result scores from 2 to 4.  The scorer keeps the eligible
    result with the highest score, the first one among equals: a selected
    result is eligible, reaches the threshold 2, no result of the list
    scores more and no earlier one scores as much; a result is selected as
    soon as one is eligible; and when no result is eligible with a score of
    at least 2, there is no match and [search_ytmusic_track] returns
    [None]. *)
Theorem scorer_selects_first_highest (artist title : string)
  (results : list SearchResult) :
  let score := match_score (normalize_for_matching artist)
                 (normalize_for_matching title) in
  (∀ r, is_Some (score r)
        ↔ contains_either (normalize_for_matching artist)
            (normalize_for_matching (result_artist r)) = true
          ∧ contains_either (normalize_for_matching title)
              (normalize_for_matching (result_title r)) = true)
  ∧ (∀ r s, score r = Some s → (2 ≤ s ≤ 4)%nat)
  ∧
  (∀ r s, select_best_match artist title results = (Some r, s) →
     accepted_match (Some r, s) = Some r
     ∧ ∃ i, results !! i = Some r ∧ score r = Some s
            ∧ ∀ j r' s', results !! j = Some r' → score r' = Some s' →
                (s' ≤ s)%nat ∧ (j < i → s' < s)%nat)
  ∧ (∀ r s, r ∈ results → score r = Some s →
       ∃ r0 s0, select_best_match artist title results = (Some r0, s0))
  ∧ ((∀ r s, r ∈ results → score r = Some s → (s < 2)%nat) →
       accepted_match (select_best_match artist title results) = None
       ∧ ∀ W (svc : Services W) w w1,
           catalog_search svc (artist +:+ " " +:+ title) w
             = (Reply results, w1) →
           result_of (search_ytmusic_track svc artist title w) = Ret None).
Proof.
  intros score.
  pose proof (select_best_match_spec artist title results) as Hb.
  split; [|split; [|split; [|split]]].
  - intros r. unfold score. apply match_score_eligible.
  - intros r s. apply match_score_bounds.
  - intros r s Heq. rewrite Heq in Hb. simpl in Hb.
    destruct Hb as (i & Hi & Hs & Hmax).
    split.
    + pose proof (match_score_bounds _ _ _ _ Hs) as Hbound. simpl.
      replace (s <? 2)%nat with false by (symmetry; apply Nat.ltb_ge; lia).
      reflexivity.
    + exists i. auto.
  - intros r s Hin Hs.
    destruct (select_best_match artist title results) as [[r0|] s0].
    + eauto.
    + simpl in Hb. destruct Hb as [_ Hnone].
      apply Hnone in Hin. unfold score in Hs. congruence.
  - intros Hnone.
    assert (Hacc : accepted_match (select_best_match artist title results) = None)
      by (apply no_eligible_no_match; exact Hnone).
    split; [exact Hacc|].
    intros W svc w w1 Hsearch.
    eapply search_ytmusic_track_no_match; eauto.
Qed.

(** An instance of C5: of two results with the full score, the first wins. *)
Lemma scorer_selects_first_highest_witness :
  let r1 := {| res_videoId := Some "v1"; res_title := Some "Song";
               res_artists := ArtistsList [ArtistDict (Some "Artist")];
               res_album := None; res_thumbnails := [] |} in
  let r2 := {| res_videoId := Some "v2"; res_title := Some "SONG";
               res_artists := ArtistsList [ArtistDict (Some "artist")];
               res_album := None; res_thumbnails := [] |} in
  select_best_match "Artist" "Song" [r1; r2] = (Some r1, 4%nat)
  ∧ accepted_match (Some r1, 4%nat) = Some r1.
Proof.
  intros r1 r2.
  assert (E : select_best_match "Artist" "Song" [r1; r2] = (Some r1, 4%nat))
    by (vm_compute; reflexivity).
  split; [exact E|].
  exact (proj1 (proj1 (proj2 (proj2
           (scorer_selects_first_highest "Artist" "Song" [r1; r2])))
                  r1 4%nat E)).
Defined.

(** *** Track number within the album *)

Lemma locate_track_number_first_hit video_id title tracks :
  ∀ idx d,
  (∀ i t, tracks !! i = Some t → track_hit video_id title t = true →
     (∀ j t', (j < i)%nat → tracks !! j = Some t' →
              track_hit video_id title t' = false) →
     locate_track_number video_id (normalize_for_matching title) idx tracks d
       = (idx + i)%nat)
  ∧ ((∀ t, t ∈ tracks → track_hit video_id title t = false) →
     locate_track_number video_id (normalize_for_matching title) idx tracks d
       = d).
Proof.
  induction tracks as [|t0 tracks IH]; intros idx d.
  - split; [intros i t Hi; discriminate | reflexivity].
  - destruct (IH (S idx) d) as [IHhit IHmiss]. split.
    + intros [|i] t Hi Hhit Hfirst; simpl in Hi.
      * injection Hi as ->. simpl. unfold track_hit in Hhit.
        destruct (String.eqb (get_or (at_videoId t) "") video_id);
          [f_equal; lia|].
        simpl in Hhit. rewrite Hhit. lia.
      * assert (H0 : track_hit video_id title t0 = false)
          by (apply (Hfirst 0%nat); [lia | reflexivity]).
        simpl. unfold track_hit in H0.
        apply orb_false_iff in H0 as [-> ->].
        rewrite (IHhit i t Hi Hhit); [lia|].
        intros j t' Hj Hlk. apply (Hfirst (S j)); [lia | exact Hlk].
    + intros Hmiss.
      assert (H0 : track_hit video_id title t0 = false)
        by (apply Hmiss; left).
      simpl. unfold track_hit in H0.
      apply orb_false_iff in H0 as [-> ->].
      apply IHmiss. intros t Hin. apply Hmiss. right. exact Hin.
Qed.

(** C3, as the code has it.  The track number is the position, counted
    from 1, of the first album track that matches by external id or by
    normalized title, whichever track comes first; it is 1 when no track
    matches. *)
Theorem track_number_first_match (video_id title : string)
  (tracks : list AlbumTrack) :
  (∀ i t, tracks !! i = Some t → track_hit video_id title t = true →
     (∀ j t', (j < i)%nat → tracks !! j = Some t' →
              track_hit video_id title t' = false) →
     album_track_number video_id title tracks = S i)
  ∧ ((∀ t, t ∈ tracks → track_hit video_id title t = false) →
     album_track_number video_id title tracks = 1%nat).
Proof.
  unfold album_track_number.
  destruct (locate_track_number_first_hit video_id title tracks 1 1)
    as [Hhit Hmiss].
  split; [|exact Hmiss].
  intros i t Hi Ht Hfirst. rewrite (Hhit i t Hi Ht Hfirst). reflexivity.
Qed.

(** An instance of C3: in [Demo.reissue] the first hit is the title match
    of the first track. *)
Lemma track_number_first_match_witness :
  album_track_number "vid" "Song" Demo.reissue = 1%nat.
Proof.
  refine (proj1 (track_number_first_match "vid" "Song" Demo.reissue) 0%nat
            {| at_videoId := Some "other"; at_title := Some "Song" |}
            eq_refl _ _).
  - vm_compute. reflexivity.
  - intros j t' Hj. lia.
Defined.

(** C3, as stated, fails: an earlier track that matches by title is taken
    although a later track bears the searched external id. *)
Lemma earlier_title_match_wins :
  album_track_number "vid" "Song" Demo.reissue = 1%nat
  ∧ result_of (search_ytmusic_track (Demo.services Demo.reissue_catalog)
                 "Artist" "Song" 0%nat)
    = Ret (Some {| info_video_id := "vid"; info_title := "Song";
                   info_artist := "Artist"; info_album := "Album";
                   info_year := "1999"; info_track_number := 1;
                   info_cover_url := None;
                   info_url := "https://music.youtube.com/watch?v=vid" |})
  ∧ ¬ (∀ video_id title tracks i j ti tj,
         (i < j)%nat →
         tracks !! i = Some ti →
         normalize_for_matching (get_or (at_title ti) "")
           = normalize_for_matching title →
         tracks !! j = Some tj →
         get_or (at_videoId tj) "" = video_id →
         album_track_number video_id title tracks = S j).
Proof.
  split; [vm_compute; reflexivity|].
  split; [vm_compute; reflexivity|].
  intros H.
  specialize (H "vid" "Song" Demo.reissue 0%nat 1%nat
                {| at_videoId := Some "other"; at_title := Some "Song" |}
                {| at_videoId := Some "vid"; at_title := Some "Song (Live)" |}).
  assert (Hf : album_track_number "vid" "Song" Demo.reissue = 2%nat).
  { apply H; [lia | reflexivity | vm_compute; reflexivity
             | reflexivity | reflexivity]. }
  vm_compute in Hf. discriminate Hf.
Qed.

(** *** Running computations *)

Section Running.

Context {W : Type}.

Lemma returns_iff {A} (m : M W A) : returns m ↔ halts m ∧ never_raises m.
Proof.
  unfold returns, halts, never_raises. split.
  - intros H. split; intros w; destruct (H w) as [a Ha]; rewrite Ha; discriminate.
  - intros [Hh Hn] w. specialize (Hh w). specialize (Hn w).
    destruct (result_of (m w)) as [a|e|]; [eauto | destruct (Hn e eq_refl) | destruct (Hh eq_refl)].
Qed.

Lemma returns_halts {A} (m : M W A) : returns m → halts m.
Proof. intros H. apply returns_iff in H. tauto. Qed.

Lemma returns_never_raises {A} (m : M W A) : returns m → never_raises m.
Proof. intros H. apply returns_iff in H. tauto. Qed.

Lemma returns_run {A} (m : M W A) w :
  returns m → ∃ a w1 t1, m w = (Ret a, w1, t1).
Proof.
  intros H. destruct (H w) as [a Ha]. unfold result_of in Ha.
  destruct (m w) as [[o w1] t1]. simpl in Ha. subst. eauto.
Qed.

Lemma returns_ret {A} (a : A) : returns (ret a : M W A).
Proof. intros w. exists a. reflexivity. Qed.

Lemma halts_ret {A} (a : A) : halts (ret a : M W A).
Proof. intros w. discriminate. Qed.

Lemma halts_raise {A} e : halts (raise e : M W A).
Proof. intros w. discriminate. Qed.

Lemma halts_call {A} ev (op : W → reply A * W) : halts (call ev op).
Proof.
  intros w. unfold call, result_of. destruct (op w) as [[a|e] w1]; discriminate.
Qed.

Lemma returns_bind {A B} (m : M W A) (k : A → M W B) :
  returns m → (∀ a, returns (k a)) → returns (bind m k).
Proof.
  intros Hm Hk w. destruct (returns_run m w Hm) as (a & w1 & t1 & E).
  destruct (returns_run (k a) w1 (Hk a)) as (b & w2 & t2 & E2).
  exists b. unfold bind, result_of. rewrite E, E2. reflexivity.
Qed.

Lemma halts_bind {A B} (m : M W A) (k : A → M W B) :
  halts m → (∀ a, halts (k a)) → halts (bind m k).
Proof.
  intros Hm Hk w. specialize (Hm w). unfold bind, result_of in *.
  destruct (m w) as [[[a|e|] w1] t1]; simpl in *; try congruence.
  specialize (Hk a w1). unfold result_of in Hk.
  destruct (k a w1) as [[o w2] t2]. exact Hk.
Qed.

Lemma never_raises_bind {A B} (m : M W A) (k : A → M W B) :
  never_raises m → (∀ a, never_raises (k a)) → never_raises (bind m k).
Proof.
  intros Hm Hk w e. specialize (Hm w). unfold bind, result_of in *.
  destruct (m w) as [[[a|e0|] w1] t1]; simpl in *; try congruence.
  - specialize (Hk a w1 e). unfold result_of in Hk.
    destruct (k a w1) as [[o w2] t2]. exact Hk.
  - destruct (Hm e0 eq_refl).
Qed.

Lemma returns_try_catch {A} (m : M W A) (handler : exn → M W A) :
  halts m → (∀ e, returns (handler e)) → returns (try_catch m handler).
Proof.
  intros Hm Hh w. specialize (Hm w). unfold try_catch, result_of in *.
  destruct (m w) as [[[a|e|] w1] t1]; simpl in *.
  - eauto.
  - destruct (returns_run _ w1 (Hh e)) as (a & w2 & t2 & E). rewrite E. eauto.
  - congruence.
Qed.

Lemma halts_try_catch {A} (m : M W A) (handler : exn → M W A) :
  halts m → (∀ e, halts (handler e)) → halts (try_catch m handler).
Proof.
  intros Hm Hh w. specialize (Hm w). unfold try_catch, result_of in *.
  destruct (m w) as [[[a|e|] w1] t1]; simpl in *; try congruence.
  specialize (Hh e w1). unfold result_of in Hh.
  destruct (handler e w1) as [[o w2] t2]. exact Hh.
Qed.

Lemma never_raises_try_catch {A} (m : M W A) (handler : exn → M W A) :
  (∀ e, never_raises (handler e)) → never_raises (try_catch m handler).
Proof.
  intros Hh w e. unfold try_catch, result_of.
  destruct (m w) as [[[a|e0|] w1] t1]; simpl; try discriminate.
  specialize (Hh e0 w1 e). unfold result_of in Hh.
  destruct (handler e0 w1) as [[o w2] t2]. exact Hh.
Qed.

Lemma bind_inv_ret {A B} (m : M W A) (k : A → M W B) w b w2 t :
  bind m k w = (Ret b, w2, t) →
  ∃ a w1 t1 t2, m w = (Ret a, w1, t1) ∧ k a w1 = (Ret b, w2, t2)
                ∧ t = t1 ++ t2.
Proof.
  unfold bind. destruct (m w) as [[[a|e|] w1] t1]; try discriminate.
  destruct (k a w1) as [[o w3] t2] eqn:Ek. intros [= -> -> <-].
  exists a, w1, t1, t2. auto.
Qed.

Lemma bind_inv_exn {A B} (m : M W A) (k : A → M W B) w e :
  result_of (bind m k w) = Exn e →
  result_of (m w) = Exn e
  ∨ ∃ a w1 t1, m w = (Ret a, w1, t1) ∧ result_of (k a w1) = Exn e.
Proof.
  unfold bind, result_of. destruct (m w) as [[[a|e0|] w1] t1]; simpl.
  - destruct (k a w1) as [[o w3] t2] eqn:Ek. simpl. intros ->.
    right. exists a, w1, t1. rewrite Ek. split; reflexivity.
  - intros [= ->]. left. reflexivity.
  - discriminate.
Qed.

Lemma bind_run {A B} (m : M W A) (k : A → M W B) w a w1 t1 :
  m w = (Ret a, w1, t1) →
  bind m k w = (result_of (k a w1), world_of (k a w1), t1 ++ trace_of (k a w1)).
Proof.
  intros E. unfold bind, result_of, world_of, trace_of. rewrite E.
  destruct (k a w1) as [[o w2] t2]. reflexivity.
Qed.

Lemma returns_for_each {A S} (l : list A) (body : A → S → M W (next S)) :
  (∀ x s, returns (body x s)) → ∀ s, returns (for_each l body s).
Proof.
  intros Hb. induction l as [|x l IH]; intros s; simpl.
  - apply returns_ret.
  - apply returns_bind; [apply Hb|]. intros [s'|s']; [apply IH | apply returns_ret].
Qed.

Lemma never_raises_for_each {A S} (l : list A) (body : A → S → M W (next S)) :
  (∀ x s, never_raises (body x s)) → ∀ s, never_raises (for_each l body s).
Proof.
  intros Hb. induction l as [|x l IH]; intros s; simpl.
  - apply returns_never_raises, returns_ret.
  - apply never_raises_bind; [apply Hb|].
    intros [s'|s']; [apply IH | apply returns_never_raises, returns_ret].
Qed.

Lemma while_loop_inv {S} (P : S → Prop) (cond : S → bool)
  (body : S → M W (next S)) :
  (∀ s w r w' t, P s → cond s = true → body s w = (Ret r, w', t) →
     match r with Continue s' | Break s' => P s' end) →
  ∀ fuel s w s' w' t,
    P s → while_loop fuel cond body s w = (Ret s', w', t) → P s'.
Proof.
  intros Hbody. induction fuel as [|fuel IH]; intros s w s' w' t HP; simpl.
  - destruct (cond s); [discriminate|]. intros [= <- _ _]. exact HP.
  - destruct (cond s) eqn:Hc; [|intros [= <- _ _]; exact HP].
    intros Hrun. apply bind_inv_ret in Hrun as (r & w1 & t1 & t2 & Hb & Hk & _).
    specialize (Hbody s w r w1 t1 HP Hc Hb).
    destruct r as [s1|s1].
    + exact (IH s1 w1 s' w' t2 Hbody Hk).
    + injection Hk as <- _ _. exact Hbody.
Qed.

Lemma while_loop_halts {S} (measure : S → nat) (cond : S → bool)
  (body : S → M W (next S)) :
  (∀ s, cond s = true → (0 < measure s)%nat) →
  (∀ s w s' w' t, cond s = true → body s w = (Ret (Continue s'), w', t) →
     (measure s' < measure s)%nat) →
  (∀ s, halts (body s)) →
  ∀ fuel s, (measure s ≤ fuel)%nat → halts (while_loop fuel cond body s).
Proof.
  intros Hpos Hdec Hbody. induction fuel as [|fuel IH]; intros s Hm w; simpl.
  - destruct (cond s) eqn:Hc; [|discriminate].
    specialize (Hpos s Hc). lia.
  - destruct (cond s) eqn:Hc; [|discriminate].
    specialize (Hbody s w). unfold bind, result_of in *.
    destruct (body s w) as [[[r|e|] w1] t1] eqn:Hb; simpl in *; try congruence.
    destruct r as [s1|s1]; [|discriminate].
    assert (Hlt : (measure s1 < measure s)%nat) by (eapply Hdec; eauto).
    assert (Hle : (measure s1 ≤ fuel)%nat) by lia.
    specialize (IH s1 Hle w1). unfold result_of in IH.
    destruct (while_loop fuel cond body s1 w1) as [[o w2] t2]. exact IH.
Qed.

Lemma while_loop_never_raises {S} (cond : S → bool) (body : S → M W (next S)) :
  (∀ s, cond s = true → never_raises (body s)) →
  ∀ fuel s, never_raises (while_loop fuel cond body s).
Proof.
  intros Hbody. induction fuel as [|fuel IH]; intros s; simpl.
  - destruct (cond s); intros w e; discriminate.
  - destruct (cond s) eqn:Hc; [|intros w e; discriminate].
    apply never_raises_bind; [apply Hbody; exact Hc|].
    intros [s1|s1]; [apply IH | apply returns_never_raises, returns_ret].
Qed.

Lemma while_loop_exit {S} (cond : S → bool) (body : S → M W (next S)) :
  (∀ s w s' w' t, body s w ≠ (Ret (Break s'), w', t)) →
  ∀ fuel s w s' w' t,
    while_loop fuel cond body s w = (Ret s', w', t) → cond s' = false.
Proof.
  intros Hnb. induction fuel as [|fuel IH]; intros s w s' w' t; simpl.
  - destruct (cond s) eqn:Hc; [discriminate|]. intros [= <- _ _]. exact Hc.
  - destruct (cond s) eqn:Hc; [|intros [= <- _ _]; exact Hc].
    intros Hrun. apply bind_inv_ret in Hrun as (r & w1 & t1 & t2 & Hb & Hk & _).
    destruct r as [s1|s1]; [exact (IH s1 w1 s' w' t2 Hk)|].
    destruct (Hnb _ _ _ _ _ Hb).
Qed.

End Running.

(** *** The fetcher *)

Lemma truthy_nonempty s : Text.truthy s = true → s ≠ "".
Proof. destruct s; [discriminate | discriminate]. Qed.

Lemma add_new_tracks_inv fetch_count tracks :
  ∀ st, fetch_inv (sc_all_tracks st) (sc_seen_ids st) →
        fetch_inv (sc_all_tracks (add_new_tracks fetch_count tracks st))
          (sc_seen_ids (add_new_tracks fetch_count tracks st)).
Proof.
  induction tracks as [|track tracks IH]; intros st Hinv; simpl; [exact Hinv|].
  destruct (negb (bool_decide (track_id_of (first_artist track "" "")
                                 (get_or (track_name track) "")
                               ∈ sc_seen_ids st))) eqn:Hnew; simpl;
    [|apply IH; exact Hinv].
  destruct (Text.truthy (get_or (track_name track) "")) eqn:Hname; simpl;
    [|apply IH; exact Hinv].
  destruct (Text.truthy (first_artist track "" "")) eqn:Hartist; simpl;
    [|apply IH; exact Hinv].
  apply negb_true_iff, bool_decide_eq_false in Hnew.
  assert (Hinv' : fetch_inv (sc_all_tracks st ++ [track])
            ({[track_id_of (first_artist track "" "")
                 (get_or (track_name track) "")]} ∪ sc_seen_ids st)).
  { destruct Hinv as (Hnd & Hseen & Hwf). repeat split.
    - rewrite map_app. apply NoDup_app. split; [exact Hnd|]. split.
      + intros k Hk Hin. apply list_elem_of_singleton in Hin. subst k.
        apply list_elem_of_fmap in Hk as (t & Ht & Hin).
        apply Hnew. change (track_id track ∈ sc_seen_ids st).
        rewrite Ht. apply Hseen. exact Hin.
      + simpl. apply NoDup_singleton.
    - intros t [Hin|Hin]%elem_of_app.
      + apply elem_of_union_r. apply Hseen. exact Hin.
      + apply list_elem_of_singleton in Hin as ->.
        apply elem_of_union_l, elem_of_singleton. reflexivity.
    - apply Forall_app. split; [exact Hwf|].
      apply Forall_singleton. split; apply truthy_nonempty; assumption. }
  match goal with |- context [if ?c then _ else _] => destruct c end.
  - exact Hinv'.
  - apply IH. exact Hinv'.
Qed.

Section Fetching.

Context {W : Type} (svc : Services W).

Lemma returns_sleep n : returns (sleep svc n).
Proof. intros w. exists tt. reflexivity. Qed.

Lemma fetch_body_returns url fetch_count st :
  returns (fetch_body svc url fetch_count st).
Proof.
  unfold fetch_body. apply returns_try_catch; [|intros e; apply returns_ret].
  apply halts_bind; [apply halts_call|].
  intros [|t ts]; [apply halts_ret|].
  destruct (_ =? 0)%nat; [apply halts_ret|].
  destruct (_ <? _)%Z; [|apply halts_ret].
  apply returns_halts, returns_bind; [apply returns_sleep|].
  intros _. apply returns_ret.
Qed.

Lemma fetch_body_step url fetch_count st w r w' t :
  fetch_inv (all_tracks st) (seen_ids st) →
  fetch_body svc url fetch_count st w = (Ret r, w', t) →
  match r with
  | Continue st' | Break st' =>
      fetch_inv (all_tracks st') (seen_ids st')
      ∧ attempts st' = S (attempts st)
  end.
Proof.
  intros Hinv. unfold fetch_body, try_catch, bind, call, sleep, ret.
  destruct (station_get svc url w) as [[tracks|e] w1]; simpl.
  - destruct tracks as [|t0 ts]; simpl.
    + intros [= <- _ _]. simpl. auto.
    + pose proof (add_new_tracks_inv fetch_count (t0 :: ts)
                    {| sc_all_tracks := all_tracks st;
                       sc_seen_ids := seen_ids st;
                       sc_new_tracks := 0 |} Hinv) as Hinv'.
      destruct (_ =? 0)%nat; simpl.
      * intros [= <- _ _]. simpl. auto.
      * destruct (_ <? _)%Z; simpl; intros [= <- _ _]; simpl; auto.
  - intros [= <- _ _]. simpl. auto.
Qed.

End Fetching.

Section FetchingResults.

Context {W : Type} (svc : Services W).

Lemma fetch_body_attempts url fetch_count st w st' w' t :
  fetch_body svc url fetch_count st w = (Ret (Continue st'), w', t) →
  attempts st' = S (attempts st).
Proof.
  unfold fetch_body, try_catch, bind, call, sleep, ret.
  destruct (station_get svc url w) as [[tracks|e] w1]; simpl.
  - destruct tracks as [|t0 ts]; simpl; [discriminate|].
    destruct (_ =? 0)%nat; simpl; [discriminate|].
    destruct (_ <? _)%Z; simpl; intros [= <- _ _]; reflexivity.
  - discriminate.
Qed.

Lemma fetch_loop_returns url fetch_count st :
  (max_attempts - attempts st ≤ max_attempts)%nat →
  returns (while_loop max_attempts (fetch_cond fetch_count)
             (fetch_body svc url fetch_count) st).
Proof.
  intros Hfuel. apply returns_iff. split.
  - apply (while_loop_halts (fun s => (max_attempts - attempts s)%nat));
      [| | |exact Hfuel].
    + intros s Hc. unfold fetch_cond in Hc.
      apply andb_true_iff in Hc as [_ Hc]. apply Nat.ltb_lt in Hc. lia.
    + intros s w s' w' t Hc Hb. apply fetch_body_attempts in Hb.
      unfold fetch_cond in Hc.
      apply andb_true_iff in Hc as [_ Hc]. apply Nat.ltb_lt in Hc. lia.
    + intros s. apply returns_halts, fetch_body_returns.
  - apply while_loop_never_raises. intros s _.
    apply returns_never_raises, fetch_body_returns.
Qed.

Lemma fetch_lastfm_tracks_inv url num_tracks w :
  ∃ tracks seen,
    result_of (fetch_lastfm_tracks svc url num_tracks w) = Ret tracks
    ∧ fetch_inv tracks seen.
Proof.
  unfold fetch_lastfm_tracks.
  set (init := {| all_tracks := []; seen_ids := ∅; attempts := 0 |}).
  set (fetch_count := (num_tracks * backup_multiplier)%Z).
  assert (Hfuel : (max_attempts - attempts init ≤ max_attempts)%nat)
    by (unfold max_attempts; simpl; lia).
  destruct (returns_run _ w (fetch_loop_returns url fetch_count init Hfuel))
    as (st & w1 & t1 & Hrun).
  exists (all_tracks st), (seen_ids st). split.
  - unfold bind, result_of. rewrite Hrun. reflexivity.
  - apply (while_loop_inv
             (fun s => fetch_inv (all_tracks s) (seen_ids s))
             (fetch_cond fetch_count) (fetch_body svc url fetch_count))
      in Hrun; [exact Hrun| |].
    + intros s w0 r w' t HP _ Hb.
      pose proof (fetch_body_step svc url fetch_count s w0 r w' t HP Hb) as H.
      destruct r; tauto.
    + repeat split; simpl; [apply NoDup_nil; exact I | | apply Forall_nil; exact I].
      intros t Ht. inversion Ht.
Qed.

(** C2, as the code has it.  Whatever the feed answers, the fetcher returns
    a candidate list in which no two candidates bear the same identity key
    [artist:title], compared as written. *)
Theorem fetched_keys_distinct (url : string) (num_tracks : Z) (w : W) :
  ∃ tracks,
    result_of (fetch_lastfm_tracks svc url num_tracks w) = Ret tracks
    ∧ NoDup (map track_id tracks).
Proof.
  destruct (fetch_lastfm_tracks_inv url num_tracks w)
    as (tracks & seen & Hrun & Hnd & _).
  exists tracks. auto.
Qed.

Lemma join_nonempty sep p rest : p ≠ "" → Text.join sep (p :: rest) ≠ "".
Proof.
  intros Hp. destruct p as [|c p]; [congruence|].
  destruct rest; simpl; discriminate.
Qed.

Lemma convert_track_well_formed track t :
  convert_track track = Some t → well_formed t.
Proof.
  unfold convert_track.
  destruct (Text.truthy (get_or (lb_title track) "")) eqn:Ht; simpl;
    [|discriminate].
  destruct (Text.truthy (get_or (lb_creator track) "")) eqn:Ha; simpl;
    [|discriminate].
  intros [= <-]. split; simpl; [apply truthy_nonempty; exact Ht|].
  unfold first_artist. simpl.
  destruct (1 <? _)%nat; [|apply truthy_nonempty; exact Ha].
  destruct (omap _ _) as [|n ns] eqn:Hnames; [apply truthy_nonempty; exact Ha|].
  apply join_nonempty.
  assert (Hin : n ∈ n :: ns) by left. rewrite <- Hnames in Hin.
  apply list_elem_of_omap in Hin as (o & _ & Ho).
  destruct o as [s|]; simpl in Ho; [|discriminate].
  destruct (Text.truthy s) eqn:Hs; [|discriminate].
  injection Ho as <-. apply truthy_nonempty. exact Hs.
Qed.

(** C10.  Every candidate returned by the feed fetcher has a non-empty
    title and a non-empty first artist, whatever the feed answers; the
    ListenBrainz fetcher gives the same guarantee. *)
Theorem fetched_tracks_well_formed (url : string) (num_tracks : Z) (w : W) :
  (∃ tracks,
     result_of (fetch_lastfm_tracks svc url num_tracks w) = Ret tracks
     ∧ Forall well_formed tracks)
  ∧ (∃ tracks,
       result_of (fetch_listenbrainz_tracks svc url num_tracks w) = Ret tracks
       ∧ Forall well_formed tracks).
Proof.
  split.
  - destruct (fetch_lastfm_tracks_inv url num_tracks w)
      as (tracks & seen & Hrun & _ & _ & Hwf).
    exists tracks. auto.
  - unfold fetch_listenbrainz_tracks, try_catch, bind, call, result_of.
    destruct (listenbrainz_get svc url w) as [[tracks|e] w1]; simpl.
    + eexists. split; [reflexivity|].
      apply Forall_forall. intros t Ht.
      apply list_elem_of_omap in Ht as (track & _ & Hc).
      eapply convert_track_well_formed; eauto.
    + exists []. split; [reflexivity | apply Forall_nil; exact I].
Qed.

End FetchingResults.

(** C2, as stated, fails: two candidates that differ in letter case only
    are both kept, so that the returned list holds the same case-folded
    (artist, title) pair twice. *)
Lemma case_variants_both_kept :
  result_of (fetch_lastfm_tracks (Demo.services Demo.case_variants) "station" 1
               0%nat)
    = Ret [Demo.track "Artist" "Song"; Demo.track "artist" "song"]
  ∧ spec_identity_key (Demo.track "Artist" "Song")
    = spec_identity_key (Demo.track "artist" "song")
  ∧ ¬ NoDup (map spec_identity_key
               [Demo.track "Artist" "Song"; Demo.track "artist" "song"]).
Proof.
  split; [vm_compute; reflexivity|].
  split; [vm_compute; reflexivity|].
  intros Hnd. apply NoDup_cons in Hnd as [Hnotin _].
  apply Hnotin. vm_compute. left.
Qed.

(** *** The helpers of the reconciliation loop never fail *)

Ltac halts_step :=
  first
    [ apply halts_ret
    | apply halts_raise
    | apply halts_call
    | apply halts_bind; [|intros ?]
    | apply halts_try_catch; [|intros ?]
    | match goal with
      | |- halts (match ?x with _ => _ end) => destruct x
      end ].

Section Helpers.

Context {W : Type} (svc : Services W).

Lemma returns_search_navidrome_track artist title :
  returns (search_navidrome_track svc artist title).
Proof.
  unfold search_navidrome_track.
  apply returns_try_catch; [|intros e; apply returns_ret].
  repeat halts_step.
Qed.

Lemma returns_set_metadata file metadata :
  returns (set_metadata svc file metadata).
Proof. intros w. exists tt. reflexivity. Qed.

Lemma returns_search_ytmusic_track artist title :
  returns (search_ytmusic_track svc artist title).
Proof.
  unfold search_ytmusic_track.
  apply returns_try_catch; [|intros e; apply returns_ret].
  repeat halts_step.
Qed.

Lemma returns_download_track_ytmusic self video_id output_dir metadata :
  returns (download_track_ytmusic svc self video_id output_dir metadata).
Proof.
  unfold download_track_ytmusic.
  apply returns_try_catch; [|intros e; apply returns_ret].
  repeat first [ halts_step | apply returns_halts, returns_set_metadata ].
Qed.

Lemma returns_update_playlist playlist_id ids :
  returns (update_playlist svc playlist_id ids).
Proof.
  unfold update_playlist.
  apply returns_try_catch; [|intros e; apply returns_ret].
  repeat halts_step.
Qed.

Lemma returns_get_navidrome_playlist_id name :
  returns (get_navidrome_playlist_id svc name).
Proof.
  unfold get_navidrome_playlist_id.
  apply returns_try_catch; [|intros e; apply returns_ret].
  repeat halts_step.
Qed.

Lemma returns_acquire self target_dir artist title :
  returns (acquire svc self target_dir artist title).
Proof.
  unfold acquire.
  apply returns_bind; [apply returns_search_navidrome_track|]. intros existing.
  destruct (Text.truthy_opt existing); [apply returns_ret|].
  apply returns_bind; [apply returns_search_ytmusic_track|]. intros [info|].
  - apply returns_bind; [apply returns_download_track_ytmusic|].
    intros [|]; apply returns_ret.
  - apply returns_ret.
Qed.

End Helpers.

(** *** The reconciliation loop *)

Section Reconciling.

Context {W : Type} (svc : Services W).
Variables (self : Syncer) (playlist_dir : string).

Lemma reconcile_body_lookup tracks tracks' st :
  tracks !! track_index st = tracks' !! track_index st →
  reconcile_body svc self playlist_dir tracks st
  = reconcile_body svc self playlist_dir tracks' st.
Proof. intros H. unfold reconcile_body. rewrite H. reflexivity. Qed.

(** One iteration consumes one candidate and counts at most one success. *)
Lemma reconcile_body_step tracks st w r w' t :
  reconcile_body svc self playlist_dir tracks st w = (Ret r, w', t) →
  ∃ st', r = Continue st'
         ∧ track_index st' = S (track_index st)
         ∧ (success_count st' = success_count st
            ∨ success_count st' = (success_count st + 1)%Z).
Proof.
  unfold reconcile_body.
  destruct (tracks !! track_index st) as [track|]; [|discriminate].
  unfold bind, sleep, ret.
  destruct (search_navidrome_track svc _ _ w) as [[[existing|e|] w1] t1];
    try discriminate.
  destruct (Text.truthy_opt existing).
  - intros [= <- _ _]. eexists. split; [reflexivity|]. simpl. auto.
  - destruct (search_ytmusic_track svc _ _ w1) as [[[found|e|] w2] t2];
      try discriminate.
    destruct found as [info|].
    + destruct (download_track_ytmusic svc self _ _ _ w2)
        as [[[downloaded|e|] w3] t3]; try discriminate.
      destruct downloaded; intros [= <- _ _]; eexists;
        (split; [reflexivity|]); simpl; auto.
    + intros [= <- _ _]. eexists. split; [reflexivity|]. simpl. auto.
Qed.

Lemma reconcile_body_returns tracks st :
  (track_index st < length tracks)%nat →
  returns (reconcile_body svc self playlist_dir tracks st).
Proof.
  intros Hlt. unfold reconcile_body.
  destruct (lookup_lt_is_Some_2 tracks (track_index st) Hlt) as [track ->].
  apply returns_bind; [apply returns_search_navidrome_track|]. intros existing.
  destruct (Text.truthy_opt existing); [apply returns_ret|].
  apply returns_bind; [apply returns_search_ytmusic_track|]. intros found.
  apply returns_bind.
  - destruct found as [info|]; [|apply returns_ret].
    apply returns_bind; [apply returns_download_track_ytmusic|].
    intros [|]; apply returns_ret.
  - intros st'. apply returns_bind; [apply returns_sleep|].
    intros _. apply returns_ret.
Qed.

Lemma sync_cond_index target tracks st :
  sync_cond target tracks st = true → (track_index st < length tracks)%nat.
Proof.
  unfold sync_cond. intros [_ H]%andb_true_iff. apply Nat.ltb_lt. exact H.
Qed.

Lemma reconcile_returns target tracks fuel st :
  (length tracks - track_index st ≤ fuel)%nat →
  returns (while_loop fuel (sync_cond target tracks)
             (reconcile_body svc self playlist_dir tracks) st).
Proof.
  intros Hfuel. apply returns_iff. split.
  - apply (while_loop_halts (fun s => (length tracks - track_index s)%nat));
      [| | |exact Hfuel].
    + intros s Hc. apply sync_cond_index in Hc. lia.
    + intros s w s' w' t Hc Hb. apply sync_cond_index in Hc.
      apply reconcile_body_step in Hb as (s1 & [= <-] & Hidx & _). lia.
    + intros s. unfold reconcile_body.
      destruct (tracks !! track_index s) as [track|] eqn:Hlk;
        [|apply halts_raise].
      apply returns_halts.
      pose proof (reconcile_body_returns tracks s
                    (lookup_lt_Some _ _ _ Hlk)) as Hr.
      unfold reconcile_body in Hr. rewrite Hlk in Hr. exact Hr.
  - apply while_loop_never_raises. intros s Hc.
    apply returns_never_raises, reconcile_body_returns.
    eapply sync_cond_index; eauto.
Qed.

(** The loop ends, and it ends with its condition false: the target count
    is reached or the candidates are exhausted. *)
Lemma reconcile_terminates target tracks w :
  ∃ st w' t,
    reconcile svc self playlist_dir target tracks w = (Ret st, w', t)
    ∧ sync_cond target tracks st = false
    ∧ (track_index st ≤ length tracks)%nat
    ∧ (success_count st ≤ Z.of_nat (track_index st))%Z
    ∧ (0 ≤ success_count st ≤ Z.max 0 target)%Z.
Proof.
  unfold reconcile.
  destruct (returns_run _ w (reconcile_returns target tracks (length tracks)
                               initial_sync_state ltac:(simpl; lia)))
    as (st & w' & t & Hrun).
  exists st, w', t. split; [exact Hrun|]. split.
  - eapply while_loop_exit; [|exact Hrun].
    intros s w0 s' w1 t1 Hb.
    apply reconcile_body_step in Hb as (s1 & Heq & _). discriminate.
  - apply (while_loop_inv
             (fun s => (track_index s ≤ length tracks)%nat
                       ∧ (success_count s ≤ Z.of_nat (track_index s))%Z
                       ∧ (0 ≤ success_count s ≤ Z.max 0 target)%Z)
             (sync_cond target tracks)
             (reconcile_body svc self playlist_dir tracks)) in Hrun;
      [exact Hrun| |simpl; lia].
    intros s w0 r w1 t1 (Hi & Hs & Hb) Hc Hbody.
    pose proof (sync_cond_index _ _ _ Hc) as Hlt.
    unfold sync_cond in Hc. apply andb_true_iff in Hc as [Hc _].
    apply Z.ltb_lt in Hc.
    apply reconcile_body_step in Hbody as (s1 & -> & Hidx & Hcount).
    rewrite Hidx. destruct Hcount as [->| ->]; lia.
Qed.

(** One iteration of the loop is one call of the Acquirer: a track
    already present is recorded with its identifier and counted, without
    pause; an acquired track is recorded and counted; a track not found or
    not downloaded leaves the counts alone. *)
Lemma reconcile_body_acquire tracks track st w r w1 t1 :
  tracks !! track_index st = Some track →
  acquire svc self playlist_dir (first_artist track "Unknown" "Unknown")
    (get_or (track_name track) "Unknown") w = (Ret r, w1, t1) →
  let consumed := {| success_count := success_count st;
                     track_index := S (track_index st);
                     song_ids := song_ids st;
                     downloaded_tracks := downloaded_tracks st;
                     skipped_count := skipped_count st |} in
  reconcile_body svc self playlist_dir tracks st w
  = match r with
    | AlreadyPresent id =>
        (Ret (Continue {| success_count := success_count st + 1;
                          track_index := S (track_index st);
                          song_ids := song_ids st ++ [id];
                          downloaded_tracks := downloaded_tracks st;
                          skipped_count := S (skipped_count st) |}),
         w1, t1)
    | AcquiredTrack info =>
        (Ret (Continue {| success_count := success_count st + 1;
                          track_index := S (track_index st);
                          song_ids := song_ids st;
                          downloaded_tracks := downloaded_tracks st ++ [info];
                          skipped_count := skipped_count st |}),
         clock_sleep svc 1 w1, t1 ++ [EvSleep 1])
    | NotFound | DownloadFailed =>
        (Ret (Continue consumed), clock_sleep svc 1 w1, t1 ++ [EvSleep 1])
    end.
Proof.
  intros Hlk. unfold reconcile_body. rewrite Hlk.
  unfold acquire, bind, sleep, ret.
  destruct (search_navidrome_track svc _ _ w) as [[[existing|e|] w2] t2];
    simpl; try discriminate.
  destruct (Text.truthy_opt existing); simpl.
  - intros [= <- <- <-]. reflexivity.
  - destruct (search_ytmusic_track svc _ _ w2) as [[[found|e|] w3] t3];
      simpl; try discriminate.
    destruct found as [info|]; simpl.
    + destruct (download_track_ytmusic svc self _ _ _ w3)
        as [[[downloaded|e|] w4] t4]; simpl; try discriminate.
      destruct downloaded; simpl; intros [= <- <- <-]; simpl;
        rewrite ?app_nil_r, <- ?app_assoc; reflexivity.
    + intros [= <- <- <-]. simpl. rewrite ?app_nil_r, <- ?app_assoc. reflexivity.
Qed.

Section Available.

(** Every acquisition attempt succeeds. *)
Hypothesis always_available :
  ∀ artist title w,
    ∃ r, result_of (acquire svc self playlist_dir artist title w) = Ret r
         ∧ acquired_ok r = true.

Lemma reconcile_body_available tracks track st w :
  tracks !! track_index st = Some track →
  ∃ st' w' t,
    reconcile_body svc self playlist_dir tracks st w
      = (Ret (Continue st'), w', t)
    ∧ track_index st' = S (track_index st)
    ∧ success_count st' = (success_count st + 1)%Z
    ∧ (length (song_ids st') + length (downloaded_tracks st')
       = S (length (song_ids st) + length (downloaded_tracks st)))%nat.
Proof.
  intros Hlk. unfold reconcile_body. rewrite Hlk.
  destruct (always_available (first_artist track "Unknown" "Unknown")
              (get_or (track_name track) "Unknown") w) as (r & Hr & Hok).
  revert Hr. unfold acquire, bind, sleep, ret, result_of.
  destruct (search_navidrome_track svc _ _ w) as [[[existing|e|] w1] t1];
    simpl; try discriminate.
  destruct (Text.truthy_opt existing); simpl.
  - intros _. do 3 eexists. split; [reflexivity|]. simpl.
    rewrite length_app. simpl. repeat split; lia.
  - destruct (search_ytmusic_track svc _ _ w1) as [[[found|e|] w2] t2];
      simpl; try discriminate.
    destruct found as [info|]; simpl.
    + destruct (download_track_ytmusic svc self _ _ _ w2)
        as [[[downloaded|e|] w3] t3]; simpl; try discriminate.
      destruct downloaded; simpl.
      * intros _. do 3 eexists. split; [reflexivity|]. simpl.
        rewrite length_app. simpl. repeat split; lia.
      * intros [= <-]. discriminate Hok.
    + intros [= <-]. discriminate Hok.
Qed.

Lemma reconcile_run_available tracks target :
  ∀ n k st w fuel,
    success_count st = Z.of_nat k →
    track_index st = k →
    target = Z.of_nat (k + n) →
    (k + n ≤ length tracks)%nat →
    (n ≤ fuel)%nat →
    ∃ st' w' t,
      while_loop fuel (sync_cond target tracks)
        (reconcile_body svc self playlist_dir tracks) st w = (Ret st', w', t)
      ∧ success_count st' = target
      ∧ track_index st' = (k + n)%nat
      ∧ (length (song_ids st') + length (downloaded_tracks st')
         = length (song_ids st) + length (downloaded_tracks st) + n)%nat
      ∧ ∀ tracks' fuel',
          take (k + n) tracks' = take (k + n) tracks →
          (k + n ≤ length tracks')%nat →
          (n ≤ fuel')%nat →
          while_loop fuel' (sync_cond target tracks')
            (reconcile_body svc self playlist_dir tracks') st w
          = (Ret st', w', t).
Proof.
  induction n as [|n IH]; intros k st w fuel Hs Hi Ht Hlen Hfuel.
  - assert (Hc : ∀ l, sync_cond target l st = false).
    { intros l. unfold sync_cond. rewrite Hs, Ht.
      replace (Z.of_nat k <? Z.of_nat (k + 0))%Z with false
        by (symmetry; apply Z.ltb_ge; lia).
      reflexivity. }
    exists st, w, []. repeat split; try lia.
    + destruct fuel; simpl; rewrite Hc; reflexivity.
    + intros tracks' fuel' _ _ _. destruct fuel'; simpl; rewrite Hc; reflexivity.
  - assert (Hc : ∀ l, (k + S n ≤ length l)%nat → sync_cond target l st = true).
    { intros l Hl. unfold sync_cond. rewrite Hs, Ht, Hi.
      apply andb_true_iff. split; [apply Z.ltb_lt | apply Nat.ltb_lt]; lia. }
    destruct fuel as [|fuel]; [lia|].
    assert (Hlt : (track_index st < length tracks)%nat) by lia.
    destruct (lookup_lt_is_Some_2 tracks (track_index st) Hlt) as [track Hlk].
    destruct (reconcile_body_available tracks track st w Hlk)
      as (st1 & w1 & t1 & Hbody & Hi1 & Hs1 & Hlen1).
    destruct (IH (S k) st1 w1 fuel) as (st' & w' & t' & Hrun & Hs' & Hi' & Hlen' & Hext);
      try lia.
    exists st', w', (t1 ++ t'). split; [|split; [|split; [|split]]].
    + simpl. rewrite (Hc tracks Hlen).
      rewrite (bind_run _ _ _ _ _ _ Hbody). rewrite Hrun. reflexivity.
    + exact Hs'.
    + lia.
    + lia.
    + intros tracks' fuel' Htake Hlen2 Hfuel2.
      destruct fuel' as [|fuel']; [lia|].
      simpl. rewrite (Hc tracks' Hlen2).
      assert (Hlk' : tracks' !! track_index st = tracks !! track_index st).
      { rewrite <- (lookup_take_lt tracks' (k + S n) (track_index st)) by lia.
        rewrite Htake. apply lookup_take_lt. lia. }
      rewrite (reconcile_body_lookup tracks' tracks st Hlk').
      rewrite (bind_run _ _ _ _ _ _ Hbody).
      rewrite (Hext tracks' fuel'); [reflexivity| |lia|lia].
      replace (S k + n)%nat with (k + S n)%nat by lia. exact Htake.
Qed.

End Available.

End Reconciling.

(** C1.  The reconciliation loop always ends, with the success count at
    the target or the candidates exhausted, never beyond either.  When the
    candidate list has 3×T entries and every acquisition attempt succeeds
    (already present, or acquired), it ends with exactly T successes, T
    recorded results and T candidates consumed; the other 2×T candidates
    are never looked at: any list with the same first T candidates gives
    the same run, and so does the list of these T candidates alone. *)
Theorem reconcile_reaches_target {W : Type} (svc : Services W)
  (self : Syncer) (playlist_dir : string) :
  (∀ (target : Z) (tracks : list Track) (w : W),
     ∃ st w' t,
       reconcile svc self playlist_dir target tracks w = (Ret st, w', t)
       ∧ (track_index st ≤ length tracks)%nat
       ∧ (success_count st ≤ Z.of_nat (track_index st))%Z
       ∧ ((0 ≤ target)%Z →
          (success_count st ≤ target)%Z
          ∧ (success_count st = target
             ∨ track_index st = length tracks)))
  ∧ (∀ (T : nat) (tracks : list Track) (w : W),
       length tracks = (3 * T)%nat →
       (∀ artist title w0,
          ∃ r, result_of (acquire svc self playlist_dir artist title w0) = Ret r
               ∧ acquired_ok r = true) →
       ∃ st w' t,
         reconcile svc self playlist_dir (Z.of_nat T) tracks w = (Ret st, w', t)
         ∧ success_count st = Z.of_nat T
         ∧ track_index st = T
         ∧ (length (song_ids st) + length (downloaded_tracks st))%nat = T
         ∧ (∀ tracks', length tracks' = (3 * T)%nat →
                       take T tracks' = take T tracks →
                       reconcile svc self playlist_dir (Z.of_nat T) tracks' w
                       = (Ret st, w', t))
         ∧ reconcile svc self playlist_dir (Z.of_nat T) (take T tracks) w
           = (Ret st, w', t)).
Proof.
  split.
  - intros target tracks w.
    destruct (reconcile_terminates svc self playlist_dir target tracks w)
      as (st & w' & t & Hrun & Hc & Hi & Hs & Hb).
    exists st, w', t. repeat split; try assumption; try lia.
    unfold sync_cond in Hc. apply andb_false_iff in Hc as [Hc|Hc].
    + apply Z.ltb_ge in Hc. left. lia.
    + apply Nat.ltb_ge in Hc. right. lia.
  - intros T tracks w Hlen Havail.
    destruct (reconcile_run_available svc self playlist_dir Havail tracks
                (Z.of_nat T) T 0%nat initial_sync_state w (length tracks))
      as (st & w' & t & Hrun & Hs & Hi & Hl & Hext);
      try reflexivity; try (simpl; lia).
    exists st, w', t. simpl in *. repeat split; try assumption.
    + intros tracks' Hlen' Htake. unfold reconcile.
      apply Hext; [exact Htake | lia | lia].
    + unfold reconcile. apply Hext.
      * rewrite take_take. f_equal. lia.
      * rewrite length_take. lia.
      * rewrite length_take. lia.
Qed.

(** An instance of C1: three candidates, a target of one, and a library
    that already holds every track. *)
Lemma reconcile_reaches_target_witness :
  ∃ st w' t,
    reconcile (Demo.services Demo.full_library) (make_syncer Demo.settings)
      "/music/navidrofm/recommended" 1
      [Demo.track "A" "one"; Demo.track "B" "two"; Demo.track "C" "three"]
      0%nat = (Ret st, w', t)
    ∧ success_count st = 1%Z
    ∧ track_index st = 1%nat.
Proof.
  destruct (proj2 (reconcile_reaches_target (Demo.services Demo.full_library)
                     (make_syncer Demo.settings) "/music/navidrofm/recommended")
              1%nat
              [Demo.track "A" "one"; Demo.track "B" "two"; Demo.track "C" "three"]
              0%nat eq_refl)
    as (st & w' & t & Hrun & Hs & Hi & _).
  - intros artist title w0. exists (AlreadyPresent "s1").
    split; reflexivity.
  - exists st, w', t. auto.
Defined.

(** *** Resolution against the library after the scan *)

Ltac attempt_done :=
  split; [reflexivity|];
  split; [intros [ids nf] | intros ids]; simpl; rewrite ?app_nil_r; reflexivity.

Section Resolving.

Context {W : Type} (svc : Services W).

Lemma searches_cons track_info l :
  searches (track_info :: l) = searches [track_info] ++ searches l.
Proof.
  unfold searches. simpl. destruct (searchable track_info); reflexivity.
Qed.

(** One track: the attempt of the specification against the bodies of the
    two passes. *)
Lemma attempt_step track_info w :
  ∃ r w1,
    attempt svc track_info w = (Ret r, w1, searches [track_info])
    ∧ (∀ st, first_pass_body svc track_info st w
             = (Ret (Continue
                       {| rs_song_ids := rs_song_ids st ++ found_ids [r];
                          rs_not_found :=
                            rs_not_found st ++ not_found_of [track_info] [r] |}),
                w1, searches [track_info]))
    ∧ (∀ ids, retry_body svc track_info ids w
              = (Ret (Continue (ids ++ found_ids [r])), w1,
                 searches [track_info])).
Proof.
  unfold attempt, first_pass_body, retry_body, searches. simpl.
  unfold searchable.
  destruct (Text.truthy (info_artist track_info)); simpl;
    [|exists None, w; attempt_done].
  destruct (Text.truthy (info_title track_info)); simpl;
    [|exists None, w; attempt_done].
  unfold try_catch, lookup_song, bind, call, ret.
  destruct (search3 svc _ 10 w) as [[songs|e] w1]; simpl;
    [|exists None, w1; attempt_done].
  destruct songs as [|song songs]; simpl; [exists None, w1; attempt_done|].
  destruct (song_id song) as [id|]; simpl; [|exists None, w1; attempt_done].
  destruct (Text.truthy id); simpl;
    [exists (Some id), w1 | exists None, w1]; attempt_done.
Qed.

Lemma found_ids_cons r rs : found_ids (r :: rs) = found_ids [r] ++ found_ids rs.
Proof. unfold found_ids. destruct r; reflexivity. Qed.

Lemma not_found_of_cons track_info l r rs :
  not_found_of (track_info :: l) (r :: rs)
  = not_found_of [track_info] [r] ++ not_found_of l rs.
Proof.
  simpl. destruct (searchable track_info && negb (bool_decide (is_Some r)));
    reflexivity.
Qed.

(** A pass of the code is a pass of attempts. *)
Lemma passes_spec l :
  ∀ w, ∃ rs w',
    attempt_all svc l w = (Ret rs, w', searches l)
    ∧ length rs = length l
    ∧ (∀ st, for_each l (first_pass_body svc) st w
             = (Ret {| rs_song_ids := rs_song_ids st ++ found_ids rs;
                       rs_not_found := rs_not_found st ++ not_found_of l rs |},
                w', searches l))
    ∧ (∀ ids, for_each l (retry_body svc) ids w
              = (Ret (ids ++ found_ids rs), w', searches l)).
Proof.
  induction l as [|track_info l IH]; intros w.
  - exists [], w. repeat split; intros; simpl; rewrite ?app_nil_r;
      [destruct st|]; reflexivity.
  - destruct (attempt_step track_info w) as (r & w1 & Ha & Hf & Hr).
    destruct (IH w1) as (rs & w' & Hall & Hlen & Hfirst & Hretry).
    exists (r :: rs), w'. split; [|split; [|split]].
    + simpl. rewrite (bind_run _ _ _ _ _ _ Ha).
      rewrite (bind_run _ _ _ _ _ _ Hall). simpl.
      rewrite app_nil_r, (searches_cons track_info l). reflexivity.
    + simpl. lia.
    + intros st. cbn [for_each]. rewrite (bind_run _ _ _ _ _ _ (Hf st)).
      cbn beta iota. rewrite Hfirst.
      unfold result_of, world_of, trace_of.
      cbn [fst snd rs_song_ids rs_not_found].
      rewrite (found_ids_cons r rs), (not_found_of_cons track_info l r rs).
      rewrite <- !app_assoc, (searches_cons track_info l). reflexivity.
    + intros ids. cbn [for_each]. rewrite (bind_run _ _ _ _ _ _ (Hr ids)).
      cbn beta iota. rewrite Hretry.
      unfold result_of, world_of, trace_of. cbn [fst snd].
      rewrite (found_ids_cons r rs).
      rewrite <- !app_assoc, (searches_cons track_info l). reflexivity.
Qed.

End Resolving.

Section Settling.

Context {W : Type} (svc : Services W).

Lemma sleep_run n w :
  sleep svc n w = (Ret tt, clock_sleep svc n w, [EvSleep n]).
Proof. reflexivity. Qed.

Lemma resolve_downloaded_spec downloaded w :
  ∃ first w1 second w2,
    attempt_all svc downloaded (clock_sleep svc (settle_wait downloaded) w)
      = (Ret first, w1, searches downloaded)
    ∧ attempt_all svc (not_found_of downloaded first)
        (match not_found_of downloaded first with
         | [] => w1
         | _ :: _ =>
             clock_sleep svc (retry_wait (not_found_of downloaded first)) w1
         end)
      = (Ret second, w2, searches (not_found_of downloaded first))
    ∧ resolve_downloaded svc downloaded w
      = (Ret (found_ids first ++ found_ids second), w2,
         EvSleep (settle_wait downloaded)
         :: searches downloaded
            ++ match not_found_of downloaded first with
               | [] => []
               | _ :: _ =>
                   EvSleep (retry_wait (not_found_of downloaded first))
                   :: searches (not_found_of downloaded first)
               end).
Proof.
  destruct (passes_spec svc downloaded
              (clock_sleep svc (settle_wait downloaded) w))
    as (first & w1 & Hall & _ & Hfirst & _).
  specialize (Hfirst initial_resolve_state). simpl in Hfirst.
  remember (not_found_of downloaded first) as nf eqn:Hnf.
  destruct (passes_spec svc nf
              (match nf with
               | [] => w1
               | _ :: _ => clock_sleep svc (retry_wait nf) w1
               end))
    as (second & w2 & Hall2 & _ & _ & Hretry).
  exists first, w1, second, w2. rewrite <- Hnf.
  split; [exact Hall|]. split; [exact Hall2|].
  unfold resolve_downloaded.
  rewrite (bind_run _ _ _ _ _ _ (sleep_run _ w)).
  rewrite (bind_run _ _ _ _ _ _ Hfirst).
  cbn [rs_not_found rs_song_ids].
  destruct nf as [|track_info nf'].
  - simpl in Hall2. injection Hall2 as <- <-.
    unfold result_of, world_of, trace_of, found_ids. simpl.
    rewrite !app_nil_r. reflexivity.
  - rewrite (bind_run _ _ _ _ _ _ (sleep_run _ w1)).
    rewrite Hretry.
    unfold result_of, world_of, trace_of. cbn [fst snd]. reflexivity.
Qed.

Lemma never_raises_scan fuel self directory downloaded :
  never_raises
    (scan_and_get_songs_from_directory svc fuel self directory downloaded).
Proof.
  unfold scan_and_get_songs_from_directory.
  apply never_raises_try_catch. intros e.
  apply returns_never_raises, returns_ret.
Qed.

(** Once the scan was started and has come to rest, what remains of
    [scan_and_get_songs_from_directory] is the resolution. *)
Lemma scan_after_quiescence fuel self directory downloaded wb wa ta n w tb :
  downloaded ≠ [] →
  trigger_scan svc self directory wb = (Ret tt, wa, ta) →
  wait_for_scan svc fuel wa = (Ret n, w, tb) →
  ∀ ids w2 t,
    resolve_downloaded svc downloaded w = (Ret ids, w2, t) →
    scan_and_get_songs_from_directory svc fuel self directory downloaded wb
    = (Ret ids, w2, ta ++ tb ++ t).
Proof.
  intros Hne Htrig Hwait ids w2 t Hres.
  unfold scan_and_get_songs_from_directory, try_catch.
  destruct downloaded as [|d ds]; [congruence|].
  rewrite (bind_run _ _ _ _ _ _ Htrig).
  rewrite (bind_run _ _ _ _ _ _ Hwait).
  rewrite Hres. reflexivity.
Qed.

(** Enough fuel: the polling loop returns as soon as the server reports
    the end of the scan within the polls that the fuel allows. *)
Lemma wait_loop_returns k :
  ∀ fuel scan_time w,
    quiescent_within svc k w → (k ≤ fuel)%nat →
    ∃ n w' t,
      while_loop fuel (fun _ => true) (poll_body svc) scan_time w
      = (Ret n, w', t).
Proof.
  induction k as [|k IH]; intros fuel scan_time w Hq Hfuel; [destruct Hq|].
  destruct fuel as [|fuel]; [lia|].
  simpl in Hq. cbn [while_loop].
  unfold poll_body at 1. unfold bind, sleep, try_catch, call, ret.
  destruct (getScanStatus svc (clock_sleep svc 2 w)) as [[status|e] w1].
  - destruct (scanning status); simpl.
    + destruct (IH fuel (scan_time + 2)%nat w1 Hq ltac:(lia))
        as (n & w' & t & Hrun).
      rewrite Hrun. eauto.
    + eauto.
  - simpl.
    destruct (IH fuel (scan_time + 2)%nat w1 Hq ltac:(lia))
      as (n & w' & t & Hrun).
    rewrite Hrun. eauto.
Qed.

Lemma wait_for_scan_returns k fuel w :
  quiescent_within svc k w → (k ≤ fuel)%nat →
  ∃ n w' t, wait_for_scan svc fuel w = (Ret n, w', t).
Proof. apply wait_loop_returns. Qed.

Lemma searches_no_sleep l : List.filter is_sleep (searches l) = [].
Proof.
  unfold searches. induction (List.filter searchable l) as [|x xs IH];
    [reflexivity | exact IH].
Qed.

Lemma settle_wait_clamp downloaded :
  settle_wait downloaded = clamp (length downloaded) 5 30.
Proof.
  unfold settle_wait, clamp.
  destruct (length downloaded <? 5)%nat eqn:E1;
    [apply Nat.ltb_lt in E1 | apply Nat.ltb_ge in E1];
    (destruct (30 <? length downloaded)%nat eqn:E2;
     [apply Nat.ltb_lt in E2 | apply Nat.ltb_ge in E2]); lia.
Qed.

Lemma retry_wait_clamp not_found_tracks :
  retry_wait not_found_tracks = clamp (length not_found_tracks * 2) 0 30.
Proof.
  unfold retry_wait, clamp.
  destruct (length not_found_tracks * 2 <? 0)%nat eqn:E1;
    [apply Nat.ltb_lt in E1; lia|].
  destruct (30 <? length not_found_tracks * 2)%nat eqn:E2;
    [apply Nat.ltb_lt in E2 | apply Nat.ltb_ge in E2]; lia.
Qed.

Lemma searches_not_found l rs :
  searches (not_found_of l rs)
  = map (fun t => EvSearch3 (info_artist t +:+ " " +:+ info_title t) 10)
      (not_found_of l rs).
Proof.
  unfold searches. f_equal.
  revert rs. induction l as [|t l IH]; intros [|r rs]; simpl; try reflexivity.
  destruct (searchable t) eqn:Hs; simpl; [|apply IH].
  destruct (negb (bool_decide (is_Some r))); simpl; [|apply IH].
  rewrite Hs. f_equal. apply IH.
Qed.

(** C7.  After the settling delay the resolution is made of two passes of
    attempts: one over the downloaded tracks, and one, after the retry
    delay, over the tracks the first pass did not find; there is no third.
    It returns the identifiers of the first pass in input order followed by
    those of the retry pass in retry order, so a track found only on retry
    is in the result and a track never found adds nothing.  Its requests
    are one search per searchable track of the first pass and one search
    per track of the not-found set.  The scan never raises; once the scan
    has come to rest its result is this one; and the wait for the scan to
    come to rest returns as soon as the server reports the end of the scan
    within the polls allowed. *)
Theorem retry_pass_once (downloaded : list TrackInfo) (w : W) :
  ∃ first w1 second w2,
    let not_found := not_found_of downloaded first in
    let requests :=
      EvSleep (settle_wait downloaded)
      :: searches downloaded
         ++ match not_found with
            | [] => []
            | _ :: _ => EvSleep (retry_wait not_found) :: searches not_found
            end in
    attempt_all svc downloaded (clock_sleep svc (settle_wait downloaded) w)
      = (Ret first, w1, searches downloaded)
    ∧ attempt_all svc not_found
        (match not_found with
         | [] => w1
         | _ :: _ => clock_sleep svc (retry_wait not_found) w1
         end)
      = (Ret second, w2, searches not_found)
    ∧ resolve_downloaded svc downloaded w
      = (Ret (found_ids first ++ found_ids second), w2, requests)
    ∧ searches not_found
      = map (fun t => EvSearch3 (info_artist t +:+ " " +:+ info_title t) 10)
          not_found
    ∧ (∀ i track_info id,
         not_found !! i = Some track_info →
         second !! i = Some (Some id) →
         id ∈ found_ids first ++ found_ids second)
    ∧ (∀ fuel self directory,
         never_raises
           (scan_and_get_songs_from_directory svc fuel self directory
              downloaded))
    ∧ (∀ fuel self directory wb wa ta n tb,
         downloaded ≠ [] →
         trigger_scan svc self directory wb = (Ret tt, wa, ta) →
         wait_for_scan svc fuel wa = (Ret n, w, tb) →
         scan_and_get_songs_from_directory svc fuel self directory
           downloaded wb
         = (Ret (found_ids first ++ found_ids second), w2,
            ta ++ tb ++ requests))
    ∧ (∀ k fuel wa,
         quiescent_within svc k wa → (k ≤ fuel)%nat →
         ∃ n w' tb, wait_for_scan svc fuel wa = (Ret n, w', tb)).
Proof.
  destruct (resolve_downloaded_spec downloaded w)
    as (first & w1 & second & w2 & Hall & Hall2 & Hres).
  exists first, w1, second, w2. cbv zeta.
  split; [exact Hall|]. split; [exact Hall2|]. split; [exact Hres|].
  split; [|split; [|split; [|split]]].
  - apply searches_not_found.
  - intros i track_info id _ Hi. apply elem_of_app. right.
    unfold found_ids. apply list_elem_of_omap.
    exists (Some id). split; [|reflexivity].
    eapply list_elem_of_lookup_2; eauto.
  - intros fuel self directory. apply never_raises_scan.
  - intros fuel self directory wb wa ta n tb Hne Htrig Hwait.
    eapply scan_after_quiescence; eauto.
  - intros k fuel wa. apply wait_for_scan_returns.
Qed.

(** C8.  The settling delay is [clamp(len(downloaded), 5, 30)] and the
    delay before the retry pass is [clamp(len(not_found) * 2, 0, 30)].
    The resolution starts with the settling delay; its only other delay is
    the retry delay, made when and only when the not-found set of the
    first pass is not empty; and a scan that has come to rest goes on with
    exactly these requests. *)
Theorem settling_delays (downloaded : list TrackInfo) (w : W) :
  settle_wait downloaded = clamp (length downloaded) 5 30
  ∧ (∀ not_found, retry_wait not_found = clamp (length not_found * 2) 0 30)
  ∧ ∃ first w1,
      let not_found := not_found_of downloaded first in
      attempt_all svc downloaded
        (clock_sleep svc (clamp (length downloaded) 5 30) w)
        = (Ret first, w1, searches downloaded)
      ∧ head (trace_of (resolve_downloaded svc downloaded w))
        = Some (EvSleep (clamp (length downloaded) 5 30))
      ∧ List.filter is_sleep (trace_of (resolve_downloaded svc downloaded w))
        = EvSleep (clamp (length downloaded) 5 30)
          :: match not_found with
             | [] => []
             | _ :: _ => [EvSleep (clamp (length not_found * 2) 0 30)]
             end
      ∧ (∀ fuel self directory wb wa ta n tb,
           downloaded ≠ [] →
           trigger_scan svc self directory wb = (Ret tt, wa, ta) →
           wait_for_scan svc fuel wa = (Ret n, w, tb) →
           trace_of (scan_and_get_songs_from_directory svc fuel self
                       directory downloaded wb)
           = ta ++ tb ++ trace_of (resolve_downloaded svc downloaded w)).
Proof.
  split; [apply settle_wait_clamp|]. split; [apply retry_wait_clamp|].
  destruct (resolve_downloaded_spec downloaded w)
    as (first & w1 & second & w2 & Hall & Hall2 & Hres).
  exists first, w1. cbv zeta.
  rewrite <- settle_wait_clamp, <- retry_wait_clamp.
  split; [exact Hall|]. rewrite Hres. unfold trace_of. cbn [snd].
  split; [reflexivity|]. split.
  - cbn [List.filter is_sleep]. f_equal.
    rewrite List.filter_app, searches_no_sleep.
    destruct (not_found_of downloaded first); [reflexivity|].
    cbn [List.filter is_sleep app]. rewrite searches_no_sleep. reflexivity.
  - intros fuel self directory wb wa ta n tb Hne Htrig Hwait.
    rewrite (scan_after_quiescence fuel self directory downloaded wb wa ta n
               w tb Hne Htrig Hwait _ _ _ Hres).
    reflexivity.
Qed.

End Settling.

(** An instance of C7: a track that the library does not know yet at the
    first pass and knows at the retry is in the result, after exactly two
    searches. *)
Lemma retry_pass_once_witness :
  resolve_downloaded (Demo.services Demo.slow_library)
    [Demo.info "Artist" "Song"] 0%nat
  = (Ret ["late"], 4%nat,
     [EvSleep 5; EvSearch3 "Artist Song" 10;
      EvSleep 2; EvSearch3 "Artist Song" 10]).
Proof.
  destruct (retry_pass_once (Demo.services Demo.slow_library)
              [Demo.info "Artist" "Song"] 0%nat)
    as (first & w1 & second & w2 & H).
  cbv zeta in H. destruct H as (Hall & Hall2 & Hres & _).
  vm_compute in Hall. injection Hall as <- <-.
  vm_compute in Hall2. injection Hall2 as <- <-.
  rewrite Hres. vm_compute. reflexivity.
Defined.

(** An instance of C8: one downloaded track that the library never finds;
    the delays are 5 and then 2. *)
Lemma settling_delays_witness :
  List.filter is_sleep
    (trace_of (resolve_downloaded (Demo.services Demo.empty_library)
                 [Demo.info "Artist" "Song"] 0%nat))
  = [EvSleep 5; EvSleep 2].
Proof.
  destruct (settling_delays (Demo.services Demo.empty_library)
              [Demo.info "Artist" "Song"] 0%nat)
    as (_ & _ & first & w1 & H).
  cbv zeta in H. destruct H as (Hall & _ & Hsleeps & _).
  vm_compute in Hall. injection Hall as <- <-.
  rewrite Hsleeps. vm_compute. reflexivity.
Defined.

(** *** Publication *)

Section Publishing.

Context {W : Type} (svc : Services W).

Lemma update_playlist_run playlist_id ids w :
  update_playlist svc playlist_id ids w
  = (Ret tt, (createPlaylist svc (replace_request playlist_id ids) w).2,
     [EvCreatePlaylist (replace_request playlist_id ids)]).
Proof.
  unfold update_playlist, try_catch, bind, call, ret.
  destruct ids as [|id ids].
  - change (clear_request playlist_id) with (replace_request playlist_id []).
    destruct (createPlaylist svc (replace_request playlist_id []) w)
      as [[r|e] w1]; reflexivity.
  - destruct (createPlaylist svc (replace_request playlist_id (id :: ids)) w)
      as [[r|e] w1]; reflexivity.
Qed.

(** C9.  [update_playlist] makes one [createPlaylist] call, which carries
    the playlist and the given identifiers, none when the sequence is
    empty, and it never fails.  On a media server whose [createPlaylist]
    replaces the content of the playlist by the identifiers it is given
    ([content] reads the playlist back), the playlist then holds the given
    sequence, and publishing the same sequence again leaves it so. *)
Theorem publish_idempotent (content : W → string → option (list string))
  (playlist_id : string) (X : list string) (w : W) :
  (∀ id ids w0,
     content (createPlaylist svc (replace_request id ids) w0).2 id = Some ids) →
  let once := update_playlist svc playlist_id X w in
  let twice := update_playlist svc playlist_id X (world_of once) in
  once = (Ret tt, (createPlaylist svc (replace_request playlist_id X) w).2,
          [EvCreatePlaylist (replace_request playlist_id X)])
  ∧ cp_songId (replace_request playlist_id X) = X
  ∧ replace_request playlist_id [] = clear_request playlist_id
  ∧ cp_songId (clear_request playlist_id) = []
  ∧ content (world_of once) playlist_id = Some X
  ∧ result_of twice = Ret tt
  ∧ trace_of twice = [EvCreatePlaylist (replace_request playlist_id X)]
  ∧ content (world_of twice) playlist_id = Some X.
Proof.
  intros Hserver once twice. subst once twice.
  rewrite !update_playlist_run. unfold world_of, result_of, trace_of.
  cbn [fst snd]. repeat split; try reflexivity; apply Hserver.
Qed.

End Publishing.

(** An instance of C9, on the media server of [Server]: publishing twice
    leaves the sequence, publishing nothing clears the playlist. *)
Lemma publish_idempotent_witness :
  let store : gmap string (list string) := {["p1" := ["old"]]} in
  let once := update_playlist Server.services "p1" ["a"; "b"] store in
  let twice := update_playlist Server.services "p1" ["a"; "b"] (world_of once) in
  world_of once !! "p1" = Some ["a"; "b"]
  ∧ world_of twice !! "p1" = Some ["a"; "b"]
  ∧ world_of (update_playlist Server.services "p1" [] (world_of twice)) !! "p1"
    = Some [].
Proof.
  intros store once twice.
  assert (Hserver : ∀ id ids (w0 : gmap string (list string)),
            (createPlaylist Server.services (replace_request id ids) w0).2 !! id
            = Some ids).
  { intros id ids w0. simpl. apply lookup_insert_eq. }
  pose proof (publish_idempotent Server.services (fun s id => s !! id)
                "p1" ["a"; "b"] store Hserver) as H.
  cbv zeta in H. destruct H as (_ & _ & _ & _ & H1 & _ & _ & H2).
  split; [exact H1|]. split; [exact H2|].
  pose proof (publish_idempotent Server.services (fun s id => s !! id)
                "p1" [] (world_of twice) Hserver) as H.
  cbv zeta in H. destruct H as (_ & _ & _ & _ & H3 & _).
  exact H3.
Defined.

(** *** Errors of a playlist sync *)

Section Syncing.

Context {W : Type} (svc : Services W).


Lemma never_raises_try_finally {A} (m : M W A) (cleanup : M W unit) :
  never_raises m → never_raises cleanup → never_raises (try_finally m cleanup).
Proof.
  intros Hm Hc w e. specialize (Hm w e). unfold try_finally, result_of in *.
  destruct (m w) as [[o w1] t1]. simpl in Hm.
  specialize (Hc w1). unfold result_of in Hc.
  destruct o as [a|e0|]; [| |discriminate];
    (destruct (cleanup w1) as [[[u|e1|] w2] t2]; simpl in *;
     [exact Hm | destruct (Hc e1 eq_refl) | discriminate]).
Qed.


Lemma library_body_step tracks st w r w' t :
  library_body svc tracks st w = (Ret r, w', t) →
  ∃ st', r = Continue st' ∧ track_index st' = S (track_index st).
Proof.
  unfold library_body.
  destruct (tracks !! track_index st) as [track|]; [|discriminate].
  destruct (negb _ || negb _).
  - intros [= <- _ _]. eexists. split; reflexivity.
  - unfold bind, ret.
    destruct (search_navidrome_track svc _ _ w) as [[[found|e|] w1] t1];
      try discriminate.
    destruct (Text.truthy_opt found); intros [= <- _ _]; eexists;
      split; reflexivity.
Qed.

Lemma library_body_returns tracks st :
  (track_index st < length tracks)%nat →
  returns (library_body svc tracks st).
Proof.
  intros Hlt. unfold library_body.
  destruct (lookup_lt_is_Some_2 tracks (track_index st) Hlt) as [track ->].
  destruct (negb _ || negb _); [apply returns_ret|].
  apply returns_bind; [apply returns_search_navidrome_track|]. intros found.
  destruct (Text.truthy_opt found); apply returns_ret.
Qed.

Lemma never_raises_library_reconcile target tracks :
  never_raises (library_reconcile svc target tracks).
Proof.
  apply while_loop_never_raises. intros s Hc.
  apply returns_never_raises, library_body_returns.
  eapply sync_cond_index; eauto.
Qed.

Lemma never_raises_reconcile self playlist_dir target tracks :
  never_raises (reconcile svc self playlist_dir target tracks).
Proof.
  apply returns_never_raises. unfold reconcile.
  apply reconcile_returns. simpl. lia.
Qed.

Lemma never_raises_sleep n : never_raises (sleep svc n).
Proof. apply returns_never_raises, returns_sleep. Qed.

End Syncing.

Lemma make_syncer_playlists e playlist_type c :
  playlists (make_syncer e) !! playlist_type = Some c →
  cfg_url c ≠ None ∧ (playlist_type ≠ "library" → cfg_dir c ≠ None).
Proof.
  unfold make_syncer. cbn [playlists].
  rewrite !lookup_insert_Some, lookup_empty.
  intros [[<- <-]|[_ [[<- <-]|[_ [[<- <-]|[_ H]]]]]]; simpl;
    try discriminate; split; congruence.
Qed.

Lemma make_syncer_listenbrainz e playlist_type c :
  listenbrainz_playlists (make_syncer e) !! playlist_type = Some c →
  cfg_playlist_type c ≠ None ∧ cfg_dir c ≠ None.
Proof.
  unfold make_syncer. cbn [listenbrainz_playlists].
  destruct (Text.truthy_opt (env_lz_user e));
    [|rewrite lookup_empty; discriminate].
  rewrite !lookup_insert_Some, lookup_empty.
  intros [[<- <-]|[_ [[<- <-]|[_ H]]]]; simpl;
    try discriminate; split; congruence.
Qed.

Section SyncingAll.

Context {W : Type} (svc : Services W).

Lemma returns_fetch_lastfm_tracks url num_tracks :
  returns (fetch_lastfm_tracks svc url num_tracks).
Proof.
  intros w. destruct (fetch_lastfm_tracks_inv svc url num_tracks w)
    as (tracks & seen & Hrun & _).
  eauto.
Qed.

Lemma returns_fetch_listenbrainz_tracks playlist_id num_tracks :
  returns (fetch_listenbrainz_tracks svc playlist_id num_tracks).
Proof.
  unfold fetch_listenbrainz_tracks.
  apply returns_try_catch; [|intros e; apply returns_ret].
  repeat halts_step.
Qed.

Lemma returns_fetch_listenbrainz_playlist_id self playlist_type :
  returns (fetch_listenbrainz_playlist_id svc self playlist_type).
Proof.
  unfold fetch_listenbrainz_playlist_id.
  destruct (negb _); [apply returns_ret|].
  intros w. unfold result_of.
  destruct (listenbrainz_playlists_get svc playlist_type w) as [r w1].
  eauto.
Qed.

Lemma returns_fetch_tracks_for_playlist e playlist_type config :
  get_playlist_config (make_syncer e) playlist_type = Some config →
  returns (fetch_tracks_for_playlist svc (make_syncer e) playlist_type config).
Proof.
  unfold get_playlist_config, fetch_tracks_for_playlist. intros Hcfg.
  destruct (playlists (make_syncer e) !! playlist_type) as [c|] eqn:Hp.
  - injection Hcfg as ->.
    rewrite bool_decide_eq_true_2 by eauto.
    destruct (make_syncer_playlists e playlist_type config Hp) as [Hurl _].
    destruct (cfg_url config) as [url|]; [|congruence].
    apply returns_fetch_lastfm_tracks.
  - rewrite bool_decide_eq_false_2 by (intros [x Hx]; discriminate).
    rewrite Hcfg. rewrite bool_decide_eq_true_2 by eauto.
    destruct (make_syncer_listenbrainz e playlist_type config Hcfg) as [Hkind _].
    destruct (cfg_playlist_type config) as [kind|]; [|congruence].
    apply returns_bind; [apply returns_fetch_listenbrainz_playlist_id|].
    intros [id|]; [|apply returns_ret].
    destruct (Text.truthy id); [|apply returns_ret].
    apply returns_fetch_listenbrainz_tracks.
Qed.

Lemma for_each_exn_inv {A S} (l : list A) (body : A → S → M W (next S)) :
  ∀ s w e, result_of (for_each l body s w) = Exn e →
           ∃ x s0 w0, x ∈ l ∧ result_of (body x s0 w0) = Exn e.
Proof.
  induction l as [|x l IH]; intros s w e; simpl; [discriminate|].
  intros H. apply bind_inv_exn in H as [H|(r & w1 & t1 & _ & H)].
  - exists x, s, w. split; [left | exact H].
  - destruct r as [s1|s1]; [|discriminate H].
    destruct (IH s1 w1 e H) as (y & s0 & w0 & Hin & Hy).
    exists y, s0, w0. split; [right; exact Hin | exact Hy].
Qed.

Lemma bind_result_inv {A B} (m : M W A) (k : A → M W B) w b :
  result_of (bind m k w) = Ret b →
  ∃ a w1 t1, m w = (Ret a, w1, t1) ∧ result_of (k a w1) = Ret b.
Proof.
  unfold bind, result_of. destruct (m w) as [[[a|e|] w1] t1]; simpl;
    try discriminate.
  destruct (k a w1) as [[o w2] t2] eqn:Hk. simpl. intros ->.
  exists a, w1, t1. rewrite Hk. split; reflexivity.
Qed.

Lemma try_catch_result_inv {A} (m : M W A) (c : A) w a :
  result_of (try_catch m (fun _ => ret c) w) = Ret a →
  result_of (m w) = Ret a ∨ (a = c ∧ ∃ e, result_of (m w) = Exn e).
Proof.
  unfold try_catch, ret, result_of.
  destruct (m w) as [[[x|e|] w1] t1]; simpl.
  - auto.
  - intros [= <-]. right. eauto.
  - discriminate.
Qed.

End SyncingAll.

(** *** What a computation lets out *)

Section LettingOut.

Context {W : Type}.

Lemma lets_out_ret {A} (a : A) P : lets_out (ret a : M W A) P.
Proof. intros w e. discriminate. Qed.

Lemma lets_out_raise {A} e0 (P : exn → Prop) :
  P e0 → lets_out (raise e0 : M W A) P.
Proof. intros H w e [= <-]. exact H. Qed.

Lemma lets_out_call {A} ev (op : W → reply A * W) (P : exn → Prop) :
  (∀ w e, (op w).1 = Raises e → P e) → lets_out (call ev op) P.
Proof.
  intros H w e. unfold call, result_of. specialize (H w).
  destruct (op w) as [[a|e0] w1]; simpl in *; [discriminate|].
  intros [= <-]. apply H. reflexivity.
Qed.

Lemma lets_out_bind {A B} (m : M W A) (k : A → M W B) P :
  lets_out m P → (∀ a, lets_out (k a) P) → lets_out (bind m k) P.
Proof.
  intros Hm Hk w e H. apply bind_inv_exn in H as [H|(a & w1 & t1 & _ & H)].
  - exact (Hm w e H).
  - exact (Hk a w1 e H).
Qed.

(** A handler for every exception: only what the handler raises gets
    out. *)
Lemma lets_out_try_catch {A} (m : M W A) (handler : exn → M W A) P :
  (∀ e, lets_out (handler e) P) → lets_out (try_catch m handler) P.
Proof.
  intros Hh w e. unfold try_catch, result_of.
  destruct (m w) as [[[a|e0|] w1] t1]; simpl; try discriminate.
  specialize (Hh e0 w1 e). unfold result_of in Hh.
  destruct (handler e0 w1) as [[o w2] t2]. simpl in *. exact Hh.
Qed.

Lemma lets_out_for_each {A S} (l : list A) (body : A → S → M W (next S)) P :
  (∀ x s, lets_out (body x s) P) → ∀ s, lets_out (for_each l body s) P.
Proof.
  intros Hb. induction l as [|x l IH]; intros s; simpl.
  - apply lets_out_ret.
  - apply lets_out_bind; [apply Hb|].
    intros [s'|s']; [apply IH | apply lets_out_ret].
Qed.

Lemma lets_out_while_loop {S} (cond : S → bool) (body : S → M W (next S)) P :
  (∀ s, cond s = true → lets_out (body s) P) →
  ∀ fuel s, lets_out (while_loop fuel cond body s) P.
Proof.
  intros Hb. induction fuel as [|fuel IH]; intros s; simpl;
    destruct (cond s) eqn:Hc; try apply lets_out_ret.
  - intros w e. discriminate.
  - apply lets_out_bind; [apply Hb; exact Hc|].
    intros [s'|s']; [apply IH | apply lets_out_ret].
Qed.

Lemma lets_out_weaken {A} (m : M W A) (P Q : exn → Prop) :
  lets_out m P → (∀ e, P e → Q e) → lets_out m Q.
Proof. intros Hm HPQ w e H. apply HPQ. exact (Hm w e H). Qed.

Lemma bind_result_run {A B} (m : M W A) (k : A → M W B) w a w1 t1 :
  m w = (Ret a, w1, t1) → result_of (bind m k w) = result_of (k a w1).
Proof. intros H. rewrite (bind_run _ _ _ _ _ _ H). reflexivity. Qed.

Lemma bind_result_exn {A B} (m : M W A) (k : A → M W B) w e :
  result_of (m w) = Exn e → result_of (bind m k w) = Exn e.
Proof.
  unfold bind, result_of. destruct (m w) as [[[a|e0|] w1] t1]; simpl;
    intros H; try discriminate H.
  injection H as ->. reflexivity.
Qed.

End LettingOut.

Ltac lets_out_step :=
  first
    [ apply lets_out_ret
    | apply lets_out_bind; [|intros ?]
    | apply lets_out_try_catch; intros ?
    | match goal with
      | |- lets_out (match ?x with _ => _ end) _ => destruct x
      end ].

(** *** What leaves the remainder of a sync *)

Section LoggedErrors.

Context {W : Type} (svc : Services W).
Context (print : string → W → reply unit * W).
Context (write_tags_body : string → TrackInfo → W → reply unit * W).

Lemma lets_out_log message : lets_out (Logged.log print message) (Logged.raised_by_print print).
Proof.
  intros w e. unfold Logged.log, result_of.
  destruct (print message w) as [[u|e0] w1] eqn:Hp; simpl; [discriminate|].
  intros [= <-]. exists message, w. rewrite Hp. reflexivity.
Qed.

Lemma lets_out_print_exc : lets_out (Logged.print_exc print) (Logged.raised_by_print print).
Proof. apply lets_out_log. Qed.

Lemma lets_out_sleep n P : lets_out (sleep svc n) P.
Proof. intros w e. discriminate. Qed.

Ltac logged_step :=
  first [ apply lets_out_log | apply lets_out_print_exc | apply lets_out_sleep
        | lets_out_step ].

Lemma lets_out_search_navidrome_track artist title :
  lets_out (Logged.search_navidrome_track svc print artist title) (Logged.raised_by_print print).
Proof.
  unfold Logged.search_navidrome_track.
  apply lets_out_try_catch. intros e. repeat logged_step.
Qed.

Lemma lets_out_search_ytmusic_track artist title :
  lets_out (Logged.search_ytmusic_track svc print artist title) (Logged.raised_by_print print).
Proof.
  unfold Logged.search_ytmusic_track.
  apply lets_out_try_catch. intros e. repeat logged_step.
Qed.

Lemma lets_out_download_track_ytmusic self video_id output_dir metadata :
  lets_out
    (Logged.download_track_ytmusic svc print write_tags_body self video_id
       output_dir metadata)
    (Logged.raised_by_print print).
Proof.
  unfold Logged.download_track_ytmusic.
  apply lets_out_try_catch. intros e. repeat logged_step.
Qed.

Lemma lets_out_cleanup_missing_files self :
  lets_out (Logged.cleanup_missing_files svc print self) (Logged.raised_by_print print).
Proof.
  unfold Logged.cleanup_missing_files.
  apply lets_out_try_catch. intros e. repeat logged_step.
Qed.

Lemma lets_out_get_navidrome_playlist_id name :
  lets_out (Logged.get_navidrome_playlist_id svc print name) (Logged.raised_by_print print).
Proof.
  unfold Logged.get_navidrome_playlist_id.
  apply lets_out_try_catch. intros e. repeat logged_step.
Qed.

Lemma lets_out_scan fuel self directory downloaded :
  lets_out
    (Logged.scan_and_get_songs_from_directory svc print fuel self directory
       downloaded)
    (Logged.raised_by_print print).
Proof.
  unfold Logged.scan_and_get_songs_from_directory.
  apply lets_out_try_catch. intros e. repeat logged_step.
Qed.

Lemma lets_out_update_playlist playlist_id ids :
  lets_out (Logged.update_playlist svc print playlist_id ids) (Logged.raised_by_print print).
Proof.
  unfold Logged.update_playlist.
  apply lets_out_try_catch. intros e. repeat logged_step.
Qed.

Lemma lets_out_library_reconcile target tracks :
  lets_out (Logged.library_reconcile svc print target tracks) (Logged.raised_by_print print).
Proof.
  apply lets_out_while_loop. intros st Hc.
  apply sync_cond_index in Hc. unfold Logged.library_body.
  destruct (tracks !! track_index st) as [track|] eqn:Hl;
    [|apply lookup_ge_None in Hl; lia].
  destruct (negb _ || negb _); [apply lets_out_ret|].
  apply lets_out_bind; [apply lets_out_log|]. intros _.
  apply lets_out_bind; [apply lets_out_search_navidrome_track|].
  intros found. destruct (Text.truthy_opt found); repeat logged_step.
Qed.

Lemma lets_out_reconcile self playlist_dir target tracks :
  lets_out
    (Logged.reconcile svc print write_tags_body self playlist_dir target
       tracks)
    (Logged.raised_by_print print).
Proof.
  apply lets_out_while_loop. intros st Hc.
  apply sync_cond_index in Hc. unfold Logged.reconcile_body.
  destruct (tracks !! track_index st) as [track|] eqn:Hl;
    [|apply lookup_ge_None in Hl; lia].
  apply lets_out_bind; [apply lets_out_log|]. intros _.
  apply lets_out_bind; [apply lets_out_search_navidrome_track|].
  intros existing. destruct (Text.truthy_opt existing);
    [repeat logged_step|].
  apply lets_out_bind; [apply lets_out_search_ytmusic_track|].
  intros found. apply lets_out_bind; [|intros st'; repeat logged_step].
  destruct found as [info|]; [|repeat logged_step].
  apply lets_out_bind; [apply lets_out_download_track_ytmusic|].
  intros [|]; repeat logged_step.
Qed.

Lemma lets_out_prepare_directory self playlist_dir :
  lets_out (Logged.prepare_directory svc print self playlist_dir)
    (fun e => (Logged.raised_by_print print) e ∨ Logged.raised_by_directory svc playlist_dir e).
Proof.
  assert (Hlog : ∀ message,
            lets_out (Logged.log print message)
              (fun e => (Logged.raised_by_print print) e
                        ∨ Logged.raised_by_directory svc playlist_dir e)).
  { intros message. eapply lets_out_weaken; [apply lets_out_log | auto]. }
  unfold Logged.prepare_directory.
  apply lets_out_bind.
  { apply lets_out_call. intros w e H. right. exists w. auto. }
  intros [|].
  - apply lets_out_bind; [apply Hlog|]. intros _.
    apply lets_out_bind.
    { apply lets_out_call. intros w e H. right. exists w. auto. }
    intros files. apply lets_out_bind.
    + apply lets_out_for_each. intros file n. unfold Logged.clear_body.
      apply lets_out_bind.
      { apply lets_out_call. intros w e H. right. exists w.
        right. right. left. exists file. exact H. }
      intros [|]; [|apply lets_out_ret].
      apply lets_out_try_catch. intros e.
      apply lets_out_bind; [apply Hlog | intros _; apply lets_out_ret].
    + intros n. apply lets_out_bind; [apply Hlog|]. intros _.
      destruct (0 <? n)%nat; [|apply lets_out_ret].
      apply lets_out_bind; [|intros _; apply lets_out_sleep].
      eapply lets_out_weaken; [apply lets_out_cleanup_missing_files | auto].
  - apply lets_out_bind.
    { apply lets_out_call. intros w e H. right. exists w. auto 6. }
    intros _. apply lets_out_bind; [|intros _; apply Hlog].
    apply lets_out_call. intros w e H. right. exists w. auto 6.
Qed.

Lemma lets_out_sync_fetched fuel self playlist_type config tracks :
  (String.eqb playlist_type "library" = false → cfg_dir config ≠ None) →
  lets_out
    (Logged.sync_fetched svc print write_tags_body fuel self playlist_type
       config tracks)
    (fun e =>
       (Logged.raised_by_print print) e
       ∨ ∃ playlist_dir,
           cfg_dir config = Some playlist_dir
           ∧ Logged.raised_by_directory svc playlist_dir e).
Proof.
  intros Hdir.
  assert (Hprint : ∀ A (m : M W A),
            lets_out m (Logged.raised_by_print print) →
            lets_out m
              (fun e =>
                 (Logged.raised_by_print print) e
                 ∨ ∃ playlist_dir,
                     cfg_dir config = Some playlist_dir
                     ∧ Logged.raised_by_directory svc playlist_dir e)).
  { intros A m Hm. eapply lets_out_weaken; [exact Hm | auto]. }
  unfold Logged.sync_fetched.
  apply lets_out_bind;
    [apply Hprint, lets_out_get_navidrome_playlist_id|].
  intros playlist_id.
  destruct (negb (Text.truthy_opt playlist_id));
    [apply Hprint, lets_out_log|].
  cbv zeta. apply lets_out_bind.
  - destruct (String.eqb playlist_type "library") eqn:Hlib.
    + apply Hprint. repeat logged_step. apply lets_out_library_reconcile.
    + destruct (cfg_dir config) as [playlist_dir|] eqn:Hcfg;
        [|destruct (Hdir eq_refl eq_refl)].
      apply lets_out_bind.
      { eapply lets_out_weaken; [apply lets_out_prepare_directory|].
        intros e [H|H]; [left; exact H | right; eauto]. }
      intros _. apply Hprint.
      apply lets_out_bind; [apply lets_out_log|]. intros _.
      apply lets_out_bind; [apply lets_out_sleep|]. intros _.
      apply lets_out_bind; [apply lets_out_reconcile|]. intros st.
      apply lets_out_bind; [apply lets_out_log|]. intros _.
      apply lets_out_bind; [apply lets_out_log|]. intros _.
      destruct (downloaded_tracks st); [apply lets_out_ret|].
      apply lets_out_bind; [apply lets_out_scan|]. intros new.
      apply lets_out_ret.
  - intros ids. apply Hprint.
    apply lets_out_bind; [apply lets_out_log|]. intros _.
    apply lets_out_bind; [apply lets_out_update_playlist|]. intros _.
    repeat logged_step.
Qed.

(** The preparation of the directory stands outside every handler of the
    sync. *)
Lemma prepare_directory_leaves fuel self playlist_type config tracks w
  playlist_id w1 t1 playlist_dir e :
  String.eqb playlist_type "library" = false →
  cfg_dir config = Some playlist_dir →
  Logged.get_navidrome_playlist_id svc print (cfg_name config) w
  = (Ret playlist_id, w1, t1) →
  Text.truthy_opt playlist_id = true →
  result_of (Logged.prepare_directory svc print self playlist_dir w1) = Exn e →
  result_of (Logged.sync_fetched svc print write_tags_body fuel self
               playlist_type config tracks w) = Exn e.
Proof.
  intros Hlib Hcfg Hid Htruthy Hprep. unfold Logged.sync_fetched.
  rewrite (bind_result_run _ _ _ _ _ _ Hid), Htruthy. cbn [negb]. cbv zeta.
  rewrite Hlib, Hcfg.
  apply bind_result_exn, bind_result_exn. exact Hprep.
Qed.

End LoggedErrors.

Section Fatal.

Context {W : Type} (svc : Services W).

(** In the embedding without log lines: what leaves the preparation of
    the directory leaves [sync_playlist]. *)
Lemma sync_playlist_raises fuel self playlist_type config tracks w w1 t1
  playlist_id w2 t2 playlist_dir e :
  get_playlist_config self playlist_type = Some config →
  cfg_enabled config = true →
  fetch_tracks_for_playlist svc self playlist_type config w
  = (Ret tracks, w1, t1) →
  tracks ≠ [] →
  get_navidrome_playlist_id svc (cfg_name config) w1
  = (Ret playlist_id, w2, t2) →
  Text.truthy_opt playlist_id = true →
  String.eqb playlist_type "library" = false →
  cfg_dir config = Some playlist_dir →
  result_of (prepare_directory svc self playlist_dir w2) = Exn e →
  result_of (sync_playlist svc fuel self playlist_type w) = Exn e.
Proof.
  intros Hcfg Hen Hfetch Hne Hid Htruthy Hlib Hdir Hprep.
  unfold sync_playlist. rewrite Hcfg, Hen. cbn [negb].
  rewrite (bind_result_run _ _ _ _ _ _ Hfetch).
  destruct tracks as [|track tracks]; [congruence|].
  unfold sync_fetched.
  rewrite (bind_result_run _ _ _ _ _ _ Hid), Htruthy. cbn [negb]. cbv zeta.
  rewrite Hlib, Hdir.
  apply bind_result_exn, bind_result_exn. exact Hprep.
Qed.

Lemma acquire_lock_run {B} (k : bool → M W B) w :
  bind (acquire_lock svc) k w
  = (result_of (k (flock_acquire svc w).1 (flock_acquire svc w).2),
     world_of (k (flock_acquire svc w).1 (flock_acquire svc w).2),
     EvAcquireLock :: trace_of (k (flock_acquire svc w).1 (flock_acquire svc w).2)).
Proof.
  unfold bind, acquire_lock, result_of, world_of, trace_of.
  destruct (flock_acquire svc w) as [got w1]. simpl.
  destruct (k got w1) as [[o w2] t]. reflexivity.
Qed.

(** What leaves the sync of the requested playlist type ends [main] with
    status 1, the lock released. *)
Lemma main_exits_one_on_error fuel playlist_type rest w w1 settings w2 e :
  String.eqb playlist_type "all" = false →
  flock_acquire svc w = (true, w1) →
  connect svc w1 = (Reply settings, w2) →
  result_of (sync_playlist svc fuel (make_syncer settings) playlist_type w2)
  = Exn e →
  result_of (main svc fuel (playlist_type :: rest) w) = Ret 1%nat
  ∧ last (trace_of (main svc fuel (playlist_type :: rest) w))
    = Some EvReleaseLock.
Proof.
  intros Hall Hlock Hconn Hsync.
  destruct (sync_playlist svc fuel (make_syncer settings) playlist_type w2)
    as [[o w3] t3] eqn:Hrun.
  unfold result_of in Hsync. simpl in Hsync. subst o.
  assert (H1 : acquire_lock svc w = (Ret true, w1, [EvAcquireLock])).
  { unfold acquire_lock. rewrite Hlock. reflexivity. }
  assert (H2 : call EvConnect (connect svc) w1
               = (Ret settings, w2, [EvConnect])).
  { unfold call. rewrite Hconn. reflexivity. }
  assert (H3 : (sync_playlist svc fuel (make_syncer settings) playlist_type ;;;
                ret 0%nat) w2 = (Exn e, w3, t3)).
  { unfold bind. rewrite Hrun. reflexivity. }
  assert (Hmain : main svc fuel (playlist_type :: rest) w
                  = (Ret 1%nat, flock_release svc w3,
                     (EvAcquireLock :: EvConnect :: t3) ++ [EvReleaseLock])).
  { unfold main. rewrite (bind_run _ _ _ _ _ _ H1). cbn [negb].
    unfold try_finally, try_catch.
    rewrite (bind_run _ _ _ _ _ _ H2). cbv zeta. rewrite Hall.
    rewrite H3. unfold release_lock, ret, result_of, world_of, trace_of.
    cbn [fst snd]. rewrite !app_nil_r. reflexivity. }
  rewrite Hmain. split; [reflexivity|]. apply last_snoc.
Qed.

End Fatal.

(** *** The log lines of an undisturbed run *)

(** When every [print] succeeds, the remainder of a sync with its log
    lines runs as the remainder without them. *)

Section SameRuns.

Context {W : Type}.

Lemma same_refl {A} (m : M W A) : same m m.
Proof. intros w. reflexivity. Qed.

Lemma same_bind {A B} (m m' : M W A) (k k' : A → M W B) :
  same m m' → (∀ a, same (k a) (k' a)) → same (bind m k) (bind m' k').
Proof.
  intros Hm Hk w. unfold bind. rewrite Hm.
  destruct (m' w) as [[[a|e|] w1] t1]; try reflexivity.
  rewrite Hk. reflexivity.
Qed.

Lemma same_try_catch {A} (m m' : M W A) (h h' : exn → M W A) :
  same m m' → (∀ e, same (h e) (h' e)) →
  same (try_catch m h) (try_catch m' h').
Proof.
  intros Hm Hh w. unfold try_catch. rewrite Hm.
  destruct (m' w) as [[[a|e|] w1] t1]; try reflexivity.
  rewrite Hh. reflexivity.
Qed.

Lemma same_for_each {A S} (l : list A) (body body' : A → S → M W (next S)) :
  (∀ x s, same (body x s) (body' x s)) →
  ∀ s, same (for_each l body s) (for_each l body' s).
Proof.
  intros Hb. induction l as [|x l IH]; intros s; simpl; [apply same_refl|].
  apply same_bind; [apply Hb|]. intros [s'|s']; [apply IH | apply same_refl].
Qed.

Lemma same_while_loop {S} (cond : S → bool) (body body' : S → M W (next S)) :
  (∀ s, same (body s) (body' s)) →
  ∀ fuel s, same (while_loop fuel cond body s) (while_loop fuel cond body' s).
Proof.
  intros Hb. induction fuel as [|fuel IH]; intros s; simpl;
    [apply same_refl|].
  destruct (cond s); [|apply same_refl].
  apply same_bind; [apply Hb|]. intros [s'|s']; [apply IH | apply same_refl].
Qed.

(** A computation of [None] after which nothing but [ret tt] follows. *)
Lemma same_bind_unit {m m' : M W unit} {k : M W unit} :
  same m m' → same k (ret tt) → same (m ;;; k) m'.
Proof.
  intros Hm Hk w. unfold bind. rewrite Hm.
  destruct (m' w) as [[[[]|e|] w1] t1]; try reflexivity.
  rewrite Hk. unfold ret. rewrite app_nil_r. reflexivity.
Qed.

(** A value handed on as it is. *)
Lemma same_bind_ret {A} (m m' : M W A) (k : A → M W A) :
  same m m' → (∀ a, same (k a) (ret a)) → same (bind m k) m'.
Proof.
  intros Hm Hk w. unfold bind. rewrite Hm.
  destruct (m' w) as [[[a|e|] w1] t1]; try reflexivity.
  rewrite Hk. unfold ret. rewrite app_nil_r. reflexivity.
Qed.

(** A step that does nothing. *)
Lemma same_skip {A} (c : M W unit) (m m' : M W A) :
  same c (ret tt) → same m m' → same (c ;;; m) m'.
Proof.
  intros Hc Hm w. unfold bind. rewrite Hc. unfold ret. rewrite Hm.
  destruct (m' w) as [[o w1] t1]. reflexivity.
Qed.

End SameRuns.

Section Erasure.

Context {W : Type} (svc : Services W).
Context (print : string → W → reply unit * W).
Context (write_tags_body : string → TrackInfo → W → reply unit * W).

Hypothesis print_succeeds : ∀ message w, print message w = (Reply tt, w).
Hypothesis tags_written :
  ∀ file metadata w,
    write_tags_body file metadata w
    = (Reply tt, write_tags svc file metadata w).

Lemma same_log message : same (Logged.log print message) (ret tt).
Proof. intros w. unfold Logged.log. rewrite print_succeeds. reflexivity. Qed.

Lemma same_log_then {A} message (m m' : M W A) :
  same m m' → same (Logged.log print message ;;; m) m'.
Proof.
  intros Hm w. unfold bind, Logged.log. rewrite print_succeeds, Hm.
  destruct (m' w) as [[o w1] t1]. reflexivity.
Qed.

Lemma same_print_exc_then {A} (m m' : M W A) :
  same m m' → same (Logged.print_exc print ;;; m) m'.
Proof. apply same_log_then. Qed.

Ltac same_step :=
  first
    [ apply same_log_then
    | apply same_print_exc_then
    | apply same_log
    | apply same_refl
    | apply same_bind; [|intros ?]
    | apply same_try_catch; [|intros ?]
    | match goal with
      | |- same (match ?x with _ => _ end) (match ?x with _ => _ end) =>
          destruct x
      end ].

Lemma same_search_navidrome_track artist title :
  same (Logged.search_navidrome_track svc print artist title)
    (search_navidrome_track svc artist title).
Proof.
  unfold Logged.search_navidrome_track, search_navidrome_track.
  repeat same_step.
Qed.

Lemma same_search_ytmusic_track artist title :
  same (Logged.search_ytmusic_track svc print artist title)
    (search_ytmusic_track svc artist title).
Proof.
  unfold Logged.search_ytmusic_track, search_ytmusic_track.
  repeat same_step.
Qed.

Lemma same_set_metadata file metadata :
  same (Logged.set_metadata print write_tags_body file metadata)
    (set_metadata svc file metadata).
Proof.
  intros w. unfold Logged.set_metadata, set_metadata, try_catch, call.
  rewrite tags_written. reflexivity.
Qed.

Lemma same_download_track_ytmusic self video_id output_dir metadata :
  same
    (Logged.download_track_ytmusic svc print write_tags_body self video_id
       output_dir metadata)
    (download_track_ytmusic svc self video_id output_dir metadata).
Proof.
  unfold Logged.download_track_ytmusic, download_track_ytmusic.
  apply same_try_catch; [|intros []; repeat same_step].
  cbv zeta. apply same_bind; [apply same_refl|]. intros cookies.
  apply same_skip; [destruct cookies; [apply same_refl | apply same_log]|].
  apply same_bind; [apply same_refl|]. intros returncode.
  destruct (returncode =? 0)%nat; [|apply same_log_then, same_refl].
  apply same_bind; [apply same_refl|]. intros present.
  apply same_bind; [|intros ?; apply same_refl].
  destruct present; [|apply same_refl].
  apply same_bind; [apply same_set_metadata | intros ?; apply same_refl].
Qed.

Lemma same_cleanup_missing_files self :
  same (Logged.cleanup_missing_files svc print self)
    (cleanup_missing_files svc self).
Proof.
  unfold Logged.cleanup_missing_files, cleanup_missing_files.
  apply same_try_catch; [|intros e; apply same_log].
  apply same_bind; [apply same_refl|]. intros pls.
  apply same_for_each. intros playlist []. repeat same_step.
Qed.

Lemma same_get_navidrome_playlist_id name :
  same (Logged.get_navidrome_playlist_id svc print name)
    (get_navidrome_playlist_id svc name).
Proof.
  unfold Logged.get_navidrome_playlist_id, get_navidrome_playlist_id.
  apply same_try_catch; [|intros e; repeat same_step].
  apply same_log_then. apply same_bind; [apply same_refl|]. intros pls.
  destruct (find_playlist name pls) as [[id|]|e]; repeat same_step.
  cbv zeta. intros w. unfold bind, call.
  destruct (createPlaylist svc _ w) as [[playlist_id|e] w1]; [|reflexivity].
  destruct (Text.truthy_opt playlist_id); unfold Logged.log, ret;
    rewrite ?print_succeeds; rewrite ?app_nil_r; reflexivity.
Qed.

Lemma same_update_playlist playlist_id ids :
  same (Logged.update_playlist svc print playlist_id ids)
    (update_playlist svc playlist_id ids).
Proof.
  unfold Logged.update_playlist, update_playlist.
  apply same_try_catch; [|intros e; repeat same_step].
  apply same_log_then. destruct ids; repeat same_step.
Qed.

Lemma same_trigger_scan self directory downloaded :
  same (Logged.trigger_scan svc print self directory downloaded)
    (trigger_scan svc self directory).
Proof.
  unfold Logged.trigger_scan, trigger_scan.
  apply same_try_catch; [|intros []; repeat same_step].
  destruct (relative_to_music directory); repeat same_step.
Qed.

Lemma same_poll_body scan_time :
  same (Logged.poll_body svc print scan_time) (poll_body svc scan_time).
Proof.
  unfold Logged.poll_body, poll_body.
  apply same_bind; [apply same_refl|]. intros ?. cbv zeta.
  apply same_try_catch.
  - apply same_bind; [apply same_refl|]. intros status.
    destruct (negb (scanning status)); [apply same_log_then, same_refl|].
    destruct (_ =? 0)%nat; [apply same_log_then, same_refl|].
    intros w. reflexivity.
  - intros e. destruct (_ =? 0)%nat; [apply same_log_then, same_refl|].
    intros w. reflexivity.
Qed.

Lemma same_first_pass_body track_info st :
  same (Logged.first_pass_body svc print track_info st)
    (first_pass_body svc track_info st).
Proof.
  unfold Logged.first_pass_body, first_pass_body, lookup_song. cbv zeta.
  destruct (negb _ || negb _); [apply same_refl|].
  apply same_try_catch; [|intros e; apply same_log_then, same_refl].
  intros w. unfold bind, call.
  destruct (search3 svc _ 10 w) as [[[|song songs]|e] w1]; try reflexivity.
  - unfold Logged.log, ret. rewrite print_succeeds. reflexivity.
  - destruct (song_id song) as [id|]; simpl;
      [destruct (Text.truthy id)|]; unfold Logged.log, ret;
      rewrite ?print_succeeds; reflexivity.
Qed.

Lemma same_retry_body track_info ids :
  same (Logged.retry_body svc print track_info ids)
    (retry_body svc track_info ids).
Proof.
  unfold Logged.retry_body, retry_body, lookup_song. cbv zeta.
  destruct (negb _ || negb _); [apply same_refl|].
  apply same_try_catch; [|intros e; apply same_log_then, same_refl].
  intros w. unfold bind, call.
  destruct (search3 svc _ 10 w) as [[[|song songs]|e] w1]; try reflexivity.
  destruct (song_id song) as [id|]; simpl; [|reflexivity].
  destruct (Text.truthy id); [|reflexivity].
  unfold try_catch, bind, Logged.log, ret. rewrite print_succeeds.
  reflexivity.
Qed.

Lemma same_resolve_downloaded downloaded :
  same (Logged.resolve_downloaded svc print downloaded)
    (resolve_downloaded svc downloaded).
Proof.
  unfold Logged.resolve_downloaded, resolve_downloaded.
  apply same_log_then. apply same_bind; [apply same_refl|]. intros ?.
  apply same_log_then.
  apply same_bind; [apply same_for_each, same_first_pass_body|]. intros st.
  apply same_bind_ret; [|intros song_ids; apply same_log_then, same_refl].
  destruct (rs_not_found st); [apply same_refl|].
  apply same_log_then. apply same_bind; [apply same_refl|]. intros ?.
  apply same_for_each, same_retry_body.
Qed.

Lemma same_scan fuel self directory downloaded :
  same
    (Logged.scan_and_get_songs_from_directory svc print fuel self directory
       downloaded)
    (scan_and_get_songs_from_directory svc fuel self directory downloaded).
Proof.
  unfold Logged.scan_and_get_songs_from_directory,
    scan_and_get_songs_from_directory.
  apply same_try_catch; [|intros e; repeat same_step].
  destruct downloaded as [|d ds]; [apply same_log_then, same_refl|].
  apply same_bind; [apply same_trigger_scan|]. intros ?.
  apply same_log_then.
  apply same_bind; [|intros ?; apply same_resolve_downloaded].
  apply same_while_loop, same_poll_body.
Qed.

Lemma same_library_reconcile target tracks :
  same (Logged.library_reconcile svc print target tracks)
    (library_reconcile svc target tracks).
Proof.
  apply same_while_loop. intros st.
  unfold Logged.library_body, library_body.
  destruct (tracks !! track_index st); [|apply same_refl]. cbv zeta.
  destruct (negb _ || negb _); [apply same_refl|].
  apply same_log_then.
  apply same_bind; [apply same_search_navidrome_track|]. intros found.
  destruct (Text.truthy_opt found); apply same_log_then, same_refl.
Qed.

Lemma same_reconcile self playlist_dir target tracks :
  same
    (Logged.reconcile svc print write_tags_body self playlist_dir target
       tracks)
    (reconcile svc self playlist_dir target tracks).
Proof.
  apply same_while_loop. intros st.
  unfold Logged.reconcile_body, reconcile_body.
  destruct (tracks !! track_index st); [|apply same_refl]. cbv zeta.
  apply same_log_then.
  apply same_bind; [apply same_search_navidrome_track|]. intros existing.
  destruct (Text.truthy_opt existing); [apply same_log_then, same_refl|].
  apply same_bind; [apply same_search_ytmusic_track|]. intros found.
  apply same_bind; [|intros st'; apply same_refl].
  destruct found as [info|]; [|apply same_log_then, same_refl].
  apply same_bind; [apply same_download_track_ytmusic|].
  intros [|]; apply same_log_then, same_refl.
Qed.

Lemma same_clear_body file n :
  same (Logged.clear_body svc print file n) (clear_body svc file n).
Proof. unfold Logged.clear_body, clear_body. repeat same_step. Qed.

Lemma same_prepare_directory self playlist_dir :
  same (Logged.prepare_directory svc print self playlist_dir)
    (prepare_directory svc self playlist_dir).
Proof.
  unfold Logged.prepare_directory, prepare_directory.
  apply same_bind; [apply same_refl|]. intros [|].
  - apply same_log_then. apply same_bind; [apply same_refl|]. intros files.
    apply same_bind; [apply same_for_each, same_clear_body|]. intros n.
    apply same_log_then. destruct (0 <? n)%nat; [|apply same_refl].
    apply same_bind; [apply same_cleanup_missing_files|]. intros ?.
    apply same_refl.
  - apply same_bind; [apply same_refl|]. intros ?.
    apply same_bind_unit; [apply same_refl | apply same_log].
Qed.

Lemma same_sync_fetched fuel self playlist_type config tracks :
  same
    (Logged.sync_fetched svc print write_tags_body fuel self playlist_type
       config tracks)
    (sync_fetched svc fuel self playlist_type config tracks).
Proof.
  unfold Logged.sync_fetched, sync_fetched.
  apply same_bind; [apply same_get_navidrome_playlist_id|].
  intros playlist_id.
  destruct (negb (Text.truthy_opt playlist_id)); [apply same_log|].
  cbv zeta. apply same_bind.
  - destruct (String.eqb playlist_type "library").
    + apply same_log_then.
      apply same_bind; [apply same_library_reconcile|]. intros st.
      apply same_refl.
    + destruct (cfg_dir config) as [playlist_dir|]; [|apply same_refl].
      apply same_bind; [apply same_prepare_directory|]. intros ?.
      apply same_log_then. apply same_bind; [apply same_refl|]. intros ?.
      apply same_bind; [apply same_reconcile|]. intros st.
      do 2 apply same_log_then.
      destruct (downloaded_tracks st); [apply same_refl|].
      apply same_bind; [apply same_scan|]. intros new. apply same_refl.
  - intros ids. apply same_log_then.
    apply same_bind_unit; [apply same_update_playlist|].
    do 2 apply same_log_then.
    apply same_skip; [destruct (negb _); [apply same_log | apply same_refl]|].
    apply same_log_then, same_log.
Qed.

End Erasure.

(** C4, as the code has it.  Once the fetch has produced candidates, an
    exception that leaves the remainder of [sync_playlist] was raised
    either by a [print] of a log line or by one of the calls that prepare
    the playlist directory (existence test, listing, file test, [mkdir],
    [chmod]): every other exception, of the server requests, the catalog,
    the downloader and the tag writer, is handled where it occurs.  So the
    remainder raises nothing when [print] and those five calls raise
    nothing.  What leaves the preparation of the directory is caught by
    nothing in the sync: it leaves the remainder and [sync_playlist], and
    [main], run for that playlist type, ends with status 1 after it has
    released the lock.  Last, the remainder with its log lines is the
    remainder of the embedding without them whenever [print] succeeds. *)
Theorem sync_errors_come_from_directory_or_print {W : Type}
  (svc : Services W) (print : string → W → reply unit * W)
  (write_tags_body : string → TrackInfo → W → reply unit * W) :
  (∀ settings fuel playlist_type config tracks w e,
     get_playlist_config (make_syncer settings) playlist_type = Some config →
     result_of (Logged.sync_fetched svc print write_tags_body fuel
                  (make_syncer settings) playlist_type config tracks w)
     = Exn e →
     Logged.raised_by_print print e
     ∨ ∃ playlist_dir,
         cfg_dir config = Some playlist_dir
         ∧ Logged.raised_by_directory svc playlist_dir e)
  ∧ (∀ settings fuel playlist_type config tracks,
       get_playlist_config (make_syncer settings) playlist_type = Some config →
       (∀ e, ¬ Logged.raised_by_print print e) →
       (∀ playlist_dir e, ¬ Logged.raised_by_directory svc playlist_dir e) →
       never_raises
         (Logged.sync_fetched svc print write_tags_body fuel
            (make_syncer settings) playlist_type config tracks))
  ∧ (∀ fuel self playlist_type config tracks w playlist_id w1 t1
       playlist_dir e,
       String.eqb playlist_type "library" = false →
       cfg_dir config = Some playlist_dir →
       Logged.get_navidrome_playlist_id svc print (cfg_name config) w
       = (Ret playlist_id, w1, t1) →
       Text.truthy_opt playlist_id = true →
       result_of (Logged.prepare_directory svc print self playlist_dir w1)
       = Exn e →
       result_of (Logged.sync_fetched svc print write_tags_body fuel self
                    playlist_type config tracks w) = Exn e)
  ∧ (∀ fuel self playlist_type config tracks w w1 t1 playlist_id w2 t2
       playlist_dir e,
       get_playlist_config self playlist_type = Some config →
       cfg_enabled config = true →
       fetch_tracks_for_playlist svc self playlist_type config w
       = (Ret tracks, w1, t1) →
       tracks ≠ [] →
       get_navidrome_playlist_id svc (cfg_name config) w1
       = (Ret playlist_id, w2, t2) →
       Text.truthy_opt playlist_id = true →
       String.eqb playlist_type "library" = false →
       cfg_dir config = Some playlist_dir →
       result_of (prepare_directory svc self playlist_dir w2) = Exn e →
       result_of (sync_playlist svc fuel self playlist_type w) = Exn e)
  ∧ (∀ fuel playlist_type rest w w1 settings w2 e,
       String.eqb playlist_type "all" = false →
       flock_acquire svc w = (true, w1) →
       connect svc w1 = (Reply settings, w2) →
       result_of (sync_playlist svc fuel (make_syncer settings)
                    playlist_type w2) = Exn e →
       result_of (main svc fuel (playlist_type :: rest) w) = Ret 1%nat
       ∧ last (trace_of (main svc fuel (playlist_type :: rest) w))
         = Some EvReleaseLock)
  ∧ ((∀ message w, print message w = (Reply tt, w)) →
     (∀ file metadata w,
        write_tags_body file metadata w
        = (Reply tt, write_tags svc file metadata w)) →
     ∀ fuel self playlist_type config tracks w,
       Logged.sync_fetched svc print write_tags_body fuel self playlist_type
         config tracks w
       = sync_fetched svc fuel self playlist_type config tracks w).
Proof.
  assert (Hdir : ∀ settings playlist_type config,
            get_playlist_config (make_syncer settings) playlist_type
            = Some config →
            String.eqb playlist_type "library" = false →
            cfg_dir config ≠ None).
  { intros settings playlist_type config Hcfg Hlib.
    apply String.eqb_neq in Hlib. unfold get_playlist_config in Hcfg.
    destruct (playlists (make_syncer settings) !! playlist_type) as [c|] eqn:Hp.
    - injection Hcfg as <-.
      exact (proj2 (make_syncer_playlists _ _ _ Hp) Hlib).
    - exact (proj2 (make_syncer_listenbrainz _ _ _ Hcfg)). }
  split; [|split; [|split; [|split; [|split]]]].
  - intros settings fuel playlist_type config tracks w e Hcfg.
    apply lets_out_sync_fetched. apply (Hdir settings). exact Hcfg.
  - intros settings fuel playlist_type config tracks Hcfg Hprint Hprep w e H.
    destruct (lets_out_sync_fetched svc print write_tags_body fuel
                (make_syncer settings) playlist_type config tracks
                (Hdir settings playlist_type config Hcfg) w e H)
      as [Hp | (d & _ & Hd)];
      [exact (Hprint e Hp) | exact (Hprep d e Hd)].
  - apply prepare_directory_leaves.
  - apply sync_playlist_raises.
  - apply main_exits_one_on_error.
  - intros Hprint Htags fuel self playlist_type config tracks.
    apply same_sync_fetched; assumption.
Qed.

(** An instance of C4: on [Demo.read_only_disk] the [OSError] of [mkdir]
    leaves the sync of [recommended], and [main] ends with status 1. *)
Lemma sync_errors_come_from_directory_or_print_witness :
  result_of (sync_playlist (Demo.services Demo.read_only_disk) 1
               (make_syncer Demo.settings) "recommended" 2%nat)
  = Exn OSError
  ∧ result_of (main (Demo.services Demo.read_only_disk) 1 ["recommended"]
                 0%nat) = Ret 1%nat.
Proof.
  pose proof (sync_errors_come_from_directory_or_print
                (Demo.services Demo.read_only_disk)
                (fun _ w => (Reply tt, w)) (fun _ _ w => (Reply tt, w)))
    as (_ & _ & _ & Hsync & Hmain & _).
  assert (H : result_of (sync_playlist (Demo.services Demo.read_only_disk) 1
                           (make_syncer Demo.settings) "recommended" 2%nat)
              = Exn OSError).
  { eapply (Hsync 1%nat (make_syncer Demo.settings) "recommended");
      try (vm_compute; reflexivity).
    discriminate. }
  split; [exact H|].
  eapply (Hmain 1%nat "recommended" [] 0%nat 1%nat Demo.settings 2%nat OSError);
    [reflexivity | reflexivity | reflexivity | exact H].
Defined.

(** The other way out: a [print] that fails on the line that announces a
    candidate, which stands outside every [try] block, leaves the
    remainder of the sync. *)
Example print_error_leaves_sync :
  let print (message : string) (w : nat) : reply unit * nat :=
    if String.eqb message
         "\n[{success_count+1}/{target_count}] Attempting: {artist} - {title}"
    then (Raises OSError, w) else (Reply tt, w) in
  let config :=
    {| cfg_enabled := true; cfg_tracks := 1;
       cfg_url := Some (station_url "listener" "recommended");
       cfg_name := "Discover Recommended";
       cfg_dir := Some "/music/navidrofm/recommended";
       cfg_playlist_type := None |} in
  result_of
    (Logged.sync_fetched (Demo.services Demo.full_library) print
       (fun _ _ w => (Reply tt, w)) 1 (make_syncer Demo.settings)
       "recommended" config [Demo.track "Artist" "Song"] 0%nat)
  = Exn OSError.
Proof. vm_compute. reflexivity. Qed.

(** C4, as stated, fails: on a host where the playlist directory cannot be
    created, the fetch gives a candidate, the setup succeeds, and the
    [OSError] of [mkdir] leaves [sync_playlist]; [main] ends with
    status 1. *)
Lemma directory_error_leaves_sync :
  let svc := Demo.services Demo.read_only_disk in
  let self := make_syncer Demo.settings in
  result_of (fetch_lastfm_tracks svc (station_url "listener" "recommended") 1
               2%nat)
  = Ret [Demo.track "Artist" "Song"]
  ∧ result_of (sync_playlist svc 1 self "recommended" 2%nat) = Exn OSError
  ∧ main svc 1 ["recommended"] 0%nat
    = (Ret 1%nat, 9%nat,
       [EvAcquireLock; EvConnect;
        EvStationGet (station_url "listener" "recommended"); EvSleep 1;
        EvStationGet (station_url "listener" "recommended");
        EvGetPlaylists;
        EvExists "/music/navidrofm/recommended";
        EvMkdir "/music/navidrofm/recommended";
        EvReleaseLock])
  ∧ ¬ never_raises (sync_playlist svc 1 self "recommended").
Proof.
  intros svc self.
  assert (H : result_of (sync_playlist svc 1 self "recommended" 2%nat)
              = Exn OSError) by (vm_compute; reflexivity).
  split; [vm_compute; reflexivity|]. split; [exact H|].
  split; [vm_compute; reflexivity|].
  intros Hn. exact (Hn 2%nat OSError H).
Qed.

(** *** Runs on the scripted worlds *)

(** A whole scan on a library that finds nothing: the scoped scan request,
    one poll, the settling delay, the first pass, the retry delay and the
    retry pass. *)
Example scan_finds_nothing :
  scan_and_get_songs_from_directory (Demo.services Demo.empty_library) 1
    (make_syncer Demo.settings) "/music/navidrofm/recommended"
    [Demo.info "Artist" "Song"] 0%nat
  = (Ret [], 7%nat,
     [EvStartScan (Some "1:navidrofm/recommended");
      EvSleep 2; EvGetScanStatus;
      EvSleep 5; EvSearch3 "Artist Song" 10;
      EvSleep 2; EvSearch3 "Artist Song" 10]).
Proof. vm_compute. reflexivity. Qed.

(** A whole sync of [recommended] against a library that already holds
    the candidate: no download, no scan, one playlist update. *)
Example sync_with_full_library :
  trace_of (sync_playlist
              (Demo.services
                 {| Demo.on_station := fun _ => Reply [Demo.track "Artist" "Song"];
                    Demo.on_search3 := fun _ _ => Reply [Demo.song "s1"];
                    Demo.on_catalog := fun _ => Reply [];
                    Demo.on_album := fun _ => Raises RequestException;
                    Demo.on_playlists :=
                      Reply [{| pl_id := Some "p1";
                                pl_name := Some "Discover Recommended" |}];
                    Demo.on_exists := fun _ => Reply true;
                    Demo.on_mkdir := Reply tt;
                    Demo.on_scan_status := fun _ =>
                      Reply {| scanning := false; scan_count := 0 |};
                    Demo.on_connect := Reply Demo.settings |})
              1 (make_syncer Demo.settings) "recommended" 0%nat)
  = [EvStationGet (station_url "listener" "recommended"); EvSleep 1;
     EvStationGet (station_url "listener" "recommended");
     EvGetPlaylists;
     EvExists "/music/navidrofm/recommended";
     EvGlob "/music/navidrofm/recommended";
     EvSleep 2;
     EvSearch3 "Artist Song" 5;
     EvCreatePlaylist (replace_request "p1" ["s1"])].
Proof. vm_compute. reflexivity. Qed.

(* ===================================================================== *)
(** ** Further properties of the code *)
(* ===================================================================== *)

(** *** Normalization and file names *)

Lemma lower_char_idem c : Text.lower_char (Text.lower_char c) = Text.lower_char c.
Proof. destruct c as [[] [] [] [] [] [] [] []]; reflexivity. Qed.

Lemma is_space_lower_char c :
  Text.is_space (Text.lower_char c) = Text.is_space c.
Proof. destruct c as [[] [] [] [] [] [] [] []]; reflexivity. Qed.

Lemma is_word_lower_char c :
  Text.is_word (Text.lower_char c) = Text.is_word c.
Proof. destruct c as [[] [] [] [] [] [] [] []]; reflexivity. Qed.

Lemma chars_text l : Text.chars (Text.text l) = l.
Proof. apply list_ascii_of_string_of_list_ascii. Qed.

Lemma text_chars s : Text.text (Text.chars s) = s.
Proof. apply string_of_list_ascii_of_string. Qed.

Lemma single_spaced_app_r l1 l2 : single_spaced (l1 ++ l2) → single_spaced l2.
Proof.
  induction l1 as [|a l1 IH]; [auto|].
  simpl. destruct (l1 ++ l2) eqn:E; [|intros [_ H]; exact (IH H)].
  destruct l1; [|discriminate]. simpl in E. subst. auto.
Qed.

Lemma single_spaced_app_l l1 l2 : single_spaced (l1 ++ l2) → single_spaced l1.
Proof.
  induction l1 as [|a l1 IH]; [exact (fun _ => I)|].
  destruct l1 as [|b l1]; [exact (fun _ => I)|].
  simpl. intros [H1 H2]. split; [exact H1|]. apply IH. exact H2.
Qed.

Lemma lstrip_split l : ∃ p, l = p ++ Text.lstrip l.
Proof.
  induction l as [|c l [p Hp]]; [exists []; reflexivity|].
  simpl. destruct (Text.is_space c).
  - exists (c :: p). simpl. f_equal. exact Hp.
  - exists []. reflexivity.
Qed.

Lemma lstrip_clean l : starts_clean (Text.lstrip l).
Proof.
  induction l as [|c l IH]; [exact I|].
  simpl. destruct (Text.is_space c) eqn:E; [exact IH | exact E].
Qed.

Lemma lstrip_id l : starts_clean l → Text.lstrip l = l.
Proof. destruct l as [|c l]; [reflexivity|]. simpl. intros ->. reflexivity. Qed.

(** [strip] keeps a middle part of its argument. *)
Lemma strip_split l : ∃ p q, l = p ++ Text.strip l ++ q.
Proof.
  unfold Text.strip.
  destruct (lstrip_split l) as [p Hp].
  destruct (lstrip_split (rev (Text.lstrip l))) as [q Hq].
  exists p, (rev q). rewrite <- rev_app_distr, <- Hq, rev_involutive. exact Hp.
Qed.

Lemma strip_clean l :
  starts_clean (Text.strip l) ∧ starts_clean (rev (Text.strip l)).
Proof.
  unfold Text.strip. rewrite rev_involutive. split; [|apply lstrip_clean].
  destruct (lstrip_split (rev (Text.lstrip l))) as [q Hq].
  pose proof (lstrip_clean l) as Hc.
  assert (E : Text.lstrip l
              = rev (Text.lstrip (rev (Text.lstrip l))) ++ rev q).
  { rewrite <- rev_app_distr, <- Hq, rev_involutive. reflexivity. }
  destruct (rev (Text.lstrip (rev (Text.lstrip l)))) as [|c r]; [exact I|].
  rewrite E in Hc. exact Hc.
Qed.

Lemma strip_id l : starts_clean l → starts_clean (rev l) → Text.strip l = l.
Proof.
  intros H1 H2. unfold Text.strip.
  rewrite (lstrip_id l H1), (lstrip_id (rev l) H2). apply rev_involutive.
Qed.

Lemma collapse_spaces_id l :
  ∀ in_run,
    (in_run = true → starts_clean l) →
    Forall (fun c => Text.is_space c = true → c = " "%char) l →
    single_spaced l →
    Text.collapse_spaces in_run l = l.
Proof.
  induction l as [|c l IH]; intros in_run Hrun Hblank Hsingle; [reflexivity|].
  apply Forall_cons in Hblank as [Hc Hblank]. simpl.
  assert (Hrest : single_spaced l).
  { apply (single_spaced_app_r [c] l). exact Hsingle. }
  destruct (Text.is_space c) eqn:Ec.
  - destruct in_run.
    + specialize (Hrun eq_refl). simpl in Hrun. congruence.
    + f_equal; [symmetry; exact (Hc eq_refl)|].
      apply IH; [|exact Hblank|exact Hrest].
      intros _. destruct l as [|b l]; [exact I|].
      simpl in Hsingle. destruct Hsingle as [Hab _]. simpl.
      destruct (Text.is_space b) eqn:Eb; [|reflexivity].
      destruct Hab. auto.
  - f_equal. apply IH; [discriminate|exact Hblank|exact Hrest].
Qed.

(** What [collapse_spaces] gives on characters that are words or white
    space: blanks for white space, single ones. *)
Lemma collapse_spaces_normal (P : ascii → Prop) l :
  P " "%char →
  Forall P l →
  ∀ in_run,
    Forall (fun c => P c ∧ (Text.is_space c = true → c = " "%char))
      (Text.collapse_spaces in_run l)
    ∧ single_spaced (Text.collapse_spaces in_run l)
    ∧ (in_run = true → starts_clean (Text.collapse_spaces in_run l)).
Proof.
  intros Hblank. induction 1 as [|c l Hc Hl IH]; intros in_run;
    [repeat split; [constructor | discriminate || exact I..]|].
  simpl. destruct (Text.is_space c) eqn:Ec.
  - destruct (IH true) as (Hall & Hsingle & Hstart). specialize (Hstart eq_refl).
    destruct in_run; [auto|].
    split; [constructor; [split; [exact Hblank | reflexivity] | exact Hall]|].
    split; [|discriminate].
    destruct (Text.collapse_spaces true l) as [|b r] eqn:E; [exact I|].
    simpl. split; [|exact Hsingle].
    simpl in Hstart. intros [_ Hb]. congruence.
  - destruct (IH false) as (Hall & Hsingle & _).
    split; [constructor; [split; [exact Hc | congruence] | exact Hall]|].
    split; [|intros _; exact Ec].
    destruct (Text.collapse_spaces false l) as [|b r] eqn:E; [exact I|].
    simpl. split; [|exact Hsingle]. intros [Ha _]. congruence.
Qed.

Lemma Forall_strip (P : ascii → Prop) l : Forall P l → Forall P (Text.strip l).
Proof.
  intros H. destruct (strip_split l) as (p & q & E). rewrite E in H.
  apply Forall_app in H as [_ H]. apply Forall_app in H as [H _]. exact H.
Qed.

Lemma single_spaced_strip l : single_spaced l → single_spaced (Text.strip l).
Proof.
  intros H. destruct (strip_split l) as (p & q & E). rewrite E in H.
  apply single_spaced_app_r in H. apply single_spaced_app_l in H. exact H.
Qed.

Lemma filter_id {A} (f : A → bool) l :
  Forall (fun x => f x = true) l → List.filter f l = l.
Proof.
  induction 1 as [|x l Hx Hl IH]; [reflexivity|].
  simpl. rewrite Hx, IH. reflexivity.
Qed.

(** The characters of a normalized string. *)
Definition normalized_chars (l : list ascii) : list ascii :=
  Text.strip (Text.collapse_spaces false
                (Text.strip_punctuation (map Text.lower_char l))).

Lemma normalize_for_matching_chars s :
  Text.chars (normalize_for_matching s) = normalized_chars (Text.chars s).
Proof.
  unfold normalize_for_matching, normalized_chars, Text.lower.
  rewrite !chars_text. reflexivity.
Qed.

Lemma normalized_chars_normal l : normal_text (normalized_chars l).
Proof.
  unfold normalized_chars.
  set (kept := Text.strip_punctuation (map Text.lower_char l)).
  assert (Hkept : Forall (fun c => Text.lower_char c = c
                                   ∧ (Text.is_word c || Text.is_space c) = true)
                    kept).
  { apply Forall_forall. intros c Hc. apply list_elem_of_In in Hc.
    unfold kept, Text.strip_punctuation in Hc.
    apply filter_In in Hc as [Hin Hok].
    apply in_map_iff in Hin as (c0 & <- & _).
    split; [apply lower_char_idem | exact Hok]. }
  destruct (collapse_spaces_normal _ kept (conj eq_refl eq_refl) Hkept false)
    as (Hall & Hsingle & _).
  destruct (strip_clean (Text.collapse_spaces false kept)) as [Hs He].
  split; [|split; [|split]].
  - apply Forall_strip. eapply Forall_impl; [exact Hall|].
    intros c [[H1 H2] H3]. repeat split; assumption.
  - apply single_spaced_strip. exact Hsingle.
  - exact Hs.
  - exact He.
Qed.

Lemma normalized_chars_fixed l : normal_text l → normalized_chars l = l.
Proof.
  intros (Hall & Hsingle & Hs & He). unfold normalized_chars.
  assert (Hmap : map Text.lower_char l = l).
  { clear -Hall. induction Hall as [|c l [Hc _] _ IH]; [reflexivity|].
    simpl. rewrite Hc, IH. reflexivity. }
  rewrite Hmap. unfold Text.strip_punctuation.
  rewrite filter_id
    by (eapply Forall_impl; [exact Hall | intros c (_ & H & _); exact H]).
  rewrite collapse_spaces_id; [apply strip_id; assumption | discriminate | | exact Hsingle].
  eapply Forall_impl; [exact Hall | intros c (_ & _ & H); exact H].
Qed.

Lemma ascii_text_chars s :
  ascii_text s = true ↔ Forall (fun c => ascii_char c = true) (Text.chars s).
Proof.
  unfold ascii_text. rewrite forallb_forall, Forall_forall.
  split; intros H c Hc; apply H; apply list_elem_of_In; exact Hc.
Qed.

Lemma lower_char_ascii c :
  ascii_char c = true → ascii_char (Text.lower_char c) = true.
Proof. destruct c as [[] [] [] [] [] [] [] []]; vm_compute; congruence. Qed.

Lemma normalized_chars_ascii l :
  Forall (fun c => ascii_char c = true) l →
  Forall (fun c => ascii_char c = true) (normalized_chars l).
Proof.
  intros Hl. unfold normalized_chars. apply Forall_strip.
  set (kept := Text.strip_punctuation (map Text.lower_char l)).
  assert (Hkept : Forall (fun c => ascii_char c = true) kept).
  { apply Forall_forall. intros c Hc. apply list_elem_of_In in Hc.
    unfold kept, Text.strip_punctuation in Hc.
    apply filter_In in Hc as [Hin _].
    apply in_map_iff in Hin as (c0 & <- & Hin).
    apply lower_char_ascii. rewrite Forall_forall in Hl. apply Hl.
    apply list_elem_of_In. exact Hin. }
  destruct (collapse_spaces_normal _ kept eq_refl Hkept false) as (Hall & _).
  eapply Forall_impl; [exact Hall|]. intros c [H _]. exact H.
Qed.

Lemma normalize_for_matching_ascii s :
  ascii_text s = true → ascii_text (normalize_for_matching s) = true.
Proof.
  rewrite !ascii_text_chars, normalize_for_matching_chars.
  apply normalized_chars_ascii.
Qed.

(** X1.  On ASCII text, normalizing gives ASCII text, and normalizing
    twice is normalizing once. *)
Theorem normalize_for_matching_idempotent (s : string) :
  ascii_text s = true →
  ascii_text (normalize_for_matching s) = true
  ∧ normalize_for_matching (normalize_for_matching s)
    = normalize_for_matching s.
Proof.
  intros Hs. split; [apply normalize_for_matching_ascii; exact Hs|].
  rewrite <- (text_chars (normalize_for_matching (normalize_for_matching s))).
  rewrite <- (text_chars (normalize_for_matching s)) at 2.
  f_equal. rewrite !normalize_for_matching_chars.
  apply normalized_chars_fixed, normalized_chars_normal.
Qed.

(** An instance of X1. *)
Lemma normalize_for_matching_idempotent_witness :
  ascii_text (normalize_for_matching "  The  BEATLES!! ") = true
  ∧ normalize_for_matching (normalize_for_matching "  The  BEATLES!! ")
    = normalize_for_matching "  The  BEATLES!! ".
Proof.
  apply (normalize_for_matching_idempotent "  The  BEATLES!! "). reflexivity.
Defined.

(** X2.  The normalized form of an ASCII text is made of ASCII lower-case
    word characters (lower-case letters, digits, underscore) and blanks
    only, its blanks are single, and it neither starts nor ends with
    one. *)
Theorem normalize_for_matching_shape (s : string) :
  ascii_text s = true →
  let l := Text.chars (normalize_for_matching s) in
  Forall (fun c => ascii_char c = true
                   ∧ Text.lower_char c = c
                   ∧ (Text.is_word c = true ∨ c = " "%char)) l
  ∧ single_spaced l
  ∧ starts_clean l
  ∧ starts_clean (rev l).
Proof.
  intros Hascii. cbv zeta. rewrite normalize_for_matching_chars.
  destruct (normalized_chars_normal (Text.chars s)) as (Hall & Hsingle & Hs & He).
  split; [|auto].
  apply ascii_text_chars, normalized_chars_ascii in Hascii.
  rewrite Forall_forall in Hall, Hascii. apply Forall_forall. intros c Hc.
  destruct (Hall c Hc) as (Hlow & Hclass & Hblank).
  split; [exact (Hascii c Hc)|]. split; [exact Hlow|].
  destruct (Text.is_word c); [left; reflexivity|].
  right. apply Hblank. exact Hclass.
Qed.

(** An instance of X2. *)
Lemma normalize_for_matching_shape_witness :
  let l := Text.chars (normalize_for_matching "  The  BEATLES!! ") in
  Forall (fun c => ascii_char c = true
                   ∧ Text.lower_char c = c
                   ∧ (Text.is_word c = true ∨ c = " "%char)) l
  ∧ single_spaced l
  ∧ starts_clean l
  ∧ starts_clean (rev l).
Proof.
  apply (normalize_for_matching_shape "  The  BEATLES!! "). reflexivity.
Defined.

Lemma normalize_for_matching_lower s :
  normalize_for_matching (Text.lower s) = normalize_for_matching s.
Proof.
  unfold normalize_for_matching.
  replace (Text.chars (Text.lower (Text.lower s)))
    with (Text.chars (Text.lower s)); [reflexivity|].
  unfold Text.lower. rewrite !chars_text, map_map.
  apply map_ext. intros c. symmetry. apply lower_char_idem.
Qed.

(** X3.  On ASCII text, matching ignores the letter case of the target:
    an artist and a title written in lower case normalize to the same
    strings, get the same score from every result and select the same
    best match. *)
Theorem matching_ignores_case (artist title : string)
  (results : list SearchResult) :
  ascii_text artist = true →
  ascii_text title = true →
  forallb ascii_result results = true →
  normalize_for_matching (Text.lower artist) = normalize_for_matching artist
  ∧ normalize_for_matching (Text.lower title) = normalize_for_matching title
  ∧ Forall
      (fun r =>
         match_score (normalize_for_matching (Text.lower artist))
           (normalize_for_matching (Text.lower title)) r
         = match_score (normalize_for_matching artist)
             (normalize_for_matching title) r)
      results
  ∧ select_best_match (Text.lower artist) (Text.lower title) results
    = select_best_match artist title results.
Proof.
  intros _ _ _.
  split; [apply normalize_for_matching_lower|].
  split; [apply normalize_for_matching_lower|]. split.
  - apply Forall_forall. intros r _.
    rewrite !normalize_for_matching_lower. reflexivity.
  - unfold select_best_match. rewrite !normalize_for_matching_lower.
    reflexivity.
Qed.

(** An instance of X3: a target in capitals against a catalog of two
    results. *)
Lemma matching_ignores_case_witness :
  select_best_match (Text.lower "ABBA") (Text.lower "Dancing QUEEN")
    [ {| res_videoId := Some "v1"; res_title := Some "Waterloo";
         res_artists := ArtistsList [ArtistDict (Some "ABBA")];
         res_album := None; res_thumbnails := [] |};
      {| res_videoId := Some "v2"; res_title := Some "Dancing Queen";
         res_artists := ArtistsList [ArtistDict (Some "Abba")];
         res_album := None; res_thumbnails := [] |} ]
  = select_best_match "ABBA" "Dancing QUEEN"
      [ {| res_videoId := Some "v1"; res_title := Some "Waterloo";
           res_artists := ArtistsList [ArtistDict (Some "ABBA")];
           res_album := None; res_thumbnails := [] |};
        {| res_videoId := Some "v2"; res_title := Some "Dancing Queen";
           res_artists := ArtistsList [ArtistDict (Some "Abba")];
           res_album := None; res_thumbnails := [] |} ].
Proof.
  apply (matching_ignores_case "ABBA" "Dancing QUEEN"
           [ {| res_videoId := Some "v1"; res_title := Some "Waterloo";
                res_artists := ArtistsList [ArtistDict (Some "ABBA")];
                res_album := None; res_thumbnails := [] |};
             {| res_videoId := Some "v2"; res_title := Some "Dancing Queen";
                res_artists := ArtistsList [ArtistDict (Some "Abba")];
                res_album := None; res_thumbnails := [] |} ]);
    reflexivity.
Defined.

(** X4.  The score of an eligible result says how many of the two fields
    agree exactly after normalization: 4 when both do, 3 when one does,
    2 when neither does. *)
Theorem match_score_levels (norm_artist norm_title : string)
  (r : SearchResult) (s : nat) :
  match_score norm_artist norm_title r = Some s →
  let same_artist :=
    norm_artist = normalize_for_matching (result_artist r) in
  let same_title :=
    norm_title = normalize_for_matching (result_title r) in
  (s = 4%nat ↔ same_artist ∧ same_title)
  ∧ (s = 3%nat ↔ (same_artist ∧ ¬ same_title) ∨ (¬ same_artist ∧ same_title))
  ∧ (s = 2%nat ↔ ¬ same_artist ∧ ¬ same_title).
Proof.
  unfold match_score.
  destruct (contains_either norm_artist _) eqn:Ha; simpl; [|discriminate].
  destruct (contains_either norm_title _) eqn:Ht; simpl; [|discriminate].
  destruct (String.eqb_spec norm_artist
              (normalize_for_matching (result_artist r))) as [Ea|Ea];
    destruct (String.eqb_spec norm_title
                (normalize_for_matching (result_title r))) as [Et|Et];
    intros [= <-]; cbv zeta; repeat split; try tauto; try lia;
    try (intros; exfalso; lia); try (intros H; exfalso; tauto).
Qed.

(** An instance of X4: a result that differs from the target by case and
    punctuation in the title and by a further artist scores 3. *)
Lemma match_score_levels_witness :
  match_score (normalize_for_matching "Artist")
    (normalize_for_matching "Song")
    {| res_videoId := Some "v"; res_title := Some "SONG!";
       res_artists := ArtistsList [ArtistDict (Some "Artist");
                                    ArtistDict (Some "Guest")];
       res_album := None; res_thumbnails := [] |}
  = Some 3%nat
  ∧ normalize_for_matching "Artist" ≠ normalize_for_matching "Artist, Guest".
Proof.
  set (r := {| res_videoId := Some "v"; res_title := Some "SONG!";
               res_artists := ArtistsList [ArtistDict (Some "Artist");
                                            ArtistDict (Some "Guest")];
               res_album := None; res_thumbnails := [] |}).
  assert (E : match_score (normalize_for_matching "Artist")
                (normalize_for_matching "Song") r = Some 3%nat)
    by (vm_compute; reflexivity).
  split; [exact E|].
  pose proof (match_score_levels _ _ r 3%nat E) as H. cbv zeta in H.
  destruct H as (_ & H3 & _).
  destruct (proj1 H3 eq_refl) as [[_ Hn]|[Hn _]].
  - exfalso. apply Hn. vm_compute. reflexivity.
  - exact Hn.
Defined.

(** The characters that [sanitize_filename] removes. *)
Definition invalid_filename_chars : list ascii :=
  Text.chars "<>:" ++ [ascii_of_nat 34] ++ Text.chars "/\|?*".

Lemma sanitize_filename_chars filename :
  Text.chars (sanitize_filename filename)
  = Text.strip (Text.collapse_spaces false
                  (Text.remove_chars invalid_filename_chars
                     (Text.chars filename))).
Proof. unfold sanitize_filename. rewrite chars_text. reflexivity. Qed.

Lemma sanitized_chars l :
  let out := Text.strip (Text.collapse_spaces false
                           (Text.remove_chars invalid_filename_chars l)) in
  Forall (fun c => (c ∉ invalid_filename_chars)
                   ∧ (Text.is_space c = true → c = " "%char)) out
  ∧ single_spaced out ∧ starts_clean out ∧ starts_clean (rev out).
Proof.
  cbv zeta.
  set (kept := Text.remove_chars invalid_filename_chars l).
  assert (Hkept : Forall (fun c => c ∉ invalid_filename_chars) kept).
  { apply Forall_forall. intros c Hc. apply list_elem_of_In in Hc.
    unfold kept, Text.remove_chars in Hc.
    apply filter_In in Hc as [_ Hok]. apply negb_true_iff in Hok.
    intros Hin. apply list_elem_of_In in Hin.
    assert (Ht : existsb (Ascii.eqb c) invalid_filename_chars = true).
    { apply existsb_exists. exists c. split; [exact Hin | apply Ascii.eqb_refl]. }
    congruence. }
  assert (Hblank : " "%char ∉ invalid_filename_chars).
  { intros Hin. apply list_elem_of_In in Hin. vm_compute in Hin.
    repeat (destruct Hin as [Hin|Hin]; [discriminate Hin|]). exact Hin. }
  destruct (collapse_spaces_normal _ kept Hblank Hkept false)
    as (Hall & Hsingle & _).
  destruct (strip_clean (Text.collapse_spaces false kept)) as [Hs He].
  split; [apply Forall_strip; exact Hall|].
  split; [apply single_spaced_strip; exact Hsingle|]. auto.
Qed.

Lemma sanitized_chars_ascii l :
  Forall (fun c => ascii_char c = true) l →
  Forall (fun c => ascii_char c = true)
    (Text.strip (Text.collapse_spaces false
                   (Text.remove_chars invalid_filename_chars l))).
Proof.
  intros Hl. apply Forall_strip.
  set (kept := Text.remove_chars invalid_filename_chars l).
  assert (Hkept : Forall (fun c => ascii_char c = true) kept).
  { apply Forall_forall. intros c Hc. apply list_elem_of_In in Hc.
    unfold kept, Text.remove_chars in Hc.
    apply filter_In in Hc as [Hin _].
    rewrite Forall_forall in Hl. apply Hl. apply list_elem_of_In. exact Hin. }
  destruct (collapse_spaces_normal _ kept eq_refl Hkept false) as (Hall & _).
  eapply Forall_impl; [exact Hall|]. intros c [H _]. exact H.
Qed.

(** X5.  The sanitized form of an ASCII file name is ASCII text that holds
    none of the nine characters that [sanitize_filename] removes (so no
    path separator), its white space is single blanks, none at either end,
    and sanitizing it again changes nothing. *)
Theorem sanitize_filename_safe (filename : string) :
  ascii_text filename = true →
  let l := Text.chars (sanitize_filename filename) in
  ascii_text (sanitize_filename filename) = true
  ∧ Forall (fun c => c ∉ invalid_filename_chars) l
  ∧ Forall (fun c => Text.is_space c = true → c = " "%char) l
  ∧ single_spaced l
  ∧ starts_clean l ∧ starts_clean (rev l)
  ∧ sanitize_filename (sanitize_filename filename) = sanitize_filename filename.
Proof.
  intros Hascii. cbv zeta.
  split.
  { apply ascii_text_chars. rewrite sanitize_filename_chars.
    apply sanitized_chars_ascii, ascii_text_chars. exact Hascii. }
  rewrite sanitize_filename_chars.
  pose proof (sanitized_chars (Text.chars filename)) as H. cbv zeta in H.
  destruct H as (Hall & Hsingle & Hs & He).
  split; [eapply Forall_impl; [exact Hall | intros c [H _]; exact H]|].
  split; [eapply Forall_impl; [exact Hall | intros c [_ H]; exact H]|].
  split; [exact Hsingle|]. split; [exact Hs|]. split; [exact He|].
  rewrite <- (text_chars (sanitize_filename (sanitize_filename filename))).
  rewrite <- (text_chars (sanitize_filename filename)) at 2.
  f_equal. rewrite !sanitize_filename_chars.
  set (out := Text.strip _) in *.
  unfold Text.remove_chars. rewrite filter_id.
  - rewrite collapse_spaces_id; [apply strip_id; assumption | discriminate | | exact Hsingle].
    eapply Forall_impl; [exact Hall | intros c [_ H]; exact H].
  - eapply Forall_impl; [exact Hall|]. intros c [Hc _].
    apply negb_true_iff. apply not_true_is_false. intros Hex.
    apply existsb_exists in Hex as (x & Hx & Heq).
    apply Ascii.eqb_eq in Heq. subst x.
    apply Hc. apply list_elem_of_In. exact Hx.
Qed.

(** An instance of X5. *)
Lemma sanitize_filename_safe_witness :
  sanitize_filename (sanitize_filename "AC/DC -  Back in  Black? ")
  = sanitize_filename "AC/DC -  Back in  Black? ".
Proof.
  apply (sanitize_filename_safe "AC/DC -  Back in  Black? "). reflexivity.
Defined.

(** *** Events and values of computations *)

Section Ensuring.

Context {W : Type}.

Lemma ensures_ret {A} (a : A) (E : Event → Prop) (R : A → Prop) :
  R a → ensures (ret a : M W A) E R.
Proof. intros H w. split; [constructor | exact H]. Qed.

Lemma ensures_raise {A} e (E : Event → Prop) (R : A → Prop) :
  ensures (raise e : M W A) E R.
Proof. intros w. split; [constructor | exact I]. Qed.

Lemma ensures_call {A} ev (op : W → reply A * W) (E : Event → Prop)
  (R : A → Prop) :
  E ev → (∀ w a w1, op w = (Reply a, w1) → R a) → ensures (call ev op) E R.
Proof.
  intros Hev Hop w. unfold call, trace_of, result_of.
  destruct (op w) as [[a|e] w1] eqn:Eop; simpl;
    (split; [repeat constructor; exact Hev|]); [eapply Hop; eauto | exact I].
Qed.

Lemma ensures_bind {A B} (m : M W A) (k : A → M W B) (E : Event → Prop)
  (R : A → Prop) (R' : B → Prop) :
  ensures m E R → (∀ a, R a → ensures (k a) E R') → ensures (bind m k) E R'.
Proof.
  intros Hm Hk w. destruct (Hm w) as [Ht Hr].
  unfold bind, trace_of, result_of in *.
  destruct (m w) as [[[a|e|] w1] t1]; simpl in *; try (split; [exact Ht | exact I]).
  destruct (Hk a Hr w1) as [Ht2 Hr2]. unfold trace_of, result_of in *.
  destruct (k a w1) as [[o w2] t2]. simpl in *.
  split; [apply Forall_app; split; assumption | exact Hr2].
Qed.

Lemma ensures_try_catch {A} (m : M W A) (handler : exn → M W A)
  (E : Event → Prop) (R : A → Prop) :
  ensures m E R → (∀ e, ensures (handler e) E R) →
  ensures (try_catch m handler) E R.
Proof.
  intros Hm Hh w. destruct (Hm w) as [Ht Hr].
  unfold try_catch, trace_of, result_of in *.
  destruct (m w) as [[[a|e|] w1] t1]; simpl in *; try (split; assumption).
  destruct (Hh e w1) as [Ht2 Hr2]. unfold trace_of, result_of in *.
  destruct (handler e w1) as [[o w2] t2]. simpl in *.
  split; [apply Forall_app; split; assumption | exact Hr2].
Qed.

Lemma ensures_weaken {A} (m : M W A) (E E' : Event → Prop) (R R' : A → Prop) :
  ensures m E R → (∀ ev, E ev → E' ev) → (∀ a, R a → R' a) → ensures m E' R'.
Proof.
  intros Hm HE HR w. destruct (Hm w) as [Ht Hr]. split.
  - eapply Forall_impl; eauto.
  - destruct (result_of (m w)); auto.
Qed.

Lemma ensures_for_each {A S} (l : list A) (body : A → S → M W (next S))
  (E : Event → Prop) (Inv : S → Prop) :
  (∀ x s, x ∈ l → Inv s → ensures (body x s) E (fun r => Inv (next_state r))) →
  ∀ s, Inv s → ensures (for_each l body s) E Inv.
Proof.
  induction l as [|x l IH]; intros Hbody s Hs; simpl.
  - apply ensures_ret. exact Hs.
  - eapply ensures_bind; [apply Hbody; [left | exact Hs]|].
    intros [s'|s'] Hr; simpl in Hr.
    + apply IH; [|exact Hr]. intros y s0 Hy. apply Hbody. right. exact Hy.
    + apply ensures_ret. exact Hr.
Qed.

Lemma ensures_while_loop {S} (cond : S → bool) (body : S → M W (next S))
  (E : Event → Prop) (Inv : S → Prop) :
  (∀ s, cond s = true → Inv s →
        ensures (body s) E (fun r => Inv (next_state r))) →
  ∀ fuel s, Inv s → ensures (while_loop fuel cond body s) E Inv.
Proof.
  intros Hbody. induction fuel as [|fuel IH]; intros s Hs; simpl.
  - destruct (cond s); [|apply ensures_ret; exact Hs].
    intros w. split; [constructor | exact I].
  - destruct (cond s) eqn:Hc; [|apply ensures_ret; exact Hs].
    eapply ensures_bind; [apply Hbody; assumption|].
    intros [s'|s'] Hr; simpl in Hr; [apply IH | apply ensures_ret]; exact Hr.
Qed.

End Ensuring.

Section Emitting.

Context {W : Type}.

Lemma emits_ret {A} (a : A) E : emits (ret a : M W A) E.
Proof. apply ensures_ret. exact I. Qed.

Lemma emits_raise {A} e E : emits (raise e : M W A) E.
Proof. apply ensures_raise. Qed.

Lemma emits_call {A} ev (op : W → reply A * W) (E : Event → Prop) :
  E ev → emits (call ev op) E.
Proof. intros H. apply ensures_call; [exact H | intros; exact I]. Qed.

Lemma emits_bind {A B} (m : M W A) (k : A → M W B) E :
  emits m E → (∀ a, emits (k a) E) → emits (bind m k) E.
Proof. intros Hm Hk. eapply ensures_bind; [exact Hm | intros a _; apply Hk]. Qed.

Lemma emits_try_catch {A} (m : M W A) (handler : exn → M W A) E :
  emits m E → (∀ e, emits (handler e) E) → emits (try_catch m handler) E.
Proof. apply ensures_try_catch. Qed.

Lemma emits_for_each {A S} (l : list A) (body : A → S → M W (next S)) E :
  (∀ x s, emits (body x s) E) → ∀ s, emits (for_each l body s) E.
Proof.
  intros Hb s.
  apply (ensures_for_each l body E (fun _ => True)); [|exact I].
  intros x s0 _ _. apply Hb.
Qed.

Lemma emits_while_loop {S} (cond : S → bool) (body : S → M W (next S)) E :
  (∀ s, emits (body s) E) → ∀ fuel s, emits (while_loop fuel cond body s) E.
Proof.
  intros Hb fuel s.
  apply (ensures_while_loop cond body E (fun _ => True)); [|exact I].
  intros s0 _ _. apply Hb.
Qed.

Lemma emits_weaken {A} (m : M W A) (E E' : Event → Prop) :
  emits m E → (∀ ev, E ev → E' ev) → emits m E'.
Proof. intros Hm HE. eapply ensures_weaken; eauto. Qed.

Lemma emits_trace {A} (m : M W A) E w : emits m E → Forall E (trace_of (m w)).
Proof. intros H. exact (proj1 (H w)). Qed.

End Emitting.

Ltac emits_step :=
  first
    [ apply emits_ret
    | apply emits_raise
    | apply emits_call
    | apply emits_bind; [|intros ?]
    | apply emits_try_catch; [|intros ?]
    | match goal with
      | |- emits (match ?x with _ => _ end) _ => destruct x
      end ].

(** *** The fetcher: size and request budget *)

Lemma add_new_tracks_length fetch_count tracks :
  ∀ st,
    (Z.of_nat (length (sc_all_tracks st)) < fetch_count)%Z →
    (Z.of_nat (length (sc_all_tracks (add_new_tracks fetch_count tracks st)))
     ≤ fetch_count)%Z.
Proof.
  induction tracks as [|track tracks IH]; intros st Hlt; simpl; [lia|].
  destruct (negb _ && _ && _); [|apply IH; exact Hlt].
  match goal with |- context [if ?c then _ else _] => destruct c eqn:Hc end.
  - simpl. rewrite length_app. simpl. lia.
  - apply IH. simpl. apply Z.leb_gt in Hc. simpl in Hc. exact Hc.
Qed.

Section FetchBudget.

Context {W : Type} (svc : Services W).

Lemma fetch_body_run url fetch_count st w r w1 t1 :
  fetch_cond fetch_count st = true →
  fetch_body svc url fetch_count st w = (Ret r, w1, t1) →
  (t1 = [EvStationGet url] ∨ t1 = [EvStationGet url; EvSleep 1])
  ∧ attempts (next_state r) = S (attempts st)
  ∧ (Z.of_nat (length (all_tracks (next_state r))) ≤ fetch_count)%Z.
Proof.
  intros Hc. unfold fetch_cond in Hc. apply andb_true_iff in Hc as [Hlen _].
  apply Z.ltb_lt in Hlen.
  unfold fetch_body, try_catch, bind, call, sleep, ret.
  destruct (station_get svc url w) as [[tracks|e] w1']; simpl.
  - destruct tracks as [|t0 ts]; simpl.
    + intros [= <- _ <-]. simpl. repeat split; auto; lia.
    + pose proof (add_new_tracks_length fetch_count (t0 :: ts)
                    {| sc_all_tracks := all_tracks st;
                       sc_seen_ids := seen_ids st;
                       sc_new_tracks := 0 |} Hlen) as Hbound.
      destruct (_ =? 0)%nat; simpl.
      * intros [= <- _ <-]. simpl. repeat split; auto.
      * destruct (_ <? _)%Z; simpl; intros [= <- _ <-]; simpl;
          repeat split; auto.
  - intros [= <- _ <-]. simpl. repeat split; auto; lia.
Qed.

Lemma fetch_loop_budget url fetch_count :
  ∀ fuel st w st' w' t,
    while_loop fuel (fetch_cond fetch_count) (fetch_body svc url fetch_count)
      st w = (Ret st', w', t) →
    Forall (fun ev => ev = EvStationGet url ∨ ev = EvSleep 1) t
    ∧ (length (List.filter is_station_get t) + attempts st = attempts st')%nat
    ∧ (length (List.filter is_sleep t) ≤ length (List.filter is_station_get t))%nat
    ∧ ((attempts st ≤ max_attempts)%nat → (attempts st' ≤ max_attempts)%nat)
    ∧ ((Z.of_nat (length (all_tracks st)) ≤ Z.max 0 fetch_count)%Z →
       (Z.of_nat (length (all_tracks st')) ≤ Z.max 0 fetch_count)%Z).
Proof.
  induction fuel as [|fuel IH]; intros st w st' w' t; simpl.
  - destruct (fetch_cond fetch_count st); [discriminate|].
    intros [= <- _ <-]. simpl. repeat split; auto.
  - destruct (fetch_cond fetch_count st) eqn:Hc;
      [|intros [= <- _ <-]; simpl; repeat split; auto].
    intros Hrun.
    apply bind_inv_ret in Hrun as (r & w1 & t1 & t2 & Hb & Hk & ->).
    destruct (fetch_body_run url fetch_count st w r w1 t1 Hc Hb)
      as (Ht1 & Hatt & Hlen).
    assert (Hmax : (attempts st < max_attempts)%nat).
    { unfold fetch_cond in Hc. apply andb_true_iff in Hc as [_ Hc].
      apply Nat.ltb_lt. exact Hc. }
    assert (Hf1 : Forall (fun ev => ev = EvStationGet url ∨ ev = EvSleep 1) t1)
      by (destruct Ht1 as [-> | ->]; repeat (constructor; [auto|]); constructor).
    destruct r as [s1|s1]; simpl in Hatt, Hlen.
    + destruct (IH s1 w1 st' w' t2 Hk) as (Hall & Hcount & Hsl & Hbudget & Hsize).
      rewrite !List.filter_app, !length_app.
      split; [apply Forall_app; split; assumption|].
      destruct Ht1 as [-> | ->]; simpl; repeat split; try lia.
    + injection Hk as <- _ <-. rewrite app_nil_r.
      split; [exact Hf1|].
      destruct Ht1 as [-> | ->]; simpl; repeat split; try lia.
Qed.

(** X6.  The fetcher returns at most [3 × num_tracks] candidates, and none
    at all, without a single request, when [num_tracks] is not positive. *)
Theorem fetch_lastfm_tracks_size (url : string) (num_tracks : Z) (w : W) :
  (∃ tracks w' t,
     fetch_lastfm_tracks svc url num_tracks w = (Ret tracks, w', t)
     ∧ (Z.of_nat (length tracks) ≤ Z.max 0 (3 * num_tracks))%Z)
  ∧ ((num_tracks ≤ 0)%Z →
     fetch_lastfm_tracks svc url num_tracks w = (Ret [], w, [])).
Proof.
  split.
  - destruct (returns_run _ w (returns_fetch_lastfm_tracks svc url num_tracks))
      as (tracks & w' & t & Hrun).
    exists tracks, w', t. split; [exact Hrun|].
    unfold fetch_lastfm_tracks in Hrun.
    apply bind_inv_ret in Hrun as (st & w1 & t1 & t2 & Hloop & Hret & _).
    injection Hret as <- _ _.
    apply fetch_loop_budget in Hloop as (_ & _ & _ & _ & Hsize).
    unfold backup_multiplier in Hsize. simpl in Hsize.
    replace (3 * num_tracks)%Z with (num_tracks * 3)%Z by lia.
    apply Hsize. lia.
  - intros Hle. unfold fetch_lastfm_tracks, bind, max_attempts.
    cbn [while_loop]. unfold fetch_cond. cbn [all_tracks length].
    replace (Z.of_nat 0 <? num_tracks * backup_multiplier)%Z with false
      by (symmetry; apply Z.ltb_ge; unfold backup_multiplier; lia).
    reflexivity.
Qed.

(** X7.  One call of the fetcher sends at most 20 requests to the feed, and
    besides them only pauses of one second, at most one after each
    request. *)
Theorem fetch_lastfm_tracks_budget (url : string) (num_tracks : Z) (w : W) :
  let t := trace_of (fetch_lastfm_tracks svc url num_tracks w) in
  Forall (fun ev => ev = EvStationGet url ∨ ev = EvSleep 1) t
  ∧ (length (List.filter is_station_get t) ≤ 20)%nat
  ∧ (length (List.filter is_sleep t)
     ≤ length (List.filter is_station_get t))%nat.
Proof.
  cbv zeta.
  destruct (returns_run _ w (returns_fetch_lastfm_tracks svc url num_tracks))
    as (tracks & w' & t & Hrun).
  rewrite Hrun. unfold trace_of. cbn [snd].
  unfold fetch_lastfm_tracks in Hrun.
  apply bind_inv_ret in Hrun as (st & w1 & t1 & t2 & Hloop & Hret & ->).
  injection Hret as _ _ <-. rewrite app_nil_r.
  apply fetch_loop_budget in Hloop as (Hall & Hcount & Hsl & Hbudget & _).
  simpl in Hcount, Hbudget. unfold max_attempts in Hbudget.
  split; [exact Hall|]. split; [|exact Hsl]. lia.
Qed.

End FetchBudget.

(** *** What the catalog search returns *)

Lemma locate_track_number_bounds video_id norm_title tracks :
  ∀ idx d,
    let n := locate_track_number video_id norm_title idx tracks d in
    n = d ∨ (idx ≤ n < idx + length tracks)%nat.
Proof.
  induction tracks as [|t tracks IH]; intros idx d; simpl; [auto|].
  destruct (String.eqb _ video_id); [right; lia|].
  destruct (String.eqb _ norm_title); [right; lia|].
  destruct (IH (S idx) d) as [H|H]; [auto | right; lia].
Qed.

Lemma album_track_number_range video_id title tracks :
  (1 ≤ album_track_number video_id title tracks ≤ Nat.max 1 (length tracks))%nat.
Proof.
  unfold album_track_number.
  destruct (locate_track_number_bounds video_id (normalize_for_matching title)
              tracks 1 1) as [H|H]; cbv zeta in H; lia.
Qed.

(** X8.  The track number found in an album lies between 1 and the number
    of tracks of the album (1 for an album without tracks). *)
Theorem album_track_number_bounds (video_id title : string)
  (tracks : list AlbumTrack) :
  (1 ≤ album_track_number video_id title tracks)%nat
  ∧ (album_track_number video_id title tracks ≤ Nat.max 1 (length tracks))%nat.
Proof. exact (album_track_number_range video_id title tracks). Qed.

Lemma starts_with_app p l l' :
  Text.starts_with p l = true → Text.starts_with p (l ++ l') = true.
Proof.
  revert l. induction p as [|x p IH]; intros [|y l]; simpl; try discriminate;
    auto.
  intros [Hxy Hp]%andb_true_iff. rewrite Hxy. simpl. apply IH. exact Hp.
Qed.

Lemma before_first_split sep l : ∃ q, l = Text.before_first sep l ++ q.
Proof.
  induction l as [|c l [q Hq]]; [exists []; reflexivity|].
  simpl. destruct (Text.starts_with sep (c :: l)).
  - exists (c :: l). reflexivity.
  - exists q. simpl. f_equal. exact Hq.
Qed.

Lemma before_first_free sep l :
  sep ≠ [] → Text.occurs_in sep (Text.before_first sep l) = false.
Proof.
  intros Hsep. destruct sep as [|x sep]; [congruence|].
  induction l as [|c l IH]; [reflexivity|].
  cbn [Text.before_first].
  destruct (Text.starts_with (x :: sep) (c :: l)) eqn:Hs; [reflexivity|].
  cbn [Text.occurs_in]. rewrite IH, orb_false_r.
  destruct (Text.starts_with (x :: sep) (c :: Text.before_first (x :: sep) l))
    eqn:Hp; [|reflexivity].
  destruct (before_first_split (x :: sep) l) as [q Hq].
  apply (starts_with_app _ _ q) in Hp. simpl app in Hp.
  rewrite <- Hq in Hp. congruence.
Qed.

(** X9.  The cover address handed to the tag writer never contains the
    size suffix marker [=w], and it is the beginning of the address of the
    last thumbnail. *)
Theorem cover_url_of_cut (thumbnails : list (option string)) (url : string) :
  cover_url_of thumbnails = Some url →
  Text.str_in "=w" url = false
  ∧ ∃ last_url rest,
      last thumbnails = Some last_url
      ∧ Text.chars (get_or last_url "") = Text.chars url ++ rest.
Proof.
  unfold cover_url_of. destruct (last thumbnails) as [last_url|]; [|discriminate].
  destruct (Text.truthy (get_or last_url "")) eqn:Ht; simpl.
  - destruct (Text.str_in "=w" (get_or last_url "")) eqn:Hin; intros [= <-].
    + split.
      * unfold Text.str_in. rewrite chars_text.
        apply before_first_free. discriminate.
      * destruct (before_first_split (Text.chars "=w")
                    (Text.chars (get_or last_url ""))) as [q Hq].
        exists last_url, q. split; [reflexivity|].
        rewrite chars_text. exact Hq.
    + split; [exact Hin|]. exists last_url, [].
      rewrite app_nil_r. split; reflexivity.
  - intros [= <-]. split.
    + destruct (get_or last_url ""); [reflexivity | discriminate].
    + exists last_url, []. rewrite app_nil_r. split; reflexivity.
Qed.

(** An instance of X9: the size suffix of a thumbnail address is cut. *)
Lemma cover_url_of_cut_witness :
  cover_url_of [Some "https://img/a=w60-h60"; Some "https://img/b=w544-h544"]
  = Some "https://img/b"
  ∧ Text.str_in "=w" "https://img/b" = false.
Proof.
  assert (E : cover_url_of [Some "https://img/a=w60-h60";
                            Some "https://img/b=w544-h544"]
              = Some "https://img/b") by (vm_compute; reflexivity).
  split; [exact E|].
  exact (proj1 (cover_url_of_cut _ _ E)).
Defined.

Section CatalogSearch.

Context {W : Type} (svc : Services W).

Lemma ensures_run {A} (m : M W A) E R w a w' t :
  ensures m E R → m w = (Ret a, w', t) → R a ∧ Forall E t.
Proof.
  intros H Hrun. destruct (H w) as [Ht Hr].
  unfold trace_of, result_of in *. rewrite Hrun in *. auto.
Qed.

Lemma call_inv {A} ev (op : W → reply A * W) w a w1 t :
  call ev op w = (Ret a, w1, t) → op w = (Reply a, w1) ∧ t = [ev].
Proof.
  unfold call. destruct (op w) as [[x|e] w2]; [|discriminate].
  intros [= -> -> <-]. auto.
Qed.

Lemma accepted_match_some b r :
  accepted_match b = Some r → ∃ s, b = (Some r, s) ∧ (2 ≤ s)%nat.
Proof.
  destruct b as [[r0|] s]; simpl; [|discriminate].
  destruct (s <? 2)%nat eqn:E; [discriminate|].
  intros [= ->]. exists s. apply Nat.ltb_ge in E. auto.
Qed.

(** X10.  A track returned by [search_ytmusic_track] stems from one of the
    results the catalog gave for the query, an eligible one with a
    non-empty [videoId]; the address of the track is built from that id,
    its title is the result's (the searched title when the result has
    none), its artist is not empty when the searched artist is not, and its
    track number is at least 1. *)
Theorem search_ytmusic_track_sound (artist title : string) (w : W)
  (info : TrackInfo) :
  result_of (search_ytmusic_track svc artist title w) = Ret (Some info) →
  ∃ results w1 r s,
    catalog_search svc (artist +:+ " " +:+ title) w = (Reply results, w1)
    ∧ r ∈ results
    ∧ match_score (normalize_for_matching artist)
        (normalize_for_matching title) r = Some s
    ∧ (2 ≤ s)%nat
    ∧ res_videoId r = Some (info_video_id info)
    ∧ info_video_id info ≠ ""
    ∧ info_url info
      = "https://music.youtube.com/watch?v=" +:+ info_video_id info
    ∧ info_title info = get_or (res_title r) title
    ∧ (artist ≠ "" → info_artist info ≠ "")
    ∧ (1 ≤ info_track_number info)%nat.
Proof.
  unfold search_ytmusic_track. intros H.
  apply try_catch_result_inv in H as [H|[Hn _]]; [|discriminate Hn].
  apply bind_result_inv in H as (results & w1 & t1 & Hcall & H).
  apply call_inv in Hcall as [Hsearch _].
  destruct results as [|r0 rs]; [discriminate H|].
  destruct (accepted_match (select_best_match artist title (r0 :: rs)))
    as [r|] eqn:Hacc; [|discriminate H].
  apply accepted_match_some in Hacc as (s & Hsel & Hs).
  pose proof (select_best_match_spec artist title (r0 :: rs)) as Hbest.
  rewrite Hsel in Hbest. simpl in Hbest. destruct Hbest as (i & Hi & Hscore & _).
  destruct (res_videoId r) as [video_id|] eqn:Hvid; [|discriminate H].
  destruct (Text.truthy video_id) eqn:Htruthy; simpl in H; [|discriminate H].
  apply bind_result_inv in H as ([[album_name year] track_number]
                                  & w2 & t2 & Henrich & H).
  assert (Hnum : (1 ≤ track_number)%nat).
  { assert (Hens : ∀ name,
              ensures
                (if Text.truthy_opt
                      match res_album r with
                      | Some album_info => album_ref_id album_info
                      | None => None
                      end
                 then
                   try_catch
                     (album_details <-
                        call (EvCatalogAlbum
                                (get_or match res_album r with
                                        | Some album_info => album_ref_id album_info
                                        | None => None
                                        end ""))
                          (catalog_get_album svc
                             (get_or match res_album r with
                                     | Some album_info => album_ref_id album_info
                                     | None => None
                                     end "")) ;;
                      ret (album_enrichment video_id title album_details name))
                     (fun _ => ret (name, "", 1%nat))
                 else ret (name, "", 1%nat))
                (fun _ => True) (fun e => (1 ≤ e.2)%nat)).
    { intros name. destruct (Text.truthy_opt _).
      - apply ensures_try_catch; [|intros e; apply ensures_ret; simpl; lia].
        eapply ensures_bind; [apply emits_call; exact I|].
        intros details _. apply ensures_ret. unfold album_enrichment. simpl.
        apply album_track_number_range.
      - apply ensures_ret. simpl. lia. }
    destruct (ensures_run _ _ _ _ _ _ _ (Hens _) Henrich) as [Hr _].
    exact Hr. }
  injection H as <-. cbn [info_video_id info_url info_title info_artist
                            info_track_number].
  exists (r0 :: rs), w1, r, s.
  split; [exact Hsearch|]. split; [eapply list_elem_of_lookup_2; eauto|].
  split; [exact Hscore|]. split; [exact Hs|]. split; [exact Hvid|].
  split; [apply truthy_nonempty; exact Htruthy|]. split; [reflexivity|].
  split; [reflexivity|]. split; [|exact Hnum].
  intros Hartist.
  match goal with
  | |- (if Text.truthy ?x then _ else _) ≠ _ =>
      destruct (Text.truthy x) eqn:Hx
  end; [apply truthy_nonempty; exact Hx | exact Hartist].
Qed.

End CatalogSearch.

(** An instance of X10: the track found on [Demo.reissue_catalog]. *)
Lemma search_ytmusic_track_sound_witness :
  ∃ results w1 r,
    catalog_search (Demo.services Demo.reissue_catalog) "Artist Song" 0%nat
    = (Reply results, w1)
    ∧ r ∈ results ∧ res_videoId r = Some "vid".
Proof.
  destruct (search_ytmusic_track_sound (Demo.services Demo.reissue_catalog)
              "Artist" "Song" 0%nat
              {| info_video_id := "vid"; info_title := "Song";
                 info_artist := "Artist"; info_album := "Album";
                 info_year := "1999"; info_track_number := 1;
                 info_cover_url := None;
                 info_url := "https://music.youtube.com/watch?v=vid" |})
    as (results & w1 & r & s & Hc & Hin & _ & _ & Hv & _).
  - vm_compute. reflexivity.
  - exists results, w1, r. auto.
Defined.

(** *** The kinds of calls each method makes *)

Lemma only_weaken ks ks' ev :
  (∀ k, existsb (kind_eqb k) ks = true → existsb (kind_eqb k) ks' = true) →
  only ks ev → only ks' ev.
Proof. intros H. apply H. Qed.

Ltac kinds_included :=
  let k := fresh "k" in intros k; destruct k; vm_compute; congruence.

Ltac only_step :=
  first
    [ apply emits_ret
    | apply emits_raise
    | apply emits_call; reflexivity
    | apply emits_bind; [|intros ?]
    | apply emits_try_catch; [|intros ?]
    | match goal with
      | |- emits (match ?x with _ => _ end) _ => destruct x
      end ].

Section Kinds.

Context {W : Type} (svc : Services W).

Lemma emits_sleep n ks : only ks (EvSleep n) → emits (sleep svc n) (only ks).
Proof. intros H w. split; [repeat constructor; exact H | exact I]. Qed.

Lemma emits_set_metadata file metadata ks :
  only ks (EvSetMetadata file) →
  emits (set_metadata svc file metadata) (only ks).
Proof. intros H w. split; [repeat constructor; exact H | exact I]. Qed.

Lemma kinds_fetch_lastfm_tracks url num_tracks :
  emits (fetch_lastfm_tracks svc url num_tracks) (only [KFeed; KSleep]).
Proof.
  unfold fetch_lastfm_tracks.
  apply emits_bind; [|intros st; apply emits_ret].
  apply emits_while_loop. intros st. unfold fetch_body.
  repeat first [ only_step | apply emits_sleep; reflexivity ].
Qed.

Lemma kinds_fetch_tracks_for_playlist self playlist_type config :
  emits (fetch_tracks_for_playlist svc self playlist_type config)
    (only [KFeed; KSleep]).
Proof.
  unfold fetch_tracks_for_playlist.
  destruct (bool_decide _).
  - destruct (cfg_url config); [apply kinds_fetch_lastfm_tracks | apply emits_raise].
  - destruct (bool_decide _); [|apply emits_ret].
    destruct (cfg_playlist_type config) as [kind|]; [|apply emits_raise].
    apply emits_bind.
    + unfold fetch_listenbrainz_playlist_id.
      destruct (negb _); [apply emits_ret|].
      intros w. unfold trace_of, result_of.
      destruct (listenbrainz_playlists_get svc kind w) as [r w1]. simpl.
      split; [repeat constructor | exact I].
    + intros [id|]; [|apply emits_ret].
      destruct (Text.truthy id); [|apply emits_ret].
      unfold fetch_listenbrainz_tracks. repeat only_step.
Qed.

Lemma kinds_search_navidrome_track artist title :
  emits (search_navidrome_track svc artist title) (only [KSearch]).
Proof. unfold search_navidrome_track. repeat only_step. Qed.

Lemma kinds_search_ytmusic_track artist title :
  emits (search_ytmusic_track svc artist title) (only [KCatalog]).
Proof. unfold search_ytmusic_track. repeat only_step. Qed.

Lemma kinds_download_track_ytmusic self video_id output_dir metadata :
  emits (download_track_ytmusic svc self video_id output_dir metadata)
    (only [KStat; KDownload; KChmod]).
Proof.
  unfold download_track_ytmusic.
  repeat first [ only_step | apply emits_set_metadata; reflexivity ].
Qed.

Lemma kinds_get_navidrome_playlist_id name :
  emits (get_navidrome_playlist_id svc name)
    (only [KPlaylistRead; KPlaylistWrite]).
Proof. unfold get_navidrome_playlist_id. repeat only_step. Qed.

Lemma kinds_update_playlist playlist_id ids :
  emits (update_playlist svc playlist_id ids) (only [KPlaylistWrite]).
Proof. unfold update_playlist. repeat only_step. Qed.

Lemma kinds_cleanup_missing_files self :
  emits (cleanup_missing_files svc self)
    (only [KPlaylistRead; KPlaylistWrite]).
Proof.
  unfold cleanup_missing_files.
  apply emits_try_catch; [|intros e; apply emits_ret].
  apply emits_bind; [apply emits_call; reflexivity|]. intros pls.
  apply emits_for_each. intros playlist []. repeat only_step.
Qed.

Lemma kinds_library_reconcile target tracks :
  emits (library_reconcile svc target tracks) (only [KSearch]).
Proof.
  apply emits_while_loop. intros st. unfold library_body.
  destruct (tracks !! track_index st); [|apply emits_raise].
  destruct (negb _ || negb _); [apply emits_ret|].
  apply emits_bind; [apply kinds_search_navidrome_track|].
  intros found. destruct (Text.truthy_opt found); apply emits_ret.
Qed.

Lemma kinds_reconcile self playlist_dir target tracks :
  emits (reconcile svc self playlist_dir target tracks)
    (only [KSearch; KCatalog; KStat; KDownload; KChmod; KSleep]).
Proof.
  apply emits_while_loop. intros st. unfold reconcile_body.
  destruct (tracks !! track_index st) as [track|]; [|apply emits_raise].
  apply emits_bind.
  { eapply emits_weaken; [apply kinds_search_navidrome_track|].
    intros ev. apply only_weaken. kinds_included. }
  intros existing. destruct (Text.truthy_opt existing); [apply emits_ret|].
  apply emits_bind.
  { eapply emits_weaken; [apply kinds_search_ytmusic_track|].
    intros ev. apply only_weaken. kinds_included. }
  intros found. apply emits_bind.
  - destruct found as [info|]; [|apply emits_ret].
    apply emits_bind.
    + eapply emits_weaken; [apply kinds_download_track_ytmusic|].
      intros ev. apply only_weaken. kinds_included.
    + intros [|]; apply emits_ret.
  - intros st'. apply emits_bind; [apply emits_sleep; reflexivity|].
    intros _. apply emits_ret.
Qed.

Lemma kinds_scan fuel self directory downloaded :
  emits (scan_and_get_songs_from_directory svc fuel self directory downloaded)
    (only [KScan; KSleep; KSearch]).
Proof.
  unfold scan_and_get_songs_from_directory.
  apply emits_try_catch; [|intros e; apply emits_ret].
  destruct downloaded as [|d ds]; [apply emits_ret|].
  apply emits_bind; [unfold trigger_scan; repeat only_step|]. intros _.
  apply emits_bind.
  { unfold wait_for_scan. apply emits_while_loop. intros n. unfold poll_body.
    repeat first [ only_step | apply emits_sleep; reflexivity ]. }
  intros _. unfold resolve_downloaded.
  apply emits_bind; [apply emits_sleep; reflexivity|]. intros _.
  apply emits_bind.
  { apply emits_for_each. intros ti st. unfold first_pass_body, lookup_song.
    repeat only_step. }
  intros st. destruct (rs_not_found st); [apply emits_ret|].
  apply emits_bind; [apply emits_sleep; reflexivity|]. intros _.
  apply emits_for_each. intros ti ids. unfold retry_body, lookup_song.
  repeat only_step.
Qed.

Lemma kinds_prepare_directory self playlist_dir :
  emits (prepare_directory svc self playlist_dir)
    (only [KStat; KDelete; KMkdir; KChmod; KPlaylistRead; KPlaylistWrite;
           KSleep]).
Proof.
  unfold prepare_directory.
  apply emits_bind; [apply emits_call; reflexivity|]. intros [|].
  - apply emits_bind; [apply emits_call; reflexivity|]. intros files.
    apply emits_bind.
    + apply emits_for_each. intros f n. unfold clear_body. repeat only_step.
    + intros n. destruct (0 <? n)%nat; [|apply emits_ret].
      apply emits_bind; [|intros _; apply emits_sleep; reflexivity].
      eapply emits_weaken; [apply kinds_cleanup_missing_files|].
      intros ev. apply only_weaken. kinds_included.
  - repeat only_step.
Qed.

End Kinds.

(** *** Download of one track *)

Section Downloading.

Context {W : Type} (svc : Services W).


End Downloading.

(** *** Accounting of the reconciliation loops *)

Section Accounting.

Context {W : Type} (svc : Services W).

Lemma reconcile_body_accounted self playlist_dir tracks st w r w' t :
  accounted st →
  reconcile_body svc self playlist_dir tracks st w = (Ret r, w', t) →
  accounted (next_state r).
Proof.
  intros [Hsk Hsc]. unfold reconcile_body.
  destruct (tracks !! track_index st) as [track|]; [|discriminate].
  unfold bind, sleep, ret.
  destruct (search_navidrome_track svc _ _ w) as [[[existing|e|] w1] t1];
    try discriminate.
  destruct (Text.truthy_opt existing).
  - intros [= <- _ _]. unfold accounted. simpl. rewrite length_app. simpl.
    split; lia.
  - destruct (search_ytmusic_track svc _ _ w1) as [[[found|e|] w2] t2];
      try discriminate.
    destruct found as [info|].
    + destruct (download_track_ytmusic svc self _ _ _ w2)
        as [[[downloaded|e|] w3] t3]; try discriminate.
      destruct downloaded; intros [= <- _ _]; unfold accounted; simpl;
        rewrite ?length_app; simpl; split; lia.
    + intros [= <- _ _]. unfold accounted. simpl. split; lia.
Qed.

(** The final state of the reconciliation loop. *)
Lemma reconcile_final self playlist_dir target tracks w :
  ∃ st w' t,
    reconcile svc self playlist_dir target tracks w = (Ret st, w', t)
    ∧ accounted st
    ∧ (success_count st ≤ Z.max 0 target)%Z.
Proof.
  destruct (reconcile_terminates svc self playlist_dir target tracks w)
    as (st & w' & t & Hrun & _ & _ & _ & Hbound).
  exists st, w', t. split; [exact Hrun|]. split; [|lia].
  unfold reconcile in Hrun.
  apply (while_loop_inv accounted (sync_cond target tracks)
           (reconcile_body svc self playlist_dir tracks)) in Hrun;
    [exact Hrun| |split; reflexivity].
  intros s w0 r w1 t1 Hs _ Hb.
  pose proof (reconcile_body_accounted _ _ _ _ _ _ _ _ Hs Hb) as H.
  destruct r; exact H.
Qed.

(** X12.  The reconciliation loop keeps its books: at its end the number
    of tracks found in the library is the number of recorded identifiers,
    the success count is the number of recorded identifiers plus the number
    of downloaded tracks, and it does not exceed the target.  Its calls are
    searches, catalog lookups, downloads and pauses: it deletes no file,
    writes no playlist and starts no scan. *)
Theorem reconcile_accounting (self : Syncer) (playlist_dir : string)
  (target : Z) (tracks : list Track) (w : W) :
  ∃ st w' t,
    reconcile svc self playlist_dir target tracks w = (Ret st, w', t)
    ∧ skipped_count st = length (song_ids st)
    ∧ success_count st
      = Z.of_nat (length (song_ids st) + length (downloaded_tracks st))
    ∧ (Z.of_nat (length (song_ids st) + length (downloaded_tracks st))
       ≤ Z.max 0 target)%Z
    ∧ Forall (only [KSearch; KCatalog; KStat; KDownload; KChmod; KSleep]) t.
Proof.
  destruct (reconcile_final self playlist_dir target tracks w)
    as (st & w' & t & Hrun & [Hsk Hsc] & Hbound).
  exists st, w', t. split; [exact Hrun|].
  split; [exact Hsk|]. split; [exact Hsc|]. split; [lia|].
  pose proof (emits_trace _ _ w
                (kinds_reconcile svc self playlist_dir target tracks)) as Ht.
  rewrite Hrun in Ht. exact Ht.
Qed.

Lemma library_body_accounted target tracks st w r w' t :
  sync_cond target tracks st = true →
  library_accounted target st →
  library_body svc tracks st w = (Ret r, w', t) →
  library_accounted target (next_state r).
Proof.
  intros Hc (Hsc & Hd & Hb). unfold sync_cond in Hc.
  apply andb_true_iff in Hc as [Hc _]. apply Z.ltb_lt in Hc.
  unfold library_body.
  destruct (tracks !! track_index st) as [track|]; [|discriminate].
  destruct (negb _ || negb _).
  - intros [= <- _ _]. unfold library_accounted. simpl. auto.
  - unfold bind, ret.
    destruct (search_navidrome_track svc _ _ w) as [[[found|e|] w1] t1];
      try discriminate.
    destruct (Text.truthy_opt found); intros [= <- _ _];
      unfold library_accounted; simpl; rewrite ?length_app; simpl;
      repeat split; try lia; exact Hd.
Qed.

Lemma library_reconcile_accounted target tracks w st w' t :
  library_reconcile svc target tracks w = (Ret st, w', t) →
  library_accounted target st.
Proof.
  unfold library_reconcile. intros Hrun.
  apply (while_loop_inv (library_accounted target) (sync_cond target tracks)
           (library_body svc tracks)) in Hrun;
    [exact Hrun| |unfold library_accounted; simpl; repeat split; lia].
  intros s w0 r w1 t1 Hs Hc Hb.
  pose proof (library_body_accounted _ _ _ _ _ _ _ Hc Hs Hb) as H.
  destruct r; exact H.
Qed.

End Accounting.

(** *** What a sync may do *)

Lemma ensures_of_emits {W A} (m : M W A) E (R : A → Prop) :
  emits m E → (∀ w a w' t, m w = (Ret a, w', t) → R a) → ensures m E R.
Proof.
  intros He Hr w. split; [exact (proj1 (He w))|].
  unfold result_of. destruct (m w) as [[[a|e|] w'] t] eqn:Hm; simpl;
    try exact I.
  eapply Hr; eauto.
Qed.

Lemma found_ids_length rs : (length (found_ids rs) ≤ length rs)%nat.
Proof.
  unfold found_ids. induction rs as [|[x|] rs IH]; cbn; [lia| |];
    change (list_omap _ _ id rs) with (omap id rs); lia.
Qed.

Lemma pass_length l :
  ∀ rs, length rs = length l →
        (length (found_ids rs) + length (not_found_of l rs) ≤ length l)%nat.
Proof.
  unfold found_ids.
  induction l as [|track_info l IH]; intros [|r rs]; simpl; try lia.
  intros [= Hlen]. specialize (IH rs Hlen).
  change (list_omap _ _ id rs) with (omap id rs).
  destruct r as [x|]; simpl.
  - rewrite andb_false_r. lia.
  - destruct (searchable track_info && _); simpl; lia.
Qed.

Ltac sync_event_step :=
  first
    [ apply emits_ret
    | apply emits_raise
    | apply emits_call; simpl; first [exact I | lia]
    | apply emits_bind; [|intros ?]
    | apply emits_try_catch; [|intros ?]
    | match goal with
      | |- emits (match ?x with _ => _ end) _ => destruct x
      end ].

Section SyncEvents.

Context {W : Type} (svc : Services W).

Lemma resolve_downloaded_length downloaded w ids w' t :
  resolve_downloaded svc downloaded w = (Ret ids, w', t) →
  (length ids ≤ length downloaded)%nat.
Proof.
  intros Hrun.
  destruct (resolve_downloaded_spec svc downloaded w)
    as (first & w1 & second & w2 & H1 & H2 & H3).
  assert (ids = found_ids first ++ found_ids second) as -> by congruence.
  destruct (passes_spec svc downloaded
              (clock_sleep svc (settle_wait downloaded) w))
    as (rs & w1' & Ha & Hlen & _).
  assert (rs = first) as -> by congruence.
  rewrite length_app.
  pose proof (pass_length downloaded first Hlen).
  pose proof (found_ids_length second).
  destruct (passes_spec svc (not_found_of downloaded first)
              (match not_found_of downloaded first with
               | [] => w1
               | _ :: _ =>
                   clock_sleep svc
                     (retry_wait (not_found_of downloaded first)) w1
               end))
    as (rs2 & w2' & Ha2 & Hlen2 & _).
  assert (rs2 = second) as -> by congruence.
  lia.
Qed.

Lemma ensures_scan fuel self directory downloaded :
  ensures
    (scan_and_get_songs_from_directory svc fuel self directory downloaded)
    (only [KScan; KSleep; KSearch])
    (fun ids => (length ids ≤ length downloaded)%nat).
Proof.
  apply ensures_of_emits; [apply kinds_scan|].
  intros w ids w' t. unfold scan_and_get_songs_from_directory, try_catch.
  destruct downloaded as [|d ds].
  - unfold ret. intros [= <- _ _]. simpl. lia.
  - match goal with
    | |- context [match ?m w with _ => _ end] =>
        destruct (m w) as [[[x|e|] w1] t1] eqn:Hm
    end; try discriminate.
    + intros [= <- _ _].
      apply bind_inv_ret in Hm as (? & w2 & t2 & t3 & _ & Hm & _).
      apply bind_inv_ret in Hm as (? & w3 & t4 & t5 & _ & Hm & _).
      eapply resolve_downloaded_length. exact Hm.
    + unfold ret. intros [= <- _ _]. simpl. lia.
Qed.

Lemma sync_event_of_kinds dir limit ev :
  only [KFeed; KSleep; KPlaylistRead; KSearch; KScan; KCatalog; KDownload;
        KStat; KChmod] ev →
  sync_event svc dir limit ev.
Proof. intros H. destruct ev; try exact I; vm_compute in H; discriminate. Qed.

Lemma sync_event_kinds {A} (m : M W A) ks dir limit :
  emits m (only ks) →
  (∀ k, existsb (kind_eqb k) ks = true →
        existsb (kind_eqb k)
          [KFeed; KSleep; KPlaylistRead; KSearch; KScan; KCatalog; KDownload;
           KStat; KChmod] = true) →
  emits m (sync_event svc dir limit).
Proof.
  intros Hm Hks. eapply emits_weaken; [exact Hm|].
  intros ev Hev. apply sync_event_of_kinds. revert Hev. apply only_weaken.
  exact Hks.
Qed.

Lemma sync_event_get_playlist name dir limit :
  emits (get_navidrome_playlist_id svc name) (sync_event svc dir limit).
Proof. unfold get_navidrome_playlist_id. repeat sync_event_step. Qed.

Lemma sync_event_cleanup self dir limit :
  emits (cleanup_missing_files svc self) (sync_event svc dir limit).
Proof.
  unfold cleanup_missing_files.
  apply emits_try_catch; [|intros e; apply emits_ret].
  apply emits_bind; [apply emits_call; exact I|]. intros pls.
  apply emits_for_each. intros playlist []. repeat sync_event_step.
Qed.

Lemma sync_event_update playlist_id ids dir limit :
  (Z.of_nat (length ids) ≤ Z.max 0 limit)%Z →
  emits (update_playlist svc playlist_id ids) (sync_event svc dir limit).
Proof.
  intros Hlen. unfold update_playlist.
  apply emits_try_catch; [|intros e; apply emits_ret].
  destruct ids as [|x ids].
  - repeat sync_event_step.
  - apply emits_bind; [|intros _; apply emits_ret].
    apply emits_call. exact Hlen.
Qed.

Lemma sync_event_prepare self playlist_dir limit :
  emits (prepare_directory svc self playlist_dir)
    (sync_event svc (Some playlist_dir) limit).
Proof.
  unfold prepare_directory.
  apply emits_bind; [apply emits_call; exact I|]. intros [|].
  - eapply ensures_bind
      with (R := fun files =>
                   ∃ w0 w1, path_glob svc playlist_dir w0 = (Reply files, w1)).
    { apply ensures_call; [exact I|]. intros w files w1 H.
      exists w, w1. exact H. }
    intros files (w0 & w1 & Hglob).
    apply emits_bind.
    + apply (ensures_for_each files (clear_body svc)
               (sync_event svc (Some playlist_dir) limit) (fun _ => True));
        [|exact I].
      intros file n Hin _. unfold clear_body.
      eapply ensures_weaken with (R := fun _ => True);
        [|intros ev Hev; exact Hev | intros; exact I].
      apply emits_bind; [apply emits_call; exact I|]. intros [|];
        [|apply emits_ret].
      apply emits_try_catch; [|intros e; apply emits_ret].
      apply emits_bind; [|intros _; apply emits_ret].
      apply emits_call. exists playlist_dir, w0, files, w1. auto.
    + intros n. destruct (0 <? n)%nat; [|apply emits_ret].
      apply emits_bind; [apply sync_event_cleanup|]. intros _.
      apply (sync_event_kinds _ [KSleep]); [apply emits_sleep; reflexivity|].
      kinds_included.
  - apply emits_bind; [apply emits_call; reflexivity|]. intros _.
    apply emits_call. exact I.
Qed.

Lemma sync_event_sync_fetched fuel self playlist_type config tracks :
  emits (sync_fetched svc fuel self playlist_type config tracks)
    (sync_event svc (cfg_dir config) (cfg_tracks config)).
Proof.
  unfold sync_fetched.
  apply emits_bind; [apply sync_event_get_playlist|]. intros playlist_id.
  destruct (negb _); [apply emits_ret|].
  eapply ensures_bind
    with (R := fun ids =>
                 (Z.of_nat (length ids) ≤ Z.max 0 (cfg_tracks config))%Z);
    [|intros ids Hids; apply sync_event_update; exact Hids].
  destruct (String.eqb playlist_type "library").
  - eapply ensures_bind with (R := library_accounted (cfg_tracks config)).
    + apply ensures_of_emits.
      * eapply sync_event_kinds; [apply kinds_library_reconcile|].
        kinds_included.
      * intros w st w' t. apply library_reconcile_accounted.
    + intros st (Hsc & _ & Hb). apply ensures_ret. lia.
  - destruct (cfg_dir config) as [playlist_dir|]; [|apply ensures_raise].
    eapply ensures_bind with (R := fun _ => True);
      [apply sync_event_prepare|]. intros _ _.
    eapply ensures_bind with (R := fun _ => True).
    { apply (sync_event_kinds _ [KSleep]); [apply emits_sleep; reflexivity|].
      kinds_included. }
    intros _ _.
    eapply ensures_bind
      with (R := fun st =>
                   accounted st
                   ∧ (success_count st ≤ Z.max 0 (cfg_tracks config))%Z).
    + apply ensures_of_emits.
      * eapply sync_event_kinds; [apply kinds_reconcile|]. kinds_included.
      * intros w st w' t Hrun.
        destruct (reconcile_final svc self playlist_dir (cfg_tracks config)
                    tracks w) as (st' & w1 & t1 & Hrun' & Hacc & Hb).
        assert (st = st') as -> by congruence. auto.
    + intros st [[Hsk Hsc] Hb].
      destruct (downloaded_tracks st) as [|d ds] eqn:Hd.
      * apply ensures_ret. simpl in Hsc. lia.
      * eapply ensures_bind
          with (R := fun new => (length new ≤ length (d :: ds))%nat).
        -- eapply ensures_weaken; [apply ensures_scan| |intros a Ha; exact Ha].
           intros ev Hev. apply sync_event_of_kinds. revert Hev.
           apply only_weaken. kinds_included.
        -- intros new Hnew. apply ensures_ret. rewrite length_app. lia.
Qed.

Lemma sync_event_sync_playlist fuel self playlist_type config :
  get_playlist_config self playlist_type = Some config →
  emits (sync_playlist svc fuel self playlist_type)
    (sync_event svc (cfg_dir config) (cfg_tracks config)).
Proof.
  intros Hcfg. unfold sync_playlist. rewrite Hcfg.
  destruct (negb _); [apply emits_ret|].
  apply emits_bind.
  - eapply sync_event_kinds; [apply kinds_fetch_tracks_for_playlist|].
    kinds_included.
  - intros [|track tracks]; [apply emits_ret|].
    apply sync_event_sync_fetched.
Qed.

End SyncEvents.

Section SyncTheorems.

Context {W : Type} (svc : Services W).

(** X13.  Whatever a sync writes to a playlist holds at most the target
    number of songs of its configuration (none when the target is
    negative): the requests that look up or create the playlist and that
    clear playlists carry no song, and the final update carries the
    identifiers found in the library and those resolved after the scan,
    which together are at most the successes counted by the loop.  A sync
    of a type without configuration does nothing at all. *)
Theorem sync_playlist_publishes_within_target (fuel : nat) (self : Syncer)
  (playlist_type : string) (w : W) :
  match get_playlist_config self playlist_type with
  | Some config =>
      Forall
        (fun ev =>
           ∀ p, ev = EvCreatePlaylist p →
                (Z.of_nat (length (cp_songId p))
                 ≤ Z.max 0 (cfg_tracks config))%Z)
        (trace_of (sync_playlist svc fuel self playlist_type w))
  | None => sync_playlist svc fuel self playlist_type w = (Ret tt, w, [])
  end.
Proof.
  destruct (get_playlist_config self playlist_type) as [config|] eqn:Hcfg.
  - pose proof (emits_trace _ _ w
                  (sync_event_sync_playlist svc fuel self playlist_type
                     config Hcfg)) as Ht.
    eapply Forall_impl; [exact Ht|].
    intros ev Hev p ->. exact Hev.
  - unfold sync_playlist. rewrite Hcfg. reflexivity.
Qed.

(** X14.  A sync deletes only files that a listing of the directory of
    its own playlist returned, and it calls [mkdir] on no path but that
    directory.  ([mkdir] is called with [parents=True]: the call creates,
    with the directory, the ancestors of it that are missing.) *)
Theorem sync_playlist_deletes_listed (fuel : nat) (self : Syncer)
  (playlist_type : string) (config : Config) (w : W) :
  get_playlist_config self playlist_type = Some config →
  Forall
    (fun ev =>
       (∀ file, ev = EvUnlink file →
                ∃ playlist_dir w0 files w1,
                  cfg_dir config = Some playlist_dir
                  ∧ path_glob svc playlist_dir w0 = (Reply files, w1)
                  ∧ file ∈ files)
       ∧ (∀ d, ev = EvMkdir d → cfg_dir config = Some d))
    (trace_of (sync_playlist svc fuel self playlist_type w)).
Proof.
  intros Hcfg.
  pose proof (emits_trace _ _ w
                (sync_event_sync_playlist svc fuel self playlist_type
                   config Hcfg)) as Ht.
  eapply Forall_impl; [exact Ht|].
  intros ev Hev. split; [intros file -> | intros d ->]; exact Hev.
Qed.

(** X15.  The [library] playlist is built from the library alone: its
    sync asks the feed, reads and writes playlists and searches the
    library, and does nothing else; no catalog lookup, no download, no
    file or directory operation, no scan. *)
Theorem library_sync_stays_in_library (fuel : nat) (self : Syncer) (w : W) :
  Forall (only [KFeed; KSleep; KPlaylistRead; KPlaylistWrite; KSearch])
    (trace_of (sync_playlist svc fuel self "library" w)).
Proof.
  apply emits_trace. unfold sync_playlist.
  destruct (get_playlist_config self "library") as [config|];
    [|apply emits_ret].
  destruct (negb _); [apply emits_ret|].
  apply emits_bind.
  { eapply emits_weaken; [apply kinds_fetch_tracks_for_playlist|].
    intros ev. apply only_weaken. kinds_included. }
  intros [|track tracks]; [apply emits_ret|].
  unfold sync_fetched.
  apply emits_bind.
  { eapply emits_weaken; [apply kinds_get_navidrome_playlist_id|].
    intros ev. apply only_weaken. kinds_included. }
  intros playlist_id. destruct (negb _); [apply emits_ret|].
  change (String.eqb "library" "library") with true. cbn iota.
  apply emits_bind.
  - apply emits_bind; [|intros st; apply emits_ret].
    eapply emits_weaken; [apply kinds_library_reconcile|].
    intros ev. apply only_weaken. kinds_included.
  - intros ids. eapply emits_weaken; [apply kinds_update_playlist|].
    intros ev. apply only_weaken. kinds_included.
Qed.

End SyncTheorems.

(** A host without the playlist directory, on which it cannot be created:
    the only path on which the sync calls [mkdir] is that directory. *)
Lemma sync_playlist_deletes_listed_witness :
  Forall
    (fun ev =>
       (∀ file, ev = EvUnlink file →
                ∃ playlist_dir w0 files w1,
                  Some "/music/navidrofm/recommended" = Some playlist_dir
                  ∧ path_glob (Demo.services Demo.read_only_disk)
                      playlist_dir w0 = (Reply files, w1)
                  ∧ file ∈ files)
       ∧ (∀ d, ev = EvMkdir d → Some "/music/navidrofm/recommended" = Some d))
    (trace_of (sync_playlist (Demo.services Demo.read_only_disk) 1
                 (make_syncer Demo.settings) "recommended" 0%nat)).
Proof.
  apply (sync_playlist_deletes_listed (Demo.services Demo.read_only_disk) 1
           (make_syncer Demo.settings) "recommended"
           {| cfg_enabled := true; cfg_tracks := 1;
              cfg_url := Some (station_url "listener" "recommended");
              cfg_name := "Discover Recommended";
              cfg_dir := Some "/music/navidrofm/recommended";
              cfg_playlist_type := None |} 0%nat).
  vm_compute. reflexivity.
Defined.

(** *** The lock around a run *)

Section Locking.

Context {W : Type} (svc : Services W).

Lemma sync_playlist_unlocked fuel self playlist_type :
  emits (sync_playlist svc fuel self playlist_type)
    (fun ev => kind_of ev ≠ KLock ∧ kind_of ev ≠ KSetup).
Proof.
  destruct (get_playlist_config self playlist_type) as [config|] eqn:Hcfg.
  - eapply emits_weaken;
      [apply (sync_event_sync_playlist svc fuel self playlist_type config Hcfg)|].
    intros ev Hev. destruct ev; simpl in *; try contradiction;
      split; discriminate.
  - unfold sync_playlist. rewrite Hcfg. apply emits_ret.
Qed.

Lemma connect_first {A B} (op : W → reply A * W) (k : A → M W B) (c : B)
  (E : Event → Prop) w :
  (∀ a, emits (k a) E) →
  ∃ t, trace_of (try_catch (bind (call EvConnect op) k) (fun _ => ret c) w)
       = EvConnect :: t
       ∧ Forall E t.
Proof.
  intros Hk. unfold try_catch, bind, call, ret, trace_of.
  destruct (op w) as [[a|e] w1]; [|exists []; split; [reflexivity|constructor]].
  pose proof (emits_trace _ _ w1 (Hk a)) as Ht. unfold trace_of in Ht.
  destruct (k a w1) as [[[b|e|] w2] t2]; simpl in *;
    exists t2; rewrite ?app_nil_r; split; auto.
Qed.

(** X16.  The lock brackets a run.  Without an argument nothing happens
    and the exit status is 1.  When the lock is refused the exit status is
    0 and nothing else was done.  When it is granted, the run starts by
    taking it and connects once, and none of the syncs that follow touches
    the lock or connects again.  A run that ends, whatever its outcome,
    ends by releasing the lock.  A run that does not end, because the
    server never reports the end of a scan, does not release it. *)
Theorem main_lock_discipline (fuel : nat) (argv : list string) (w : W) :
  match argv with
  | [] => main svc fuel argv w = (Ret 1%nat, w, [])
  | _ :: _ =>
      if (flock_acquire svc w).1 then
        ∃ o w2 t,
          Forall (fun ev => kind_of ev ≠ KLock ∧ kind_of ev ≠ KSetup) t
          ∧ main svc fuel argv w
            = match o with
              | OutOfFuel =>
                  (OutOfFuel, w2, EvAcquireLock :: EvConnect :: t)
              | _ =>
                  (o, flock_release svc w2,
                   EvAcquireLock :: EvConnect :: t ++ [EvReleaseLock])
              end
      else
        main svc fuel argv w
        = (Ret 0%nat, (flock_acquire svc w).2, [EvAcquireLock])
  end.
Proof.
  destruct argv as [|playlist_type rest]; [reflexivity|].
  unfold main. rewrite acquire_lock_run.
  destruct (flock_acquire svc w) as [[|] w1]; cbn [fst snd negb];
    [|reflexivity].
  unfold try_finally, release_lock, result_of, world_of, trace_of.
  match goal with
  | |- context [try_catch (bind (call EvConnect ?op) ?k) ?h w1] =>
      destruct (connect_first op k 1%nat
                  (fun ev => kind_of ev ≠ KLock ∧ kind_of ev ≠ KSetup) w1)
        as (t & Ht & HE);
      [|destruct (try_catch (bind (call EvConnect op) k) h w1)
          as [[o w2] t2] eqn:Hrun]
  end.
  - intros settings. apply emits_bind; [|intros _; apply emits_ret].
    destruct (String.eqb playlist_type "all");
      [|apply sync_playlist_unlocked].
    apply emits_bind; [|intros _];
      apply emits_for_each; intros ptype [];
      (apply emits_bind; [apply sync_playlist_unlocked|]);
      intros _; apply emits_ret.
  - unfold trace_of in Ht. simpl in Ht. subst t2.
    exists o, w2, t. split; [exact HE|].
    destruct o; reflexivity.
Qed.

End Locking.

(** *** Playlists on the server *)



Section Playlists.

Context {W : Type} (svc : Services W).



End Playlists.

(** *** The scan *)

Section Scanning.

Context {W : Type} (svc : Services W).




End Scanning.

(** *** Preparation of the playlist directory *)

Section Preparing.

Context {W : Type} (svc : Services W).

Lemma clear_body_run file n w r w' t :
  clear_body svc file n w = (Ret r, w', t) →
  r = Continue n ∧ Forall (only [KStat]) t
  ∨ (r = Continue n ∨ r = Continue (S n))
    ∧ t = [EvIsFile file; EvUnlink file].
Proof.
  unfold clear_body, bind, call, try_catch, ret.
  destruct (path_is_file svc file w) as [[[|]|e] w1]; try discriminate.
  - destruct (path_unlink svc file w1) as [[[]|e] w2];
      intros [= <- _ <-]; right; auto.
  - intros [= <- _ <-]. left. split; [reflexivity|]. repeat constructor.
Qed.

Lemma clear_loop_counts files :
  ∀ n w n' w' t,
    for_each files (clear_body svc) n w = (Ret n', w', t) →
    (n < n')%nat ∧ (∃ file, EvUnlink file ∈ t)
    ∨ n' = n.
Proof.
  induction files as [|file files IH]; intros n w n' w' t; cbn [for_each].
  - intros [= <- _ _]. right. reflexivity.
  - intros Hrun.
    apply bind_inv_ret in Hrun as (r & w1 & t1 & t2 & Hb & Hk & ->).
    apply clear_body_run in Hb as [[-> Ht1] | [Hr ->]].
    + destruct (IH _ _ _ _ _ Hk) as [[Hlt [f Hf]] | ->]; [left | right; auto].
      split; [exact Hlt|]. exists f. apply elem_of_app. right. exact Hf.
    + assert (Hin : ∃ f, EvUnlink f ∈ [EvIsFile file; EvUnlink file] ++ t2).
      { exists file. apply elem_of_app. left.
        repeat constructor. }
      destruct Hr as [-> | ->];
        (destruct (IH _ _ _ _ _ Hk) as [[Hlt _] | ->];
         [left; split; [lia | exact Hin]|]).
      * right. reflexivity.
      * left. split; [lia | exact Hin].
Qed.

Lemma stat_or_unlink t :
  Forall (only [KStat; KDelete]) t →
  Forall (only [KStat; KMkdir; KChmod]) t ∨ ∃ file, EvUnlink file ∈ t.
Proof.
  induction 1 as [|ev t Hev _ IH]; [left; constructor|].
  destruct IH as [IH | [file Hfile]];
    [|right; exists file; constructor; exact Hfile].
  destruct ev; try (vm_compute in Hev; discriminate);
    try (left; constructor; [reflexivity | exact IH]).
  right. eexists. constructor.
Qed.

Lemma clear_loop_kinds files n :
  emits (for_each files (clear_body svc) n) (only [KStat; KDelete]).
Proof.
  apply emits_for_each. intros file k. unfold clear_body. repeat only_step.
Qed.

Lemma prepare_directory_untouched self playlist_dir w :
  Forall (only [KStat; KMkdir; KChmod])
    (trace_of (prepare_directory svc self playlist_dir w))
  ∨ ∃ file, EvUnlink file ∈ trace_of (prepare_directory svc self playlist_dir w).
Proof.
  unfold prepare_directory, trace_of, bind, call, sleep, ret.
  destruct (path_exists svc playlist_dir w) as [[[|]|e] w1]; cbn [fst snd].
  - destruct (path_glob svc playlist_dir w1) as [[files|e] w2];
      [|left; repeat constructor].
    pose proof (emits_trace _ _ w2 (clear_loop_kinds files 0%nat)) as Hk.
    unfold trace_of in Hk.
    destruct (for_each files (clear_body svc) 0%nat w2)
      as [[[n|e|] w3] t3] eqn:Hloop; simpl in Hk.
    + destruct (0 <? n)%nat eqn:Hn.
      * right. apply Nat.ltb_lt in Hn.
        destruct (clear_loop_counts _ _ _ _ _ _ Hloop) as [[_ [file Hf]] | ->];
          [|lia].
        exists file.
        destruct (cleanup_missing_files svc self w3) as [[[[]|e|] w4] t4];
          simpl; rewrite ?elem_of_cons, ?elem_of_app; auto.
      * simpl. rewrite app_nil_r.
        destruct (stat_or_unlink t3 Hk) as [H | [file Hf]].
        -- left. repeat (constructor; [reflexivity|]). exact H.
        -- right. exists file. rewrite !elem_of_cons. auto.
    + simpl. destruct (stat_or_unlink t3 Hk) as [H | [file Hf]].
      * left. repeat (constructor; [reflexivity|]). exact H.
      * right. exists file. rewrite !elem_of_cons. auto.
    + simpl. destruct (stat_or_unlink t3 Hk) as [H | [file Hf]].
      * left. repeat (constructor; [reflexivity|]). exact H.
      * right. exists file. rewrite !elem_of_cons. auto.
  - left. destruct (path_mkdir svc playlist_dir w1) as [[[]|e] w2]; simpl.
    + destruct (os_chmod svc playlist_dir 511 w2) as [[[]|e] w3]; simpl;
        repeat constructor.
    + repeat constructor.
  - left. repeat constructor.
Qed.

(** X21.  The preparation of the playlist directory calls [exists], [glob]
    and [mkdir] on no path but the one it is given ([mkdir] with
    [parents=True], which also creates the missing ancestors of that path),
    and the only mode it sets is 0o777, on that directory.  A pause it
    makes lasts between 5 and 20 seconds.  Unless it tried to delete a file
    it makes no pause and no request to the server: all it does then is
    look at the directory and, when the directory was missing, call
    [mkdir] and [chmod] on it. *)
Theorem prepare_directory_effects (self : Syncer) (playlist_dir : string)
  (w : W) :
  let t := trace_of (prepare_directory svc self playlist_dir w) in
  Forall
    (fun ev =>
       match ev with
       | EvSleep seconds => (5 ≤ seconds ≤ 20)%nat
       | EvChmod path mode => path = playlist_dir ∧ mode = 511%nat
       | EvExists path | EvGlob path | EvMkdir path => path = playlist_dir
       | _ => True
       end) t
  ∧ ((∀ file, EvUnlink file ∉ t) →
     Forall (only [KStat; KMkdir; KChmod]) t).
Proof.
  cbn zeta. split.
  - apply emits_trace. unfold prepare_directory.
    apply emits_bind; [apply emits_call; reflexivity|]. intros [|].
    + apply emits_bind; [apply emits_call; reflexivity|]. intros files.
      apply emits_bind.
      * apply emits_for_each. intros file k. unfold clear_body.
        repeat first [apply emits_call; exact I | emits_step].
      * intros n. destruct (0 <? n)%nat; [|apply emits_ret].
        apply emits_bind.
        -- eapply emits_weaken; [apply kinds_cleanup_missing_files|].
           intros ev Hev. destruct ev; try exact I; vm_compute in Hev;
             discriminate.
        -- intros _ w0. split; [|exact I].
           constructor; [simpl; lia | constructor].
    + apply emits_bind; [apply emits_call; reflexivity|]. intros _.
      apply emits_call. split; reflexivity.
  - intros Hno.
    destruct (prepare_directory_untouched self playlist_dir w)
      as [H | [file Hf]]; [exact H|].
    destruct (Hno file Hf).
Qed.

End Preparing.

(** *** The configured playlists *)

Section Configured.

Context {W : Type} (svc : Services W).

Lemma trigger_scan_targeted self directory relative w :
  relative_to_music directory = Some relative →
  ∃ rest,
    trace_of (trigger_scan svc self directory w)
    = EvStartScan (Some (navidrome_library_id self +:+ ":" +:+ relative))
      :: rest.
Proof.
  intros Hrel. unfold trigger_scan. rewrite Hrel.
  unfold try_catch, call, raise, trace_of.
  destruct (startScan svc _ w) as [[[]|e] w1]; [eexists; reflexivity|].
  destruct e; simpl; try (eexists; reflexivity).
  destruct (startScan svc None w1) as [[[]|e] w2]; eexists; reflexivity.
Qed.

(** X22.  The playlists that [__init__] configures, whatever the
    environment: there are at most five types; all but [library] have a
    directory, [/music/navidrofm/] followed by the type, which lies under
    [/music], so that the scan after a download is first asked for that
    directory alone; and the two weekly playlists exist only with a
    non-empty ListenBrainz user name and never ask for more than 50
    tracks. *)
Theorem configured_playlists (e : Settings) (playlist_type : string)
  (config : Config) (w : W) :
  get_playlist_config (make_syncer e) playlist_type = Some config →
  playlist_type ∈ ["recommended"; "mix"; "library"; "exploration"; "jams"]
  ∧ match cfg_dir config with
    | None => playlist_type = "library"
    | Some playlist_dir =>
        playlist_type ≠ "library"
        ∧ playlist_dir = "/music/navidrofm/" +:+ playlist_type
        ∧ ∃ rest,
            trace_of (trigger_scan svc (make_syncer e) playlist_dir w)
            = EvStartScan
                (Some (env_library_id e +:+ ":navidrofm/" +:+ playlist_type))
              :: rest
    end
  ∧ (playlist_type = "exploration" ∨ playlist_type = "jams" →
     (cfg_tracks config ≤ 50)%Z
     ∧ ∃ user, env_lz_user e = Some user ∧ user ≠ "").
Proof.
  assert (Hscan : ∀ name,
            name ∈ ["recommended"; "mix"; "exploration"; "jams"] →
            ∃ rest,
              trace_of (trigger_scan svc (make_syncer e)
                          ("/music/navidrofm/" +:+ name) w)
              = EvStartScan (Some (env_library_id e +:+ ":navidrofm/" +:+ name))
                :: rest).
  { intros name Hname.
    apply (trigger_scan_targeted (make_syncer e) _ ("navidrofm/" +:+ name)).
    rewrite !elem_of_cons, elem_of_nil in Hname.
    destruct Hname as [-> | [-> | [-> | [-> | []]]]]; vm_compute; reflexivity. }
  unfold get_playlist_config.
  destruct (playlists (make_syncer e) !! playlist_type) as [c|] eqn:Hp.
  - intros [= <-]. revert Hp. unfold make_syncer. cbn [playlists].
    rewrite !lookup_insert_Some, lookup_empty.
    intros [[<- <-]|[_ [[<- <-]|[_ [[<- <-]|[_ H]]]]]]; [| | |discriminate];
      (split; [repeat constructor|]);
      (split; [|intros [H | H]; discriminate]); cbn [cfg_dir];
      try reflexivity;
      (split; [discriminate|]); (split; [reflexivity|]);
      apply Hscan; repeat constructor.
  - clear Hp. unfold make_syncer. cbn [listenbrainz_playlists].
    assert (Huser : Text.truthy_opt (env_lz_user e) = true →
                    ∃ user, env_lz_user e = Some user ∧ user ≠ "").
    { destruct (env_lz_user e) as [[|c user]|]; try discriminate.
      intros _. eexists. split; [reflexivity | discriminate]. }
    destruct (Text.truthy_opt (env_lz_user e));
      [|rewrite lookup_empty; discriminate].
    specialize (Huser eq_refl).
    rewrite !lookup_insert_Some, lookup_empty.
    intros [[<- <-]|[_ [[<- <-]|[_ H]]]]; [| |discriminate];
      (split; [repeat constructor|]);
      (split; [|intros _; cbn [cfg_tracks]; split; [lia | exact Huser]]);
      cbn [cfg_dir];
      (split; [discriminate|]); (split; [reflexivity|]);
      apply Hscan; repeat constructor.
Qed.

End Configured.

(** An instance of X22: the weekly exploration playlist of a ListenBrainz
    user who asks for 80 tracks. *)
Lemma configured_playlists_witness :
  let e := {| env_lastfm_user := "listener";
              env_recommended := true;  env_recommended_tracks := 25;
              env_mix := false;         env_mix_tracks := 25;
              env_library := false;     env_library_tracks := 50;
              env_lz_user := Some "listener";
              env_exploration := true;  env_exploration_tracks := 80;
              env_jams := false;        env_jams_tracks := 25;
              env_library_id := "1" |} in
  get_playlist_config (make_syncer e) "exploration"
  = Some {| cfg_enabled := true; cfg_tracks := 50; cfg_url := None;
            cfg_name := "Weekly Exploration";
            cfg_dir := Some "/music/navidrofm/exploration";
            cfg_playlist_type := Some "weekly-exploration" |}
  ∧ "exploration" ∈ ["recommended"; "mix"; "library"; "exploration"; "jams"]
  ∧ ("exploration" ≠ "library"
     ∧ "/music/navidrofm/exploration" = "/music/navidrofm/exploration"
     ∧ ∃ rest,
         trace_of (trigger_scan (Demo.services Demo.full_library)
                     (make_syncer e) "/music/navidrofm/exploration" 0%nat)
         = EvStartScan (Some "1:navidrofm/exploration") :: rest)
  ∧ ("exploration" = "exploration" ∨ "exploration" = "jams" →
     (50 ≤ 50)%Z ∧ ∃ user, Some "listener" = Some user ∧ user ≠ "").
Proof.
  intros e.
  assert (Hcfg : get_playlist_config (make_syncer e) "exploration"
                 = Some {| cfg_enabled := true; cfg_tracks := 50;
                           cfg_url := None;
                           cfg_name := "Weekly Exploration";
                           cfg_dir := Some "/music/navidrofm/exploration";
                           cfg_playlist_type := Some "weekly-exploration" |})
    by (vm_compute; reflexivity).
  split; [exact Hcfg|].
  exact (configured_playlists (Demo.services Demo.full_library) e
           "exploration" _ 0%nat Hcfg).
Defined.
